(** * The evaluation broker of nomad/eval_broker.go

    A shallow embedding of the in-memory evaluation broker: the pending
    queues (Go's container/heap over [PendingEvaluations]), the broker
    state with its tables and statistics, and the operations that run under
    the broker's lock (enqueue, scan/dequeue, Ack, Nack, flush).  Every
    operation is a function on the broker state; an operation that
    dereferences a nil pointer or indexes out of range ends in [Panic]. *)

From stdpp Require Import gmap strings list fin_maps.
From Stdlib Require Import ZArith Lia.

Local Open Scope Z_scope.

(** ** Evaluations *)

(** The fields of structs.Evaluation the broker reads.  [Wait] is a
    time.Duration and [WaitUntil] a time.Time, both counted in nanoseconds;
    the zero time.Time is 0. *)
Record Evaluation := mkEval {
  ID : string;
  Namespace : string;
  JobID : string;
  EvalType : string;
  Priority : Z;
  CreateIndex : Z;
  Wait : Z;
  WaitUntil : Z
}.

(** structs.NamespacedID{ID, Namespace}, the job key. *)
Abbreviation NamespacedID := (string * string)%type (only parsing).

Definition namespacedID (e : Evaluation) : NamespacedID := (JobID e, Namespace e).

Definition setWait (e : Evaluation) (w : Z) : Evaluation :=
  mkEval (ID e) (Namespace e) (JobID e) (EvalType e) (Priority e)
         (CreateIndex e) w (WaitUntil e).

Definition failedQueue : string := "_failed"%string.

(** ** PendingEvaluations: the sort interface *)

Abbreviation PendingEvaluations := (list Evaluation) (only parsing).

(** The comparison of [PendingEvaluations.Less] on the two elements it
    reads. *)
Definition LessEval (a b : Evaluation) : bool :=
  if negb (String.eqb (JobID a) (JobID b)) && negb (Z.eqb (Priority a) (Priority b))
  then negb (Z.ltb (Priority a) (Priority b))
  else Z.ltb (CreateIndex a) (CreateIndex b).

(** [p.Less(i, j)].  container/heap only passes indices below [len(p)]. *)
Definition Less (p : PendingEvaluations) (i j : nat) : bool :=
  match p !! i, p !! j with
  | Some a, Some b => LessEval a b
  | _, _ => false
  end.

(** [p.Swap(i, j)]. *)
Definition Swap (p : PendingEvaluations) (i j : nat) : PendingEvaluations :=
  match p !! i, p !! j with
  | Some a, Some b => <[j:=a]> (<[i:=b]> p)
  | _, _ => p
  end.

(** [p.Peek()]: nil on the empty slice, else [p[n-1]]. *)
Definition Peek (p : PendingEvaluations) : option Evaluation :=
  match length p with
  | O => None
  | S n => p !! n
  end.

(** ** container/heap *)

(** The loop of heap.up: [fuel] bounds the iterations, [j] is halved at
    every one of them. *)
Fixpoint up_loop (fuel : nat) (h : PendingEvaluations) (j : nat) : PendingEvaluations :=
  match fuel with
  | O => h
  | S fuel' =>
      let i := ((j - 1) / 2)%nat in
      if (i =? j)%nat || negb (Less h j i) then h
      else up_loop fuel' (Swap h i j) i
  end.

Definition up (h : PendingEvaluations) (j : nat) : PendingEvaluations :=
  up_loop (S j) h j.

(** The loop of heap.down on the first [n] elements. *)
Fixpoint down_loop (fuel : nat) (h : PendingEvaluations) (i n : nat) : PendingEvaluations :=
  match fuel with
  | O => h
  | S fuel' =>
      let j1 := (2 * i + 1)%nat in
      if (n <=? j1)%nat then h
      else
        let j2 := (j1 + 1)%nat in
        let j := if (j2 <? n)%nat && Less h j2 j1 then j2 else j1 in
        if negb (Less h j i) then h
        else down_loop fuel' (Swap h i j) j n
  end.

Definition down (h : PendingEvaluations) (i0 n : nat) : PendingEvaluations :=
  down_loop n h i0 n.

(** heap.Push: append, then sift the new last element up. *)
Definition heap_Push (h : PendingEvaluations) (x : Evaluation) : PendingEvaluations :=
  up (h ++ [x]) (length h).

(** heap.Pop: swap the root with the last element, sift the new root down
    in the prefix, and cut the last element off.  On an empty slice Go
    panics on the index; that is [None]. *)
Definition heap_Pop (h : PendingEvaluations) : option (Evaluation * PendingEvaluations) :=
  match length h with
  | O => None
  | S n =>
      let h1 := down (Swap h 0 n) 0 n in
      match h1 !! n with
      | Some e => Some (e, take n h1)
      | None => None
      end
  end.

(** ** Durations *)

(** time.Duration is an int64; a product wraps around. *)
Definition wrap64 (z : Z) : Z := (z + 2 ^ 63) mod 2 ^ 64 - 2 ^ 63.

Definition in_int64 (z : Z) : Prop := - 2 ^ 63 <= z < 2 ^ 63.

Definition nackReenqueueDelay (initialNackDelay subsequentNackDelay : Z)
    (prevDequeues : Z) : Z :=
  if Z.leb prevDequeues 0 then 0
  else if Z.eqb prevDequeues 1 then initialNackDelay
  else wrap64 ((prevDequeues - 1) * subsequentNackDelay).

(** ** The broker state *)

(** SchedulerStats and BrokerStats.  The counters are Go ints that move by
    one per operation; they are integers here. *)
Record SchedulerStats := mkSched {
  Ready : Z;
  Unacked : Z
}.

Record BrokerStats := mkStats {
  TotalReady : Z;
  TotalUnacked : Z;
  TotalBlocked : Z;
  TotalWaiting : Z;
  ByScheduler : gmap string SchedulerStats
}.

(** An unacknowledged delivery.  [NackTimer] is the state of its
    time.Timer: [true] while the timer is pending, [false] once it has
    fired or has been stopped, so that [Stop] reports the field. *)
Record unackEval := mkUnack {
  Eval : Evaluation;
  Token : string;
  NackTimer : bool
}.

(** Modelled from the spec: lib/delayheap is not among the sources.  The
    delay heap holds evaluations keyed by their wait-until time; a new heap
    is empty, [Push] adds an entry and [Remove] takes the entries of an id
    out. *)
Abbreviation DelayHeap := (list (Evaluation * Z)) (only parsing).

Definition NewDelayHeap : DelayHeap := [].

Definition delayHeap_Push (h : DelayHeap) (e : Evaluation) (t : Z) : DelayHeap :=
  (e, t) :: h.

Definition delayHeap_Remove (h : DelayHeap) (e : Evaluation) : DelayHeap :=
  filter (fun p => ID (fst p) ≠ ID e) h.

(** The fields of EvalBroker.  A wait channel (one slot) is the boolean
    "a signal is buffered"; a time-wait timer is the evaluation its
    callback enqueues; [delayedEvalWatcher] says whether the watcher
    goroutine runs. *)
Record EvalBroker := mkBroker {
  nackTimeout : Z;
  deliveryLimit : Z;
  enabled : bool;
  stats : BrokerStats;
  evals : gmap string Z;
  jobEvals : gmap (string * string) string;
  blocked : gmap (string * string) (list Evaluation);
  ready : gmap string (list Evaluation);
  unack : gmap string unackEval;
  waiting : gmap string bool;
  requeue : gmap string Evaluation;
  timeWait : gmap string Evaluation;
  delayedEvalWatcher : bool;
  delayHeap : DelayHeap;
  delayedEvalsUpdateCh : bool;
  initialNackDelay : Z;
  subsequentNackDelay : Z
}.

Definition with_enabled (b : EvalBroker) (v : bool) : EvalBroker :=
  mkBroker (nackTimeout b) (deliveryLimit b) v (stats b) (evals b) (jobEvals b)
    (blocked b) (ready b) (unack b) (waiting b) (requeue b) (timeWait b)
    (delayedEvalWatcher b) (delayHeap b) (delayedEvalsUpdateCh b)
    (initialNackDelay b) (subsequentNackDelay b).

Definition with_stats (b : EvalBroker) (v : BrokerStats) : EvalBroker :=
  mkBroker (nackTimeout b) (deliveryLimit b) (enabled b) v (evals b) (jobEvals b)
    (blocked b) (ready b) (unack b) (waiting b) (requeue b) (timeWait b)
    (delayedEvalWatcher b) (delayHeap b) (delayedEvalsUpdateCh b)
    (initialNackDelay b) (subsequentNackDelay b).

Definition with_evals (b : EvalBroker) (v : gmap string Z) : EvalBroker :=
  mkBroker (nackTimeout b) (deliveryLimit b) (enabled b) (stats b) v (jobEvals b)
    (blocked b) (ready b) (unack b) (waiting b) (requeue b) (timeWait b)
    (delayedEvalWatcher b) (delayHeap b) (delayedEvalsUpdateCh b)
    (initialNackDelay b) (subsequentNackDelay b).

Definition with_jobEvals (b : EvalBroker) (v : gmap (string * string) string) : EvalBroker :=
  mkBroker (nackTimeout b) (deliveryLimit b) (enabled b) (stats b) (evals b) v
    (blocked b) (ready b) (unack b) (waiting b) (requeue b) (timeWait b)
    (delayedEvalWatcher b) (delayHeap b) (delayedEvalsUpdateCh b)
    (initialNackDelay b) (subsequentNackDelay b).

Definition with_blocked (b : EvalBroker) (v : gmap (string * string) (list Evaluation)) : EvalBroker :=
  mkBroker (nackTimeout b) (deliveryLimit b) (enabled b) (stats b) (evals b) (jobEvals b)
    v (ready b) (unack b) (waiting b) (requeue b) (timeWait b)
    (delayedEvalWatcher b) (delayHeap b) (delayedEvalsUpdateCh b)
    (initialNackDelay b) (subsequentNackDelay b).

Definition with_ready (b : EvalBroker) (v : gmap string (list Evaluation)) : EvalBroker :=
  mkBroker (nackTimeout b) (deliveryLimit b) (enabled b) (stats b) (evals b) (jobEvals b)
    (blocked b) v (unack b) (waiting b) (requeue b) (timeWait b)
    (delayedEvalWatcher b) (delayHeap b) (delayedEvalsUpdateCh b)
    (initialNackDelay b) (subsequentNackDelay b).

Definition with_unack (b : EvalBroker) (v : gmap string unackEval) : EvalBroker :=
  mkBroker (nackTimeout b) (deliveryLimit b) (enabled b) (stats b) (evals b) (jobEvals b)
    (blocked b) (ready b) v (waiting b) (requeue b) (timeWait b)
    (delayedEvalWatcher b) (delayHeap b) (delayedEvalsUpdateCh b)
    (initialNackDelay b) (subsequentNackDelay b).

Definition with_waiting (b : EvalBroker) (v : gmap string bool) : EvalBroker :=
  mkBroker (nackTimeout b) (deliveryLimit b) (enabled b) (stats b) (evals b) (jobEvals b)
    (blocked b) (ready b) (unack b) v (requeue b) (timeWait b)
    (delayedEvalWatcher b) (delayHeap b) (delayedEvalsUpdateCh b)
    (initialNackDelay b) (subsequentNackDelay b).

Definition with_requeue (b : EvalBroker) (v : gmap string Evaluation) : EvalBroker :=
  mkBroker (nackTimeout b) (deliveryLimit b) (enabled b) (stats b) (evals b) (jobEvals b)
    (blocked b) (ready b) (unack b) (waiting b) v (timeWait b)
    (delayedEvalWatcher b) (delayHeap b) (delayedEvalsUpdateCh b)
    (initialNackDelay b) (subsequentNackDelay b).

Definition with_timeWait (b : EvalBroker) (v : gmap string Evaluation) : EvalBroker :=
  mkBroker (nackTimeout b) (deliveryLimit b) (enabled b) (stats b) (evals b) (jobEvals b)
    (blocked b) (ready b) (unack b) (waiting b) (requeue b) v
    (delayedEvalWatcher b) (delayHeap b) (delayedEvalsUpdateCh b)
    (initialNackDelay b) (subsequentNackDelay b).

Definition with_watcher (b : EvalBroker) (v : bool) : EvalBroker :=
  mkBroker (nackTimeout b) (deliveryLimit b) (enabled b) (stats b) (evals b) (jobEvals b)
    (blocked b) (ready b) (unack b) (waiting b) (requeue b) (timeWait b)
    v (delayHeap b) (delayedEvalsUpdateCh b)
    (initialNackDelay b) (subsequentNackDelay b).

Definition with_delayHeap (b : EvalBroker) (v : DelayHeap) : EvalBroker :=
  mkBroker (nackTimeout b) (deliveryLimit b) (enabled b) (stats b) (evals b) (jobEvals b)
    (blocked b) (ready b) (unack b) (waiting b) (requeue b) (timeWait b)
    (delayedEvalWatcher b) v (delayedEvalsUpdateCh b)
    (initialNackDelay b) (subsequentNackDelay b).

Definition with_updateCh (b : EvalBroker) (v : bool) : EvalBroker :=
  mkBroker (nackTimeout b) (deliveryLimit b) (enabled b) (stats b) (evals b) (jobEvals b)
    (blocked b) (ready b) (unack b) (waiting b) (requeue b) (timeWait b)
    (delayedEvalWatcher b) (delayHeap b) v
    (initialNackDelay b) (subsequentNackDelay b).

(** Updates of the statistics. *)
Definition addReady (s : BrokerStats) (d : Z) : BrokerStats :=
  mkStats (TotalReady s + d) (TotalUnacked s) (TotalBlocked s) (TotalWaiting s) (ByScheduler s).

Definition addUnacked (s : BrokerStats) (d : Z) : BrokerStats :=
  mkStats (TotalReady s) (TotalUnacked s + d) (TotalBlocked s) (TotalWaiting s) (ByScheduler s).

Definition addBlocked (s : BrokerStats) (d : Z) : BrokerStats :=
  mkStats (TotalReady s) (TotalUnacked s) (TotalBlocked s + d) (TotalWaiting s) (ByScheduler s).

Definition addWaiting (s : BrokerStats) (d : Z) : BrokerStats :=
  mkStats (TotalReady s) (TotalUnacked s) (TotalBlocked s) (TotalWaiting s + d) (ByScheduler s).

Definition setByScheduler (s : BrokerStats) (queue : string) (v : SchedulerStats) : BrokerStats :=
  mkStats (TotalReady s) (TotalUnacked s) (TotalBlocked s) (TotalWaiting s)
    (<[queue:=v]> (ByScheduler s)).

(** The result of an operation that returns an error value: the state it
    leaves and the value or the error; [Panic] is a run-time panic. *)
Inductive error :=
| ErrNotOutstanding
| ErrTokenMismatch
| ErrNackTimeoutReached
| ErrDisabled
| ErrNotFound
| ErrTokenDoesNotMatch
| ErrAckedAfterNack.

Inductive outcome (A : Type) :=
| Ok (b : EvalBroker) (a : A)
| Err (b : EvalBroker) (e : error)
| Panic.

Arguments Ok {A} b a.
Arguments Err {A} b e.
Arguments Panic {A}.

(** ** Construction and lifecycle *)

(** NewEvalBroker: an error for a negative timeout, else a disabled broker
    with empty tables. *)
Definition emptyBroker (timeout initialNackDelay subsequentNackDelay deliveryLimit : Z)
    : EvalBroker :=
  mkBroker timeout deliveryLimit false (mkStats 0 0 0 0 ∅)
    ∅ ∅ ∅ ∅ ∅ ∅ ∅ ∅ false NewDelayHeap false
    initialNackDelay subsequentNackDelay.

Definition NewEvalBroker (timeout initialNackDelay subsequentNackDelay deliveryLimit : Z)
    : option EvalBroker :=
  if Z.ltb timeout 0 then None
  else Some (emptyBroker timeout initialNackDelay subsequentNackDelay deliveryLimit).

(** flush: the wait channels are closed and the map replaced, the timers
    stopped, the watcher cancelled, and the tables and statistics reset.
    The requeue table is not touched. *)
Definition flush (b : EvalBroker) : EvalBroker :=
  mkBroker (nackTimeout b) (deliveryLimit b) (enabled b) (mkStats 0 0 0 0 ∅)
    ∅ ∅ ∅ ∅ ∅ ∅ (requeue b) ∅ false NewDelayHeap false
    (initialNackDelay b) (subsequentNackDelay b).

Definition SetEnabled (b : EvalBroker) (en : bool) : EvalBroker :=
  let prevEnabled := enabled b in
  let b1 := with_enabled b en in
  let b2 := if negb prevEnabled && en then with_watcher b1 true else b1 in
  if negb en then flush b2 else b2.

(** Stats copies the counters and every per-scheduler entry. *)
Definition Stats (b : EvalBroker) : BrokerStats :=
  mkStats (TotalReady (stats b)) (TotalUnacked (stats b)) (TotalBlocked (stats b))
    (TotalWaiting (stats b)) (ByScheduler (stats b)).

(** ** Enqueue *)

(** processWaitingEnqueue: a timer whose callback is [enqueueWaiting eval]. *)
Definition processWaitingEnqueue (b : EvalBroker) (eval : Evaluation) : EvalBroker :=
  with_stats (with_timeWait b (<[ID eval:=eval]> (timeWait b)))
    (addWaiting (stats b) 1).

(** The second half of enqueueLocked, from "Find the pending by scheduler
    class" on: push on the ready heap of [queue], count it, signal the wait
    channel. *)
Definition enqueueReady (b : EvalBroker) (eval : Evaluation) (queue : string) : EvalBroker :=
  let waiting1 :=
    match ready b !! queue with
    | Some _ => waiting b
    | None =>
        match waiting b !! queue with
        | Some _ => waiting b
        | None => <[queue:=false]> (waiting b)
        end
    end in
  let pending := default [] (ready b !! queue) in
  let bySched := default (mkSched 0 0) (ByScheduler (stats b) !! queue) in
  let stats1 :=
    setByScheduler (addReady (stats b) 1) queue
      (mkSched (Ready bySched + 1) (Unacked bySched)) in
  let waiting2 :=
    match waiting1 !! queue with
    | Some _ => <[queue:=true]> waiting1
    | None => waiting1
    end in
  with_waiting
    (with_stats (with_ready b (<[queue:=heap_Push pending eval]> (ready b))) stats1)
    waiting2.

Definition enqueueLocked (b : EvalBroker) (eval : Evaluation) (queue : string) : EvalBroker :=
  if negb (enabled b) then b
  else
    let nsid := namespacedID eval in
    let pendingEval := default ""%string (jobEvals b !! nsid) in
    if String.eqb pendingEval ""
    then enqueueReady (with_jobEvals b (<[nsid:=ID eval]> (jobEvals b))) eval queue
    else if negb (String.eqb pendingEval (ID eval))
    then
      let blk := default [] (blocked b !! nsid) in
      with_stats (with_blocked b (<[nsid:=heap_Push blk eval]> (blocked b)))
        (addBlocked (stats b) 1)
    else enqueueReady b eval queue.

Definition enqueueWaiting (b : EvalBroker) (eval : Evaluation) : EvalBroker :=
  let b1 := with_stats (with_timeWait b (delete (ID eval) (timeWait b)))
              (addWaiting (stats b) (-1)) in
  enqueueLocked b1 eval (EvalType eval).

Definition processEnqueue (b : EvalBroker) (eval : Evaluation) (token : string) : EvalBroker :=
  if negb (enabled b) then b
  else
    match evals b !! ID eval with
    | Some _ =>
        if String.eqb token "" then b
        else
          match unack b !! ID eval with
          | Some u =>
              if String.eqb (Token u) token
              then with_requeue b (<[token:=eval]> (requeue b))
              else b
          | None => b
          end
    | None =>
        let b1 := with_evals b (<[ID eval:=0]> (evals b)) in
        if Z.ltb 0 (Wait eval) then processWaitingEnqueue b1 eval
        else if negb (Z.eqb (WaitUntil eval) 0)
        then
          with_updateCh
            (with_stats
               (with_delayHeap b1 (delayHeap_Push (delayHeap b1) eval (WaitUntil eval)))
               (addWaiting (stats b1) 1))
            true
        else enqueueLocked b1 eval (EvalType eval)
    end.

Definition Enqueue (b : EvalBroker) (eval : Evaluation) : EvalBroker :=
  processEnqueue b eval "".

(** EnqueueAll ranges over a Go map; [evs] lists its entries in the order
    the range visits them. *)
Definition EnqueueAll (b : EvalBroker) (evs : list (Evaluation * string)) : EvalBroker :=
  foldl (fun b1 p => processEnqueue b1 (fst p) (snd p)) b evs.

(** The timer branch of runDelayedEvalsWatcher for the evaluation it
    peeked. *)
Definition delayedEvalFire (b : EvalBroker) (eval : Evaluation) : EvalBroker :=
  let b1 := with_stats (with_delayHeap b (delayHeap_Remove (delayHeap b) eval))
              (addWaiting (stats b) (-1)) in
  enqueueLocked b1 eval (EvalType eval).

(** ** Dequeue *)

(** dequeueForSched, with the token uuid.Generate returned.  heap.Pop of an
    empty queue and the update through a missing ByScheduler entry panic. *)
Definition dequeueForSched (b : EvalBroker) (sched : string) (token : string)
    : outcome (option (Evaluation * string)) :=
  match heap_Pop (default [] (ready b !! sched)) with
  | None => Panic
  | Some (eval, pending) =>
      match ByScheduler (stats b) !! sched with
      | None => Panic
      | Some bySched =>
          let b1 := with_ready b (<[sched:=pending]> (ready b)) in
          let b2 := with_unack b1 (<[ID eval:=mkUnack eval token true]> (unack b1)) in
          let b3 := with_evals b2
                      (<[ID eval:=default 0 (evals b2 !! ID eval) + 1]> (evals b2)) in
          let stats1 :=
            setByScheduler (addUnacked (addReady (stats b3) (-1)) 1) sched
              (mkSched (Ready bySched - 1) (Unacked bySched + 1)) in
          Ok (with_stats b3 stats1) (Some (eval, token))
      end
  end.

(** One iteration of the scan loop over the requested schedulers: the
    pair is (eligibleSched, eligiblePriority). *)
Definition scanStep (b : EvalBroker) (acc : list string * Z) (sched : string)
    : list string * Z :=
  match ready b !! sched with
  | None => acc
  | Some pending =>
      match Peek pending with
      | None => acc
      | Some rdy =>
          if (length (fst acc) =? 0)%nat || Z.ltb (snd acc) (Priority rdy)
          then ([sched], Priority rdy)
          else if Z.ltb (Priority rdy) (snd acc) then acc
          else if Z.eqb (snd acc) (Priority rdy) then (fst acc ++ [sched], snd acc)
          else acc
      end
  end.

Definition eligible (b : EvalBroker) (schedulers : list string) : list string * Z :=
  foldl (scanStep b) ([], 0) schedulers.

(** scanForSchedulers; [rnd] is the source of rand.Intn and [token] the
    uuid of the delivery. *)
Definition scanForSchedulers (b : EvalBroker) (schedulers : list string)
    (rnd : nat) (token : string) : outcome (option (Evaluation * string)) :=
  if negb (enabled b) then Err b ErrDisabled
  else
    let eligibleSched := fst (eligible b schedulers) in
    match eligibleSched with
    | [] => Ok b None
    | [sched] => dequeueForSched b sched token
    | _ =>
        match eligibleSched !! (rnd mod length eligibleSched)%nat with
        | Some sched => dequeueForSched b sched token
        | None => Panic
        end
    end.

(** waitForSchedulers, as far as the broker state goes: a wait channel for
    every requested scheduler that has none. *)
Definition waitForSchedulers (b : EvalBroker) (schedulers : list string) : EvalBroker :=
  foldl (fun b1 sched =>
           match waiting b1 !! sched with
           | Some _ => b1
           | None => with_waiting b1 (<[sched:=false]> (waiting b1))
           end) b schedulers.

(** ** Outstanding deliveries *)

Definition Outstanding (b : EvalBroker) (evalID : string) : string * bool :=
  match unack b !! evalID with
  | None => (""%string, false)
  | Some u => (Token u, true)
  end.

Definition setNackTimer (b : EvalBroker) (evalID : string) (u : unackEval) (v : bool)
    : EvalBroker :=
  with_unack b (<[evalID:=mkUnack (Eval u) (Token u) v]> (unack b)).

(** Timer.Reset arms the timer again and reports whether it was pending. *)
Definition OutstandingReset (b : EvalBroker) (evalID token : string) : outcome unit :=
  match unack b !! evalID with
  | None => Err b ErrNotOutstanding
  | Some u =>
      if negb (String.eqb (Token u) token) then Err b ErrTokenMismatch
      else if negb (NackTimer u) then Err (setNackTimer b evalID u true) ErrNackTimeoutReached
      else Ok (setNackTimer b evalID u true) tt
  end.

Definition PauseNackTimeout (b : EvalBroker) (evalID token : string) : outcome unit :=
  match unack b !! evalID with
  | None => Err b ErrNotOutstanding
  | Some u =>
      if negb (String.eqb (Token u) token) then Err b ErrTokenMismatch
      else if negb (NackTimer u) then Err b ErrNackTimeoutReached
      else Ok (setNackTimer b evalID u false) tt
  end.

Definition ResumeNackTimeout (b : EvalBroker) (evalID token : string) : outcome unit :=
  match unack b !! evalID with
  | None => Err b ErrNotOutstanding
  | Some u =>
      if negb (String.eqb (Token u) token) then Err b ErrTokenMismatch
      else Ok (setNackTimer b evalID u true) tt
  end.

(** The nack timer of [evalID] expires: it is no longer pending, and its
    callback will call [Nack evalID token]. *)
Definition nackTimerExpire (b : EvalBroker) (evalID : string) : EvalBroker :=
  match unack b !! evalID with
  | Some u => if NackTimer u then setNackTimer b evalID u false else b
  | None => b
  end.

(** ** Ack and Nack *)

(** The deferred [delete(b.requeue, token)] of Ack, also the first
    statement of Nack. *)
Definition clearRequeue (b : EvalBroker) (token : string) : EvalBroker :=
  with_requeue b (delete token (requeue b)).

(** The class whose Unacked counter Ack decrements. *)
Definition ackQueue (b : EvalBroker) (evalID : string) (u : unackEval) : string :=
  if Z.ltb (deliveryLimit b) (default 0 (evals b !! evalID))
  then failedQueue
  else EvalType (Eval u).

(** Ack after the nack timer has been stopped: statistics and cleanup. *)
Definition ackCleanup (b : EvalBroker) (evalID : string) (u : unackEval)
    (queue : string) (bySched : SchedulerStats) : EvalBroker :=
  let stats1 :=
    setByScheduler (addUnacked (stats b) (-1)) queue
      (mkSched (Ready bySched) (Unacked bySched - 1)) in
  let b1 := with_stats b stats1 in
  let b2 := with_unack b1 (delete evalID (unack b1)) in
  let b3 := with_evals b2 (delete evalID (evals b2)) in
  with_jobEvals b3 (delete (namespacedID (Eval u)) (jobEvals b3)).

(** "Check if there are any blocked evaluations": the evaluation heap.Pop
    takes from the job's blocked heap is enqueued on its own class. *)
Definition ackUnblock (b : EvalBroker) (nsid : string * string) : option EvalBroker :=
  match blocked b !! nsid with
  | None => Some b
  | Some [] => Some b
  | Some blk =>
      match heap_Pop blk with
      | None => None
      | Some (eval, blk') =>
          let blocked1 :=
            if (0 <? length blk')%nat then <[nsid:=blk']> (blocked b)
            else delete nsid (blocked b) in
          let b1 := with_stats (with_blocked b blocked1) (addBlocked (stats b) (-1)) in
          Some (enqueueLocked b1 eval (EvalType eval))
      end
  end.

(** "Re-enqueue the evaluation." *)
Definition ackRequeue (b : EvalBroker) (token : string) : EvalBroker :=
  match requeue b !! token with
  | Some eval => processEnqueue b eval ""
  | None => b
  end.

Definition Ack (b : EvalBroker) (evalID token : string) : outcome unit :=
  match unack b !! evalID with
  | None => Err (clearRequeue b token) ErrNotFound
  | Some u =>
      if negb (String.eqb (Token u) token)
      then Err (clearRequeue b token) ErrTokenDoesNotMatch
      else if negb (NackTimer u)
      then Err (clearRequeue b token) ErrAckedAfterNack
      else
        let queue := ackQueue b evalID u in
        match ByScheduler (stats b) !! queue with
        | None => Panic
        | Some bySched =>
            let b1 := ackCleanup b evalID u queue bySched in
            match ackUnblock b1 (namespacedID (Eval u)) with
            | None => Panic
            | Some b2 => Ok (clearRequeue (ackRequeue b2 token) token) tt
            end
        end
  end.

(** The re-enqueue of Nack: the failed queue at the delivery limit, else
    the evaluation's own class after the back-off delay. *)
Definition nackReenqueue (b : EvalBroker) (evalID : string) (u : unackEval) : EvalBroker :=
  let dequeues := default 0 (evals b !! evalID) in
  if Z.leb (deliveryLimit b) dequeues
  then enqueueLocked b (Eval u) failedQueue
  else
    let e := setWait (Eval u)
               (nackReenqueueDelay (initialNackDelay b) (subsequentNackDelay b) dequeues) in
    if Z.ltb 0 (Wait e) then processWaitingEnqueue b e
    else enqueueLocked b e (EvalType e).

Definition Nack (b : EvalBroker) (evalID token : string) : outcome unit :=
  let b0 := clearRequeue b token in
  match unack b0 !! evalID with
  | None => Err b0 ErrNotFound
  | Some u =>
      if negb (String.eqb (Token u) token) then Err b0 ErrTokenDoesNotMatch
      else
        let b1 := with_unack b0 (delete evalID (unack b0)) in
        match ByScheduler (stats b1) !! EvalType (Eval u) with
        | None => Panic
        | Some bySched =>
            let stats1 :=
              setByScheduler (addUnacked (stats b1) (-1)) (EvalType (Eval u))
                (mkSched (Ready bySched) (Unacked bySched - 1)) in
            Ok (nackReenqueue (with_stats b1 stats1) evalID u) tt
        end
  end.

(** ** Runs of the broker *)

(** The calls and timer events that reach a broker.  [OpDequeue] is one
    scan of Dequeue; a Dequeue that finds nothing registers on the wait
    channels ([OpWaitForSchedulers]) and scans again.  A nack timer that
    expires makes [OpNackTimerExpire]; its callback is an [OpNack]. *)
Inductive op :=
| OpEnqueue (eval : Evaluation)
| OpEnqueueAll (evs : list (Evaluation * string))
| OpDequeue (schedulers : list string) (rnd : nat) (token : string)
| OpWaitForSchedulers (schedulers : list string)
| OpAck (evalID token : string)
| OpNack (evalID token : string)
| OpOutstandingReset (evalID token : string)
| OpPauseNackTimeout (evalID token : string)
| OpResumeNackTimeout (evalID token : string)
| OpNackTimerExpire (evalID : string)
| OpWaitTimerFire (evalID : string)
| OpDelayedEvalFire (evalID : string).

Definition outcome_state {A : Type} (o : outcome A) : option EvalBroker :=
  match o with
  | Ok b _ => Some b
  | Err b _ => Some b
  | Panic => None
  end.

(** One event; [None] is a panic.  A wait timer fires only while it is in
    the time-wait table, the watcher only fires for an evaluation on the
    delay heap. *)
Definition step (b : EvalBroker) (o : op) : option EvalBroker :=
  match o with
  | OpEnqueue eval => Some (Enqueue b eval)
  | OpEnqueueAll evs => Some (EnqueueAll b evs)
  | OpDequeue schedulers rnd token =>
      outcome_state (scanForSchedulers b schedulers rnd token)
  | OpWaitForSchedulers schedulers => Some (waitForSchedulers b schedulers)
  | OpAck evalID token => outcome_state (Ack b evalID token)
  | OpNack evalID token => outcome_state (Nack b evalID token)
  | OpOutstandingReset evalID token => outcome_state (OutstandingReset b evalID token)
  | OpPauseNackTimeout evalID token => outcome_state (PauseNackTimeout b evalID token)
  | OpResumeNackTimeout evalID token => outcome_state (ResumeNackTimeout b evalID token)
  | OpNackTimerExpire evalID => Some (nackTimerExpire b evalID)
  | OpWaitTimerFire evalID =>
      match timeWait b !! evalID with
      | Some eval => Some (enqueueWaiting b eval)
      | None => Some b
      end
  | OpDelayedEvalFire evalID =>
      match find (fun p => String.eqb (ID (fst p)) evalID) (delayHeap b) with
      | Some p => Some (delayedEvalFire b (fst p))
      | None => Some b
      end
  end.

Fixpoint run (b : EvalBroker) (ops : list op) : option EvalBroker :=
  match ops with
  | [] => Some b
  | o :: ops' =>
      match step b o with
      | Some b' => run b' ops'
      | None => None
      end
  end.

(** A new broker, enabled. *)
Definition startBroker (timeout initialNackDelay subsequentNackDelay deliveryLimit : Z)
    : option EvalBroker :=
  match NewEvalBroker timeout initialNackDelay subsequentNackDelay deliveryLimit with
  | Some b => Some (SetEnabled b true)
  | None => None
  end.

(** ** Concrete evaluations and runs *)

Definition mkJobEval (id job ty : string) (priority createIndex : Z) : Evaluation :=
  mkEval id "default" job ty priority createIndex 0 0.

Definition evalA50 : Evaluation := mkJobEval "e50" "job-a" "A" 50 1.
Definition evalA10 : Evaluation := mkJobEval "e10" "job-b" "A" 10 2.
Definition evalB30 : Evaluation := mkJobEval "e30" "job-c" "B" 30 3.

(** Two evaluations on class A (priority 50, then 10) and one on class B
    (priority 30), in a broker with delivery limit 3. *)
Definition scanRun : option EvalBroker :=
  match startBroker 5 0 0 3 with
  | Some b => run b [OpEnqueue evalA50; OpEnqueue evalA10; OpEnqueue evalB30]
  | None => None
  end.

(** The largest priority among the evaluations heap.Pop would return from
    the ready queues of [schedulers]. *)
Definition headPriorities (b : EvalBroker) (schedulers : list string) : list Z :=
  omap (fun sched =>
          match heap_Pop (default [] (ready b !! sched)) with
          | Some (e, _) => Some (Priority e)
          | None => None
          end) schedulers.

Definition maxHeadPriority (b : EvalBroker) (schedulers : list string) : option Z :=
  match headPriorities b schedulers with
  | [] => None
  | p :: ps => Some (foldl Z.max p ps)
  end.

(** The priority of the evaluation a scan delivers. *)
Definition scanPriority (o : outcome (option (Evaluation * string))) : option Z :=
  match o with
  | Ok _ (Some (e, _)) => Some (Priority e)
  | _ => None
  end.

(** One delivery of [evalA50] in a broker whose delivery limit is 0. *)
Definition limitZeroRun : option EvalBroker :=
  match startBroker 5 0 0 0 with
  | Some b => run b [OpEnqueue evalA50; OpDequeue ["A"%string] 0 "t1"]
  | None => None
  end.

(** [evalA50] is delivered and nacked up to the delivery limit 1, delivered
    from the failed queue and nacked again. *)
Definition failedNackRun : option EvalBroker :=
  match startBroker 5 0 0 1 with
  | Some b =>
      run b [OpEnqueue evalA50;
             OpDequeue ["A"%string] 0 "t1"; OpNack "e50" "t1";
             OpDequeue [failedQueue] 0 "t2"; OpNack "e50" "t2"]
  | None => None
  end.

Definition unackedOf (b : EvalBroker) (sched : string) : option Z :=
  Unacked <$> (ByScheduler (stats b) !! sched).

(** ** Where the evaluations of a broker are *)

(** The evaluations on the heaps of a table of queues. *)
Definition queued {K : Type} `{Countable K} (m : gmap K (list Evaluation))
    : list Evaluation :=
  mjoin (map_to_list m).*2.

Definition readyEvals (b : EvalBroker) : list Evaluation := queued (ready b).

Definition unackEvals (b : EvalBroker) : list Evaluation :=
  fmap Eval (map_to_list (unack b)).*2.

Definition blockedEvals (b : EvalBroker) : list Evaluation := queued (blocked b).

Definition waitEvals (b : EvalBroker) : list Evaluation := (map_to_list (timeWait b)).*2.

Definition delayEvals (b : EvalBroker) : list Evaluation := (delayHeap b).*1.

(** Ready or delivered: the evaluations of the ready queues and of the
    unack table. *)
Definition inflight (b : EvalBroker) : list Evaluation := readyEvals b ++ unackEvals b.

(** Blocked, waiting on a timer, or on the delay heap. *)
Definition parked (b : EvalBroker) : list Evaluation :=
  blockedEvals b ++ waitEvals b ++ delayEvals b.

Definition allEvals (b : EvalBroker) : list Evaluation := inflight b ++ parked b.

(** The ready or delivered evaluations of one job. *)
Definition inflightOf (b : EvalBroker) (nsid : string * string) : list Evaluation :=
  filter (fun e => namespacedID e = nsid) (inflight b).

(** The evaluations outside the unack table and the failed queue. *)
Definition lowEvals (b : EvalBroker) : list Evaluation :=
  queued (delete failedQueue (ready b)) ++ parked b.

(** The attempt counter of [e] is 0 or below the delivery limit. *)
Definition lowCount (b : EvalBroker) (e : Evaluation) : Prop :=
  ∃ c, evals b !! ID e = Some c ∧ (c = 0 ∨ c < deliveryLimit b).

(** Evaluations carry a non-empty id: [enqueueLocked] reads an empty
    string in the job table as "no evaluation of this job". *)
Definition validEval (e : Evaluation) : bool := negb (String.eqb (ID e) "").

Definition validOp (o : op) : bool :=
  match o with
  | OpEnqueue eval => validEval eval
  | OpEnqueueAll evs => forallb (fun p => validEval (fst p)) evs
  | _ => true
  end.

(** The invariant of an enabled broker. *)
Record BrokerInv (b : EvalBroker) : Prop := {
  inv_enabled : enabled b = true;
  inv_nodup : NoDup (ID <$> allEvals b);
  inv_evals : ∀ e, e ∈ allEvals b -> ID e ≠ ""%string ∧ is_Some (evals b !! ID e);
  inv_unack_id : ∀ i u, unack b !! i = Some u -> ID (Eval u) = i;
  inv_wait_id : ∀ i e, timeWait b !! i = Some e -> ID e = i;
  inv_inflight_job :
    ∀ e, e ∈ inflight b -> jobEvals b !! namespacedID e = Some (ID e);
  inv_blocked_job :
    ∀ k l e, blocked b !! k = Some l -> e ∈ l -> namespacedID e = k;
  inv_job_id : ∀ k i, jobEvals b !! k = Some i -> i ≠ ""%string;
  inv_requeue_id : ∀ t e, requeue b !! t = Some e -> ID e ≠ ""%string;
  inv_low : ∀ e, e ∈ lowEvals b -> lowCount b e
}.

(** [e] is on the ready queue of class [q]; [e] is on the blocked queue of
    job [nsid]. *)
Definition onReady (b : EvalBroker) (q : string) (e : Evaluation) : Prop :=
  ∃ l, ready b !! q = Some l ∧ e ∈ l.

Definition onBlocked (b : EvalBroker) (nsid : string * string) (e : Evaluation) : Prop :=
  ∃ l, blocked b !! nsid = Some l ∧ e ∈ l.

(** A broker started with the given delivery limit, after [ops]. *)
Definition demoBroker (limit : Z) (ops : list op) : EvalBroker :=
  let b := SetEnabled (emptyBroker 5 0 0 limit) true in
  default b (run b ops).

(** Two evaluations of one job, the first with the empty id. *)
Definition evalNoID : Evaluation := mkJobEval "" "job-a" "A" 50 1.
Definition evalA51 : Evaluation := mkJobEval "e51" "job-a" "A" 50 2.
Definition evalA52 : Evaluation := mkJobEval "e52" "job-a" "A" 50 3.

Definition emptyIdOps : list op :=
  [OpEnqueue evalNoID; OpEnqueue evalA51].

(** With delivery limit 1: the evaluation with the empty id is delivered,
    loses the job to [evalA51], is nacked onto the blocked queue and comes
    back on class A at the Ack of [evalA51]; the same again with
    [evalA52]. *)
Definition emptyIdRedeliveryOps : list op :=
  [OpEnqueue evalNoID; OpDequeue ["A"%string] 0 "t1";
   OpEnqueue evalA51; OpNack "" "t1";
   OpDequeue ["A"%string] 0 "t2"; OpAck "e51" "t2";
   OpDequeue ["A"%string] 0 "t3";
   OpEnqueue evalA52; OpNack "" "t3";
   OpDequeue ["A"%string] 0 "t4"; OpAck "e52" "t4"].

(** Two evaluations of one job and an Ack of the first. *)
Definition evalX : Evaluation := mkJobEval "x" "job-a" "A" 10 1.
Definition evalY : Evaluation := mkJobEval "y" "job-a" "A" 10 2.

Definition serialOps : list op :=
  [OpEnqueue evalX; OpEnqueue evalY; OpDequeue ["A"%string] 0 "t1"].

(** One evaluation, delivered once and nacked. *)
Definition nackOps : list op :=
  [OpEnqueue evalA50; OpDequeue ["A"%string] 0 "t1"].

(** [evalA50] is outstanding with token t1; [evalA50'] is the evaluation
    the scheduler submits again under that token. *)
Definition evalA50' : Evaluation := mkJobEval "e50" "job-a" "A" 50 7.

Definition outstandingOps : list op :=
  [OpEnqueue evalA50; OpDequeue ["A"%string] 0 "t1"].

(** The same, after the nack timer of the delivery has expired. *)
Definition expiredOps : list op :=
  [OpEnqueue evalA50; OpDequeue ["A"%string] 0 "t1"; OpNackTimerExpire "e50"].

(** Three evaluations of distinct jobs on class A, priorities 10, 50, 30,
    and the priorities three scans of A deliver. *)
Definition evalP10 : Evaluation := mkJobEval "p10" "job-1" "A" 10 1.
Definition evalP50 : Evaluation := mkJobEval "p50" "job-2" "A" 50 2.
Definition evalP30 : Evaluation := mkJobEval "p30" "job-3" "A" 30 3.

Fixpoint deliveries (b : EvalBroker) (schedulers : list string) (tokens : list string)
    : list (option Z) :=
  match tokens with
  | [] => []
  | token :: tokens' =>
      match scanForSchedulers b schedulers 0 token with
      | Ok b' (Some (e, _)) => Some (Priority e) :: deliveries b' schedulers tokens'
      | Ok b' None => None :: deliveries b' schedulers tokens'
      | _ => []
      end
  end.

(** ** More of the API *)

(** Enabled reads the flag. *)
Definition Enabled (b : EvalBroker) : bool := enabled b.

(** Whether an operation returned without an error. *)
Definition succeeded {A : Type} (o : outcome A) : bool :=
  match o with
  | Ok _ _ => true
  | _ => false
  end.


(** The priority of the evaluation Peek reads on the ready queue of a
    class, if there is one. *)
Definition peekPriority (b : EvalBroker) (sched : string) : option Z :=
  match ready b !! sched with
  | Some pending => Priority <$> Peek pending
  | None => None
  end.

(** ** The statistics and the tables *)

(** What the counters and the per-class statistics say about the tables.
    [ex] lists the ids that may have an attempt counter without being
    resident: the id an operation is moving. *)
Record StatsInv (b : EvalBroker) (ex : list string) : Prop := {
  si_ready : TotalReady (stats b) = Z.of_nat (length (readyEvals b));
  si_unacked : TotalUnacked (stats b) = Z.of_nat (length (unackEvals b));
  si_blocked : TotalBlocked (stats b) = Z.of_nat (length (blockedEvals b));
  si_waiting :
    TotalWaiting (stats b) = Z.of_nat (length (waitEvals b) + length (delayEvals b));
  si_class :
    ∀ q, match ready b !! q with
         | Some l => ∃ s, ByScheduler (stats b) !! q = Some s ∧
                          Ready s = Z.of_nat (length l)
         | None => ByScheduler (stats b) !! q = None
         end;
  si_chan : ∀ q, is_Some (ready b !! q) -> is_Some (waiting b !! q);
  si_counter :
    ∀ i, is_Some (evals b !! i) -> i ∈ ID <$> allEvals b ∨ i ∈ ex;
  si_type :
    ∀ e, e ∈ inflight b -> is_Some (ByScheduler (stats b) !! EvalType e);
  si_failed :
    ∀ i u, unack b !! i = Some u ->
           default 0 (evals b !! i) <= Z.max 1 (deliveryLimit b) ∨
           is_Some (ByScheduler (stats b) !! failedQueue)
}.

(** A run of valid events from a new, enabled broker. *)
Definition reachable (limit : Z) (b : EvalBroker) : Prop :=
  ∃ timeout initial subsequent b0 ops,
    startBroker timeout initial subsequent limit = Some b0 ∧
    forallb validOp ops = true ∧ run b0 ops = Some b.

(** Three evaluations: one delivered, one ready behind it on the same
    class, one waiting on a timer. *)
Definition evalW : Evaluation := mkEval "w" "default" "job-w" "A" 20 4 10 0.

Definition busyOps : list op :=
  [OpEnqueue evalA50; OpEnqueue evalA10; OpEnqueue evalB30; OpEnqueue evalW;
   OpEnqueue evalX; OpEnqueue evalY; OpDequeue ["B"%string] 0 "t1"].

(** ** The heap order *)

(** The invariant of container/heap on the first [n] elements of a queue:
    no element is Less than its parent, the element at [(k - 1) / 2]. *)
Definition heapOrdered (h : PendingEvaluations) (n : nat) : Prop :=
  ∀ k, (0 < k < n)%nat -> Less h k ((k - 1) / 2) = false.

(** Less is an order on the evaluations of [l]: it is transitive there, and
    so is its negation. *)
Definition LessOrders (l : list Evaluation) : Prop :=
  ∀ a b c, a ∈ l -> b ∈ l -> c ∈ l ->
    (LessEval a b = true -> LessEval b c = true -> LessEval a c = true) ∧
    (LessEval a b = false -> LessEval b c = false -> LessEval a c = false).

(** The index of [p] whose element [Swap p i j] holds at [k]. *)
Definition transpose (i j k : nat) : nat :=
  if decide (k = j) then i else if decide (k = i) then j else k.

(** Every blocked queue is in heap order and holds evaluations of the job
    that is its key. *)
Definition BlockedHeaps (b : EvalBroker) : Prop :=
  ∀ k l, blocked b !! k = Some l ->
    heapOrdered l (length l) ∧ ∀ e, e ∈ l -> namespacedID e = k.

(** One evaluation of job-a delivered, two more of the job blocked behind
    it, the later one enqueued first. *)
Definition blockedOps : list op :=
  [OpEnqueue evalX; OpEnqueue evalA52; OpEnqueue evalA51; OpDequeue ["A"%string] 0 "t1"].

(** ** What the broker holds *)

(** The evaluations an event submits. *)
Definition opEvals (o : op) : list Evaluation :=
  match o with
  | OpEnqueue eval => [eval]
  | OpEnqueueAll evs => evs.*1
  | _ => []
  end.

(** Every evaluation the broker holds, on a queue, in a table, on a timer
    or in the requeue table, satisfies [P]. *)
Record Holds (P : Evaluation -> Prop) (b : EvalBroker) : Prop := {
  holds_ready : ∀ q l e, ready b !! q = Some l -> e ∈ l -> P e;
  holds_blocked : ∀ k l e, blocked b !! k = Some l -> e ∈ l -> P e;
  holds_unack : ∀ i u, unack b !! i = Some u -> P (Eval u);
  holds_wait : ∀ i e, timeWait b !! i = Some e -> P e;
  holds_delay : ∀ p, p ∈ delayHeap b -> P (fst p);
  holds_requeue : ∀ t e, requeue b !! t = Some e -> P e
}.

(** Every ready queue is in heap order; Less is an order on every ready
    queue. *)
Definition ReadyHeaps (b : EvalBroker) : Prop :=
  ∀ q l, ready b !! q = Some l -> heapOrdered l (length l).

Definition readyOrders (b : EvalBroker) : Prop :=
  ∀ q l, ready b !! q = Some l -> LessOrders l.

(** The evaluations an event submits are of the namespace [ns]. *)
Definition inNamespace (ns : string) (o : op) : bool :=
  forallb (fun e => String.eqb (Namespace e) ns) (opEvals o).

(** A run of valid events from a new, enabled broker, all in the namespace
    [ns]. *)
Definition reachableIn (ns : string) (limit : Z) (b : EvalBroker) : Prop :=
  ∃ timeout initial subsequent b0 ops,
    startBroker timeout initial subsequent limit = Some b0 ∧
    forallb validOp ops = true ∧ forallb (inNamespace ns) ops = true ∧
    run b0 ops = Some b.

(** Two evaluations of jobs named web in two namespaces, on one class: the
    first with priority 10, the second with priority 90. *)
Definition evalN10 : Evaluation := mkEval "n10" "ns-1" "web" "A" 10 1 0 0.
Definition evalN90 : Evaluation := mkEval "n90" "ns-2" "web" "A" 90 2 0 0.

(** * Properties *)

(** ** Scenarios *)

(** On one class the scan delivers by descending priority. *)
Example priority_ordering :
  deliveries (demoBroker 3 [OpEnqueue evalP10; OpEnqueue evalP50; OpEnqueue evalP30])
    ["A"%string] ["t1"; "t2"; "t3"; "t4"]%string =
  [Some 50; Some 30; Some 10; None].
Proof. vm_compute. reflexivity. Qed.

(** The second evaluation of a job is delivered only after the Ack of the
    first. *)
Example serialized_delivery :
  deliveries (demoBroker 3 [OpEnqueue evalX; OpEnqueue evalY])
    ["A"%string] ["t1"; "t2"]%string = [Some 10; None] ∧
  (ID ∘ Eval <$> unack (demoBroker 3 serialOps)) !! "x"%string = Some "x"%string ∧
  deliveries (demoBroker 3 (serialOps ++ [OpAck "x" "t1"]))
    ["A"%string] ["t2"]%string = [Some 10] ∧
  (ID ∘ Eval <$> unack (demoBroker 3
      (serialOps ++ [OpAck "x" "t1"; OpDequeue ["A"%string] 0 "t2"]))) !! "y"%string =
    Some "y"%string.
Proof. repeat split; vm_compute; reflexivity. Qed.

(** ** The comparator and the back-off delay *)

Lemma LessEval_spec (a b : Evaluation) :
  LessEval a b = true <->
  (JobID a ≠ JobID b ∧ Priority a ≠ Priority b ∧ Priority a > Priority b) ∨
  ((JobID a = JobID b ∨ Priority a = Priority b) ∧ CreateIndex a < CreateIndex b).
Proof.
  unfold LessEval.
  destruct (String.eqb_spec (JobID a) (JobID b)) as [Hj | Hj];
    destruct (Z.eqb_spec (Priority a) (Priority b)) as [Hp | Hp]; simpl;
    rewrite ?negb_true_iff, ?Z.ltb_lt, ?Z.ltb_ge; intuition lia.
Qed.

(** C5: [p.Less(i, j)] holds exactly when the job ids differ, the
    priorities differ and [p[i]] has the greater priority, or when the job
    ids or the priorities coincide and [p[i]] has the smaller create index:
    descending priority decides when both fields differ, the create index
    whenever one of them coincides. *)
Theorem Less_comparator (p : list Evaluation) (i j : nat) (a b : Evaluation) :
  p !! i = Some a ->
  p !! j = Some b ->
  (Less p i j = true <->
   (JobID a ≠ JobID b ∧ Priority a ≠ Priority b ∧ Priority a > Priority b) ∨
   ((JobID a = JobID b ∨ Priority a = Priority b) ∧ CreateIndex a < CreateIndex b)) ∧
  (JobID a ≠ JobID b -> Priority a ≠ Priority b ->
   Less p i j = bool_decide (Priority a > Priority b)) ∧
  (JobID a = JobID b ∨ Priority a = Priority b ->
   Less p i j = bool_decide (CreateIndex a < CreateIndex b)).
Proof.
  intros Hi Hj. unfold Less. rewrite Hi, Hj. split; [apply LessEval_spec |].
  unfold LessEval. split.
  - intros H1 H2.
    destruct (String.eqb_spec (JobID a) (JobID b)); [done |].
    destruct (Z.eqb_spec (Priority a) (Priority b)); [done |]. simpl.
    destruct (Z.ltb_spec (Priority a) (Priority b)); simpl; symmetry.
    + apply bool_decide_eq_false. lia.
    + apply bool_decide_eq_true. lia.
  - intros H.
    assert (negb (JobID a =? JobID b)%string && negb (Priority a =? Priority b) = false)
      as ->.
    { destruct H as [H | H].
      - apply (proj2 (String.eqb_eq _ _)) in H. rewrite H. done.
      - apply Z.eqb_eq in H. rewrite H. apply andb_false_r. }
    destruct (Z.ltb_spec (CreateIndex a) (CreateIndex b)); symmetry.
    + by apply bool_decide_eq_true.
    + apply bool_decide_eq_false. lia.
Qed.

Lemma Less_comparator_witness :
  Less [evalA50; evalA10] 0 1 = bool_decide (Priority evalA50 > Priority evalA10).
Proof.
  refine (proj1 (proj2 (Less_comparator [evalA50; evalA10] 0 1 evalA50 evalA10 _ _)) _ _);
    [reflexivity | reflexivity | discriminate | discriminate].
Defined.

Lemma wrap64_small (z : Z) : in_int64 z -> wrap64 z = z.
Proof.
  unfold in_int64, wrap64. intros H. rewrite Z.mod_small; lia.
Qed.

(** C7: the delay before a nacked evaluation is enqueued again is 0 for
    [n <= 0] previous dequeues, the initial delay for [n = 1], and
    [(n - 1)] times the subsequent delay for [n >= 2] (a time.Duration
    product, so the exact product whenever that is an int64); over
    n = 0, 1, 2, 3, 4 the delays are 0, initial, subsequent, 2 subsequent,
    3 subsequent. *)
Theorem nackReenqueueDelay_formula (initial subsequent n : Z) :
  (n <= 0 -> nackReenqueueDelay initial subsequent n = 0) ∧
  (n = 1 -> nackReenqueueDelay initial subsequent n = initial) ∧
  (2 <= n -> nackReenqueueDelay initial subsequent n = wrap64 ((n - 1) * subsequent)) ∧
  (2 <= n -> in_int64 ((n - 1) * subsequent) ->
   nackReenqueueDelay initial subsequent n = (n - 1) * subsequent) ∧
  (in_int64 subsequent -> in_int64 (3 * subsequent) ->
   nackReenqueueDelay initial subsequent <$> [0; 1; 2; 3; 4] =
   [0; initial; subsequent; 2 * subsequent; 3 * subsequent]).
Proof.
  unfold nackReenqueueDelay. repeat split.
  - intros H. destruct (Z.leb_spec n 0); [done | lia].
  - intros ->. done.
  - intros H. destruct (Z.leb_spec n 0); [lia |].
    destruct (Z.eqb_spec n 1); [lia | done].
  - intros H Hr. destruct (Z.leb_spec n 0); [lia |].
    destruct (Z.eqb_spec n 1); [lia |]. by apply wrap64_small.
  - intros H1 H3. simpl.
    rewrite !wrap64_small; [by rewrite Z.mul_1_l | | |];
      unfold in_int64 in *; lia.
Qed.

Lemma nackReenqueueDelay_formula_witness :
  nackReenqueueDelay 10 20 <$> [0; 1; 2; 3; 4] = [0; 10; 20; 2 * 20; 3 * 20].
Proof.
  apply (proj2 (proj2 (proj2 (proj2 (nackReenqueueDelay_formula 10 20 0)))));
    unfold in_int64; lia.
Defined.

(** ** Flush *)

(** C8: after [SetEnabled false], from any broker state, the counter
    table, the job table, the blocked and ready queues, the unack table,
    the wait channels, the time-wait table and the delay heap are empty,
    and the statistics snapshot is zero with an empty per-class map. *)
Theorem SetEnabled_false_flushes (b : EvalBroker) :
  let b' := SetEnabled b false in
  enabled b' = false ∧
  evals b' = ∅ ∧ jobEvals b' = ∅ ∧ blocked b' = ∅ ∧ ready b' = ∅ ∧
  unack b' = ∅ ∧ waiting b' = ∅ ∧ timeWait b' = ∅ ∧ delayHeap b' = [] ∧
  Stats b' = mkStats 0 0 0 0 ∅.
Proof.
  unfold SetEnabled. rewrite andb_false_r. simpl. repeat split.
Qed.

(** ** Ack after the nack timer *)

(** C6: for an outstanding id and the matching token, Ack returns the
    acked-after-nack-timer error exactly when stopping the nack timer
    reports that it was no longer pending; the state it leaves then differs
    from the state before only in the requeue table, where the entry of the
    token is gone. *)
Theorem Ack_after_nack_timer (b : EvalBroker) (evalID token : string) (u : unackEval) :
  unack b !! evalID = Some u ->
  Token u = token ->
  ((∃ b', Ack b evalID token = Err b' ErrAckedAfterNack) <-> NackTimer u = false) ∧
  (NackTimer u = false ->
   ∃ b', Ack b evalID token = Err b' ErrAckedAfterNack ∧
         unack b' = unack b ∧ evals b' = evals b ∧ jobEvals b' = jobEvals b ∧
         ready b' = ready b ∧ blocked b' = blocked b ∧ timeWait b' = timeWait b ∧
         delayHeap b' = delayHeap b ∧ stats b' = stats b ∧ enabled b' = enabled b ∧
         requeue b' = delete token (requeue b)).
Proof.
  intros Hu Ht. unfold Ack. rewrite Hu.
  assert (String.eqb (Token u) token = true) as -> by (by apply String.eqb_eq).
  simpl. destruct (NackTimer u); simpl.
  - split.
    + split; [| done]. intros [b' Hb'].
      destruct (ByScheduler (stats b) !! ackQueue b evalID u); [| done].
      by destruct (ackUnblock _ _).
    + done.
  - split.
    + split; [done |]. intros _. by eexists.
    + intros _. eexists. split; [done |]. by repeat split.
Qed.

(** ** Runs on which the code misses the specified behaviour *)

(** C1: with the queue of class A built by pushing priority 50 and then
    priority 10, Peek reads the priority 10 evaluation while heap.Pop
    returns the priority 50 one; a scan over A and B (whose only
    evaluation has priority 30) then delivers priority 30, although the
    largest priority heap.Pop would return is 50. *)
Theorem scan_peek_is_not_heap_head :
  ∃ b, scanRun = Some b ∧
       ready b !! "A"%string = Some [evalA50; evalA10] ∧
       Peek [evalA50; evalA10] = Some evalA10 ∧
       heap_Pop [evalA50; evalA10] = Some (evalA50, [evalA10]) ∧
       maxHeadPriority b ["A"%string; "B"%string] = Some 50 ∧
       scanPriority (scanForSchedulers b ["A"%string; "B"%string] 0 "t1") = Some 30.
Proof.
  eexists. split; [vm_compute; reflexivity |]. vm_compute. repeat split.
Qed.

(** C9: with delivery limit 0 an evaluation that has been delivered once
    has attempt counter 1, so Ack charges the failed class; that class has
    no statistics entry and Ack panics on it. *)
Theorem Ack_panics_at_limit_zero :
  ∃ b u, limitZeroRun = Some b ∧
         unack b !! "e50"%string = Some u ∧ Token u = "t1"%string ∧
         NackTimer u = true ∧
         ackQueue b "e50" u = failedQueue ∧
         ByScheduler (stats b) !! failedQueue = None ∧
         Ack b "e50" "t1" = Panic.
Proof.
  do 2 eexists. split; [vm_compute; reflexivity |].
  split; [vm_compute; reflexivity |]. vm_compute. repeat split.
Qed.

(** C10: after the evaluation of class A has been delivered from the
    failed queue and nacked, the Unacked counter of A is -1 and that of the
    failed class is 1, while nothing is unacknowledged. *)
Theorem Nack_from_failed_queue_miscounts :
  ∃ b, failedNackRun = Some b ∧
       unack b = ∅ ∧
       TotalUnacked (stats b) = 0 ∧
       unackedOf b "A" = Some (-1) ∧
       unackedOf b failedQueue = Some 1.
Proof.
  eexists. split; [vm_compute; reflexivity |]. vm_compute. repeat split.
Qed.

(** ** container/heap keeps the elements of a queue *)

Lemma insert_head_Permutation (l : list Evaluation) (j : nat) (a b : Evaluation) :
  l !! j = Some b -> b :: <[j:=a]> l ≡ₚ a :: l.
Proof.
  revert j. induction l as [| x l IH]; intros [| j] Hj; simplify_eq/=.
  - apply perm_swap.
  - rewrite (perm_swap x b), (IH j Hj). apply perm_swap.
Qed.

Lemma Swap_Permutation (p : list Evaluation) (i j : nat) : Swap p i j ≡ₚ p.
Proof.
  unfold Swap. destruct (p !! i) as [a |] eqn:Hi; [| done].
  destruct (p !! j) as [b |] eqn:Hj; [| done].
  destruct (decide (i = j)) as [-> | Hne].
  - simplify_eq. rewrite list_insert_insert_eq. by rewrite list_insert_id.
  - apply (Permutation_cons_inv (a := b)).
    rewrite (insert_head_Permutation (<[i:=b]> p) j a b).
    + apply (insert_head_Permutation p i b a Hi).
    + by rewrite list_lookup_insert_ne.
Qed.

Lemma Swap_length (p : list Evaluation) (i j : nat) : length (Swap p i j) = length p.
Proof.
  unfold Swap. destruct (p !! i); [| done]. destruct (p !! j); [| done].
  by rewrite !length_insert.
Qed.

Lemma up_loop_Permutation (fuel : nat) (h : list Evaluation) (j : nat) :
  up_loop fuel h j ≡ₚ h.
Proof.
  revert h j. induction fuel as [| fuel IH]; intros h j; simpl; [done |].
  destruct (_ || _); [done |]. rewrite IH. apply Swap_Permutation.
Qed.

Lemma down_loop_Permutation (fuel : nat) (h : list Evaluation) (i n : nat) :
  down_loop fuel h i n ≡ₚ h.
Proof.
  revert h i. induction fuel as [| fuel IH]; intros h i; simpl; [done |].
  destruct (_ <=? _)%nat; [done |]. destruct (negb _); [done |].
  rewrite IH. apply Swap_Permutation.
Qed.

(** The loops of heap.up and heap.down end within the iterations they are
    given: one more changes nothing. *)
Lemma up_loop_fuel (fuel : nat) (h : list Evaluation) (j : nat) :
  (j < fuel)%nat -> up_loop (S fuel) h j = up_loop fuel h j.
Proof.
  revert h j. induction fuel as [| fuel IH]; intros h j Hj; [lia |].
  change (up_loop (S (S fuel)) h j) with
    (let i := ((j - 1) / 2)%nat in
     if (i =? j)%nat || negb (Less h j i) then h
     else up_loop (S fuel) (Swap h i j) i).
  change (up_loop (S fuel) h j) with
    (let i := ((j - 1) / 2)%nat in
     if (i =? j)%nat || negb (Less h j i) then h
     else up_loop fuel (Swap h i j) i).
  cbv zeta. destruct (Nat.eqb_spec ((j - 1) / 2) j) as [Heq | Hne]; [done |].
  simpl orb. destruct (negb _); [done |]. apply IH.
  assert ((j - 1) / 2 <= j - 1)%nat by (apply Nat.Div0.div_le_upper_bound; lia).
  destruct j; [done | lia].
Qed.

Lemma down_loop_fuel (fuel : nat) (h : list Evaluation) (i n : nat) :
  (n - i <= fuel)%nat -> down_loop (S fuel) h i n = down_loop fuel h i n.
Proof.
  revert h i. induction fuel as [| fuel IH]; intros h i Hi.
  - simpl. destruct (Nat.leb_spec n (i + (i + 0) + 1)); [done | lia].
  - change (down_loop (S (S fuel)) h i n) with
      (let j1 := (2 * i + 1)%nat in
       if (n <=? j1)%nat then h
       else
         let j2 := (j1 + 1)%nat in
         let j := if (j2 <? n)%nat && Less h j2 j1 then j2 else j1 in
         if negb (Less h j i) then h
         else down_loop (S fuel) (Swap h i j) j n).
    change (down_loop (S fuel) h i n) with
      (let j1 := (2 * i + 1)%nat in
       if (n <=? j1)%nat then h
       else
         let j2 := (j1 + 1)%nat in
         let j := if (j2 <? n)%nat && Less h j2 j1 then j2 else j1 in
         if negb (Less h j i) then h
         else down_loop fuel (Swap h i j) j n).
    cbv zeta. destruct (Nat.leb_spec n (2 * i + 1)); [done |].
    destruct (negb _); [done |]. apply IH.
    destruct (_ && _); lia.
Qed.

Lemma heap_Push_Permutation (h : list Evaluation) (x : Evaluation) :
  heap_Push h x ≡ₚ x :: h.
Proof.
  unfold heap_Push, up. rewrite up_loop_Permutation.
  by rewrite Permutation_app_comm.
Qed.

Lemma heap_Pop_Permutation (h h' : list Evaluation) (e : Evaluation) :
  heap_Pop h = Some (e, h') -> h ≡ₚ e :: h'.
Proof.
  unfold heap_Pop. destruct (length h) as [| n] eqn:Hn; [done |].
  set (h1 := down (Swap h 0 n) 0 n).
  destruct (h1 !! n) as [x |] eqn:Hx; [| done]. intros [= <- <-].
  assert (h1 ≡ₚ h) as Hp.
  { unfold h1, down. rewrite down_loop_Permutation. apply Swap_Permutation. }
  rewrite <- Hp, <- (take_drop n h1) at 1.
  assert (drop n h1 = [x]) as ->.
  { apply Permutation_length in Hp. rewrite Hn in Hp.
    rewrite (drop_S _ _ _ Hx). rewrite drop_ge by lia. done. }
  by rewrite Permutation_app_comm.
Qed.

Lemma heap_Pop_is_Some (h : list Evaluation) : h ≠ [] -> is_Some (heap_Pop h).
Proof.
  intros Hne. unfold heap_Pop. destruct (length h) as [| n] eqn:Hn.
  - by destruct h.
  - set (h1 := down (Swap h 0 n) 0 n).
    assert (length h1 = S n) as Hl.
    { unfold h1, down. rewrite (Permutation_length (down_loop_Permutation _ _ _ _)).
      by rewrite Swap_length. }
    destruct (lookup_lt_is_Some_2 h1 n) as [x ->]; [lia | by eexists].
Qed.

(** ** Tables of queues as lists *)

Section queued.
Context {K : Type} `{Countable K}.
Implicit Types (m : gmap K (list Evaluation)) (k : K) (l : list Evaluation).

Lemma elem_of_queued m e : e ∈ queued m <-> ∃ k l, m !! k = Some l ∧ e ∈ l.
Proof.
  unfold queued. rewrite list_elem_of_join. split.
  - intros (l & He & Hl). apply list_elem_of_fmap in Hl as ([k l'] & -> & Hkl).
    apply elem_of_map_to_list in Hkl. eauto.
  - intros (k & l & Hk & He). exists l. split; [done |].
    apply list_elem_of_fmap. exists (k, l). split; [done |].
    by apply elem_of_map_to_list.
Qed.

Lemma queued_insert m k l : queued (<[k:=l]> m) ≡ₚ l ++ queued (delete k m).
Proof.
  unfold queued. rewrite <- insert_delete_eq.
  rewrite map_to_list_insert by apply lookup_delete_eq. done.
Qed.

Lemma queued_lookup m k l : m !! k = Some l -> queued m ≡ₚ l ++ queued (delete k m).
Proof.
  intros Hk. rewrite <- (insert_id m k l Hk) at 1. apply queued_insert.
Qed.

Lemma queued_push m k l e :
  l ≡ₚ e :: default [] (m !! k) -> queued (<[k:=l]> m) ≡ₚ e :: queued m.
Proof.
  intros Hl. rewrite queued_insert, Hl. simpl. f_equiv.
  destruct (m !! k) as [l0 |] eqn:Hk; simpl.
  - by rewrite (queued_lookup m k l0).
  - by rewrite delete_id.
Qed.

Lemma queued_pop m k l l' e :
  m !! k = Some l -> l ≡ₚ e :: l' -> queued m ≡ₚ e :: queued (<[k:=l']> m).
Proof.
  intros Hk Hl. rewrite (queued_lookup m k l Hk), queued_insert, Hl. done.
Qed.

Lemma queued_pop_delete m k l e :
  m !! k = Some l -> l ≡ₚ [e] -> queued m ≡ₚ e :: queued (delete k m).
Proof.
  intros Hk Hl. rewrite (queued_lookup m k l Hk), Hl. done.
Qed.
End queued.

Section vals.
Context {K : Type} `{Countable K} {V : Type}.
Implicit Types (m : gmap K V) (k : K) (v : V).

Lemma elem_of_vals m v : v ∈ (map_to_list m).*2 <-> ∃ k, m !! k = Some v.
Proof.
  rewrite list_elem_of_fmap. split.
  - intros ([k v'] & -> & Hkv). apply elem_of_map_to_list in Hkv. eauto.
  - intros (k & Hk). exists (k, v). split; [done |]. by apply elem_of_map_to_list.
Qed.

Lemma vals_insert_None m k v :
  m !! k = None -> (map_to_list (<[k:=v]> m)).*2 ≡ₚ v :: (map_to_list m).*2.
Proof. intros Hk. by rewrite map_to_list_insert. Qed.

Lemma vals_delete_Some m k v :
  m !! k = Some v -> (map_to_list m).*2 ≡ₚ v :: (map_to_list (delete k m)).*2.
Proof. intros Hk. by rewrite <- (map_to_list_delete m k v Hk). Qed.
End vals.

(** ** The invariant: enqueueing *)

Lemma not_elem_of_IDs (e : Evaluation) (l : list Evaluation) :
  ID e ∉ ID <$> l -> ∀ x, x ∈ l -> ID x ≠ ID e.
Proof.
  intros Hn x Hx Heq. apply Hn. apply list_elem_of_fmap. by exists x.
Qed.

Lemma lowCount_same (b b' : EvalBroker) (e : Evaluation) :
  evals b' = evals b -> deliveryLimit b' = deliveryLimit b ->
  lowCount b e -> lowCount b' e.
Proof. unfold lowCount. by intros -> ->. Qed.

Lemma readyEvals_enqueueReady (b : EvalBroker) (e : Evaluation) (q : string) :
  readyEvals (enqueueReady b e q) ≡ₚ e :: readyEvals b.
Proof.
  unfold readyEvals, enqueueReady. simpl.
  apply queued_push, heap_Push_Permutation.
Qed.

Lemma lowReady_enqueueReady (b : EvalBroker) (e : Evaluation) (q : string) :
  queued (delete failedQueue (ready (enqueueReady b e q))) ≡ₚ
  (if decide (q = failedQueue) then [] else [e]) ++ queued (delete failedQueue (ready b)).
Proof.
  unfold enqueueReady. simpl. destruct (decide (q = failedQueue)) as [-> | Hq].
  - by rewrite delete_insert_eq.
  - rewrite delete_insert_ne by done. simpl.
    apply queued_push. rewrite lookup_delete_ne by done. apply heap_Push_Permutation.
Qed.

Lemma enqueueReady_inv (b : EvalBroker) (e : Evaluation) (q : string) :
  BrokerInv b ->
  ID e ≠ ""%string -> is_Some (evals b !! ID e) -> ID e ∉ ID <$> allEvals b ->
  jobEvals b !! namespacedID e = Some (ID e) ->
  (q ≠ failedQueue -> lowCount b e) ->
  BrokerInv (enqueueReady b e q).
Proof.
  intros Hinv Hid Hev Hfresh Hjob Hlow.
  assert (allEvals (enqueueReady b e q) ≡ₚ e :: allEvals b) as Hall.
  { unfold allEvals, inflight. rewrite readyEvals_enqueueReady. done. }
  assert (inflight (enqueueReady b e q) ≡ₚ e :: inflight b) as Hin.
  { unfold inflight. rewrite readyEvals_enqueueReady. done. }
  split.
  - apply Hinv.
  - rewrite Hall. rewrite fmap_cons. apply NoDup_cons. split; [done | apply Hinv].
  - intros x. rewrite Hall, elem_of_cons. intros [-> | Hx]; [done |].
    by apply (inv_evals b Hinv).
  - apply Hinv.
  - apply Hinv.
  - intros x. rewrite Hin, elem_of_cons. intros [-> | Hx]; [done |].
    by apply (inv_inflight_job b Hinv).
  - apply Hinv.
  - apply Hinv.
  - apply Hinv.
  - intros x. unfold lowEvals. rewrite lowReady_enqueueReady.
    change (parked (enqueueReady b e q)) with (parked b).
    intros Hx. apply (lowCount_same b); [done | done |].
    destruct (decide (q = failedQueue)) as [-> | Hq]; simpl in Hx.
    + by apply (inv_low b Hinv).
    + apply elem_of_cons in Hx as [-> | Hx]; [by apply Hlow |].
      by apply (inv_low b Hinv).
Qed.

Lemma setJobEvals_inv (b : EvalBroker) (k : string * string) (i : string) :
  BrokerInv b -> jobEvals b !! k = None -> i ≠ ""%string ->
  BrokerInv (with_jobEvals b (<[k:=i]> (jobEvals b))).
Proof.
  intros Hinv Hk Hi. split; try apply Hinv.
  - intros x Hx. simpl.
    pose proof (inv_inflight_job b Hinv x Hx) as Hj.
    rewrite lookup_insert_ne; [done |]. intros Heq. congruence.
  - intros k' i'. simpl. rewrite lookup_insert. case_decide.
    + by intros [= <-].
    + apply Hinv.
Qed.

Lemma blockedEvals_push (b : EvalBroker) (e : Evaluation) :
  let nsid := namespacedID e in
  let blk := default [] (blocked b !! nsid) in
  queued (<[nsid:=heap_Push blk e]> (blocked b)) ≡ₚ e :: blockedEvals b.
Proof. apply queued_push, heap_Push_Permutation. Qed.

Lemma enqueueLocked_inv (b : EvalBroker) (e : Evaluation) (q : string) :
  BrokerInv b ->
  ID e ≠ ""%string -> is_Some (evals b !! ID e) -> ID e ∉ ID <$> allEvals b ->
  lowCount b e ∨ (q = failedQueue ∧ jobEvals b !! namespacedID e = Some (ID e)) ->
  BrokerInv (enqueueLocked b e q).
Proof.
  intros Hinv Hid Hev Hfresh Hlow. unfold enqueueLocked.
  rewrite (inv_enabled b Hinv). simpl.
  destruct (jobEvals b !! namespacedID e) as [i |] eqn:Hj; simpl.
  - pose proof (inv_job_id b Hinv _ _ Hj) as Hi.
    destruct (String.eqb_spec i ""); [done |].
    destruct (String.eqb_spec i (ID e)) as [-> | Hne]; simpl.
    + apply enqueueReady_inv; try done.
      intros Hq. destruct Hlow as [Hlow | [Hq' _]]; done.
    + assert (lowCount b e) as Hlow'.
      { destruct Hlow as [Hlow | [_ Heq]]; [done | congruence]. }
      set (b' := with_stats _ _).
      assert (parked b' ≡ₚ e :: parked b) as Hpk.
      { unfold parked, blockedEvals. simpl. by rewrite blockedEvals_push. }
      assert (allEvals b' ≡ₚ e :: allEvals b) as Hall.
      { unfold allEvals. rewrite Hpk. by rewrite <- Permutation_middle. }
      split; try apply Hinv.
      * rewrite Hall, fmap_cons. apply NoDup_cons. split; [done | apply Hinv].
      * intros x. rewrite Hall, elem_of_cons.
        intros [-> | Hx]; [done |]. by apply (inv_evals b Hinv).
      * intros k l x. simpl. rewrite lookup_insert. case_decide as Hk.
        -- intros [= <-]. rewrite heap_Push_Permutation, elem_of_cons.
           intros [-> | Hx]; [done |].
           destruct (blocked b !! namespacedID e) as [l0 |] eqn:Hb; simpl in Hx.
           ++ subst k. by apply (inv_blocked_job b Hinv _ l0).
           ++ by apply elem_of_nil in Hx.
        -- apply Hinv.
      * intros x. unfold lowEvals. rewrite Hpk.
        change (ready b') with (ready b).
        rewrite <- Permutation_middle, elem_of_cons.
        intros [-> | Hx]; [done |]. by apply (inv_low b Hinv).
  - apply enqueueReady_inv; simpl; try done.
    + apply setJobEvals_inv; done.
    + apply lookup_insert_eq.
    + intros Hq. destruct Hlow as [Hlow | [Hq' _]]; done.
Qed.

Lemma waitEvals_allEvals (b : EvalBroker) (x : Evaluation) :
  x ∈ waitEvals b -> x ∈ allEvals b.
Proof. unfold allEvals, parked. rewrite !elem_of_app. tauto. Qed.

Lemma unackEvals_allEvals (b : EvalBroker) (x : Evaluation) :
  x ∈ unackEvals b -> x ∈ allEvals b.
Proof. unfold allEvals, inflight. rewrite !elem_of_app. tauto. Qed.

Lemma elem_of_waitEvals (b : EvalBroker) (i : string) (e : Evaluation) :
  timeWait b !! i = Some e -> e ∈ waitEvals b.
Proof. intros Hi. apply elem_of_vals. by exists i. Qed.

Lemma elem_of_unackEvals (b : EvalBroker) (i : string) (u : unackEval) :
  unack b !! i = Some u -> Eval u ∈ unackEvals b.
Proof.
  intros Hi. unfold unackEvals. apply list_elem_of_fmap. exists u.
  split; [done |]. apply elem_of_vals. by exists i.
Qed.

Lemma fresh_timeWait (b : EvalBroker) (e : Evaluation) :
  BrokerInv b -> ID e ∉ ID <$> allEvals b -> timeWait b !! ID e = None.
Proof.
  intros Hinv Hfresh. destruct (timeWait b !! ID e) as [e' |] eqn:Hw; [| done].
  exfalso. apply (not_elem_of_IDs e (allEvals b) Hfresh e').
  - by apply waitEvals_allEvals, (elem_of_waitEvals b (ID e)).
  - by apply (inv_wait_id b Hinv).
Qed.

Lemma fresh_unack (b : EvalBroker) (e : Evaluation) :
  BrokerInv b -> ID e ∉ ID <$> allEvals b -> unack b !! ID e = None.
Proof.
  intros Hinv Hfresh. destruct (unack b !! ID e) as [u |] eqn:Hu; [| done].
  exfalso. apply (not_elem_of_IDs e (allEvals b) Hfresh (Eval u)).
  - by apply unackEvals_allEvals, (elem_of_unackEvals b (ID e)).
  - by apply (inv_unack_id b Hinv).
Qed.

Lemma processWaitingEnqueue_inv (b : EvalBroker) (e : Evaluation) :
  BrokerInv b ->
  ID e ≠ ""%string -> is_Some (evals b !! ID e) -> ID e ∉ ID <$> allEvals b ->
  lowCount b e ->
  BrokerInv (processWaitingEnqueue b e).
Proof.
  intros Hinv Hid Hev Hfresh Hlow.
  pose proof (fresh_timeWait b e Hinv Hfresh) as Hw.
  set (b' := processWaitingEnqueue b e).
  assert (parked b' ≡ₚ e :: parked b) as Hpk.
  { unfold parked, waitEvals. simpl. rewrite vals_insert_None by done.
    rewrite <- app_comm_cons. by rewrite <- Permutation_middle. }
  assert (allEvals b' ≡ₚ e :: allEvals b) as Hall.
  { unfold allEvals. rewrite Hpk. by rewrite <- Permutation_middle. }
  split; try apply Hinv.
  - rewrite Hall, fmap_cons. apply NoDup_cons. split; [done | apply Hinv].
  - intros x. rewrite Hall, elem_of_cons.
    intros [-> | Hx]; [done |]. by apply (inv_evals b Hinv).
  - intros i x. simpl. rewrite lookup_insert. case_decide.
    + by intros [= <-].
    + apply Hinv.
  - intros x. unfold lowEvals. rewrite Hpk. change (ready b') with (ready b).
    rewrite <- Permutation_middle, elem_of_cons.
    intros [-> | Hx]; [done |]. by apply (inv_low b Hinv).
Qed.

Lemma delayPush_inv (b : EvalBroker) (e : Evaluation) (t : Z) :
  BrokerInv b ->
  ID e ≠ ""%string -> is_Some (evals b !! ID e) -> ID e ∉ ID <$> allEvals b ->
  lowCount b e ->
  BrokerInv (with_updateCh
               (with_stats (with_delayHeap b (delayHeap_Push (delayHeap b) e t))
                  (addWaiting (stats b) 1)) true).
Proof.
  intros Hinv Hid Hev Hfresh Hlow. set (b' := with_updateCh _ _).
  assert (parked b' ≡ₚ e :: parked b) as Hpk.
  { unfold parked, delayEvals. simpl. by rewrite <- !Permutation_middle. }
  assert (allEvals b' ≡ₚ e :: allEvals b) as Hall.
  { unfold allEvals. rewrite Hpk. by rewrite <- Permutation_middle. }
  split; try apply Hinv.
  - rewrite Hall, fmap_cons. apply NoDup_cons. split; [done | apply Hinv].
  - intros x. rewrite Hall, elem_of_cons.
    intros [-> | Hx]; [done |]. by apply (inv_evals b Hinv).
  - intros x. unfold lowEvals. rewrite Hpk. change (ready b') with (ready b).
    rewrite <- Permutation_middle, elem_of_cons.
    intros [-> | Hx]; [done |]. by apply (inv_low b Hinv).
Qed.

Lemma fresh_of_evals (b : EvalBroker) (e : Evaluation) :
  BrokerInv b -> evals b !! ID e = None -> ID e ∉ ID <$> allEvals b.
Proof.
  intros Hinv Hev Hin. apply list_elem_of_fmap in Hin as (x & Heq & Hx).
  destruct (inv_evals b Hinv x Hx) as [_ [c Hc]]. congruence.
Qed.

Lemma setEvals_inv (b : EvalBroker) (i : string) (c : Z) :
  BrokerInv b -> evals b !! i = None ->
  BrokerInv (with_evals b (<[i:=c]> (evals b))).
Proof.
  intros Hinv Hi. split; try apply Hinv.
  - intros x Hx. simpl. destruct (inv_evals b Hinv x Hx) as [Hid [c' Hc']].
    split; [done |]. rewrite lookup_insert_ne by congruence. by eexists.
  - intros x Hx. destruct (inv_low b Hinv x Hx) as (c' & Hc' & Hlow).
    exists c'. simpl. rewrite lookup_insert_ne by congruence. done.
Qed.

Lemma processEnqueue_inv (b : EvalBroker) (e : Evaluation) (token : string) :
  BrokerInv b -> validEval e = true -> BrokerInv (processEnqueue b e token).
Proof.
  intros Hinv Hval. unfold processEnqueue. rewrite (inv_enabled b Hinv). simpl.
  assert (ID e ≠ ""%string) as Hid.
  { unfold validEval in Hval. apply negb_true_iff in Hval.
    by apply String.eqb_neq. }
  destruct (evals b !! ID e) as [c |] eqn:Hev.
  - destruct (String.eqb token ""); [done |].
    destruct (unack b !! ID e) as [u |]; [| done].
    destruct (String.eqb (Token u) token); [| done].
    split; try apply Hinv.
    intros t x. simpl. rewrite lookup_insert. case_decide.
    + by intros [= <-].
    + apply Hinv.
  - pose proof (fresh_of_evals b e Hinv Hev) as Hfresh.
    pose proof (setEvals_inv b (ID e) 0 Hinv Hev) as Hinv1.
    set (b1 := with_evals b (<[ID e:=0]> (evals b))) in *.
    assert (is_Some (evals b1 !! ID e)) as Hsome.
    { simpl. rewrite lookup_insert_eq. by eexists. }
    assert (lowCount b1 e) as Hlow.
    { exists 0. simpl. rewrite lookup_insert_eq. auto. }
    destruct (Z.ltb 0 (Wait e)).
    + by apply processWaitingEnqueue_inv.
    + destruct (negb (Z.eqb (WaitUntil e) 0)).
      * by apply (delayPush_inv b1 e (WaitUntil e)).
      * apply enqueueLocked_inv; auto.
Qed.

(** ** The invariant: dequeueing *)

Lemma is_Some_lookup_insert (m : gmap string Z) (i j : string) (c : Z) :
  is_Some (m !! j) -> is_Some (<[i:=c]> m !! j).
Proof.
  intros Hj. rewrite lookup_insert. case_decide; [by eexists | done].
Qed.

Lemma dequeueForSched_inv (b b' : EvalBroker) (sched token : string)
    (r : option (Evaluation * string)) :
  BrokerInv b ->
  dequeueForSched b sched token = Ok b' r ->
  BrokerInv b' ∧
  ∃ e l pending,
    r = Some (e, token) ∧ ready b !! sched = Some l ∧ heap_Pop l = Some (e, pending) ∧
    evals b' !! ID e = Some (default 0 (evals b !! ID e) + 1) ∧
    unack b' !! ID e = Some (mkUnack e token true).
Proof.
  intros Hinv. unfold dequeueForSched.
  destruct (ready b !! sched) as [l |] eqn:Hsched; [| done]. simpl.
  destruct (heap_Pop l) as [[e pending] |] eqn:Hpop; [| done].
  destruct (ByScheduler (stats b) !! sched) as [bySched |]; [| done].
  intros [= <- <-]. set (b' := with_stats _ _).
  pose proof (heap_Pop_Permutation l pending e Hpop) as Hl.
  assert (readyEvals b ≡ₚ e :: readyEvals b') as Hready.
  { unfold readyEvals. simpl. by apply (queued_pop _ sched l). }
  set (rest := readyEvals b' ++ unackEvals b ++ parked b).
  assert (allEvals b ≡ₚ e :: rest) as Hall.
  { unfold allEvals, inflight, rest. rewrite Hready. by rewrite <- !app_assoc. }
  assert (ID e ∉ ID <$> rest) as Hfresh.
  { pose proof (inv_nodup b Hinv) as Hnd. rewrite Hall, fmap_cons in Hnd.
    by apply NoDup_cons in Hnd as [? _]. }
  assert (unack b !! ID e = None) as Hun.
  { destruct (unack b !! ID e) as [u |] eqn:Hu; [| done]. exfalso.
    apply (not_elem_of_IDs e rest Hfresh (Eval u)).
    - unfold rest. rewrite !elem_of_app. right. left.
      by apply (elem_of_unackEvals b (ID e)).
    - by apply (inv_unack_id b Hinv). }
  assert (unackEvals b' ≡ₚ e :: unackEvals b) as Hunack.
  { unfold unackEvals. simpl. by rewrite vals_insert_None. }
  assert (inflight b' ≡ₚ inflight b) as Hin.
  { unfold inflight. rewrite Hunack, Hready. by rewrite <- Permutation_middle. }
  assert (allEvals b' ≡ₚ allEvals b) as Hall'.
  { unfold allEvals. by rewrite Hin. }
  assert (∀ x, x ∈ lowEvals b' -> x ∈ lowEvals b ∧ x ∈ rest) as Hsub.
  { intros x. unfold lowEvals, rest. change (parked b') with (parked b).
    rewrite !elem_of_app. intros [Hx | Hx]; [| tauto].
    apply elem_of_queued in Hx as (k & l' & Hk & Hx). simpl in Hk.
    apply lookup_delete_Some in Hk as [Hkf Hk].
    rewrite lookup_insert in Hk. case_decide as Hks.
    - subst k. injection Hk as <-. split; left; apply elem_of_queued.
      + exists sched, l. rewrite lookup_delete_ne by done.
        split; [done |]. rewrite Hl. by apply elem_of_cons; right.
      + exists sched, pending. simpl. by rewrite lookup_insert_eq.
    - split; left; apply elem_of_queued; exists k, l'.
      + by rewrite lookup_delete_ne.
      + simpl. by rewrite lookup_insert_ne. }
  split.
  - split; try apply Hinv.
    + rewrite Hall'. apply Hinv.
    + intros x. rewrite Hall'. intros Hx.
      destruct (inv_evals b Hinv x Hx) as [Hid Hsome]. split; [done |].
      simpl. by apply is_Some_lookup_insert.
    + intros i u. simpl. rewrite lookup_insert. case_decide.
      * by intros [= <-].
      * apply Hinv.
    + intros x. rewrite Hin. apply Hinv.
    + intros x Hx. destruct (Hsub x Hx) as [Hlow Hrest].
      destruct (inv_low b Hinv x Hlow) as (c & Hc & Hcl).
      exists c. simpl. rewrite lookup_insert_ne; [done |].
      intros Heq. by apply (not_elem_of_IDs e rest Hfresh x).
  - exists e, l, pending. simpl. by rewrite !lookup_insert_eq.
Qed.

Lemma scanForSchedulers_inv (b b' : EvalBroker) (schedulers : list string) (rnd : nat)
    (token : string) :
  BrokerInv b ->
  outcome_state (scanForSchedulers b schedulers rnd token) = Some b' ->
  BrokerInv b'.
Proof.
  intros Hinv. unfold scanForSchedulers. rewrite (inv_enabled b Hinv). simpl.
  destruct (fst (eligible b schedulers)) as [| s [| s' ss]] eqn:Hel.
  - by intros [= <-].
  - destruct (dequeueForSched b s token) as [b1 r | b1 err |] eqn:Hd; simpl;
      intros [= <-].
    + by apply (dequeueForSched_inv b b1 s token r).
    + unfold dequeueForSched in Hd. repeat case_match; done.
  - destruct (_ !! _) as [s0 |]; [| done].
    destruct (dequeueForSched b s0 token) as [b1 r | b1 err |] eqn:Hd; simpl;
      intros [= <-].
    + by apply (dequeueForSched_inv b b1 s0 token r).
    + unfold dequeueForSched in Hd. repeat case_match; done.
Qed.

(** ** The invariant: taking an evaluation out *)

Lemma remove_inv (b b1 : EvalBroker) (e : Evaluation) :
  BrokerInv b ->
  enabled b1 = enabled b -> deliveryLimit b1 = deliveryLimit b ->
  evals b1 = evals b -> jobEvals b1 = jobEvals b -> requeue b1 = requeue b ->
  allEvals b ≡ₚ e :: allEvals b1 ->
  (∀ x, x ∈ inflight b1 -> x ∈ inflight b) ->
  (∀ x, x ∈ lowEvals b1 -> x ∈ lowEvals b) ->
  (∀ i u, unack b1 !! i = Some u -> unack b !! i = Some u) ->
  (∀ i x, timeWait b1 !! i = Some x -> timeWait b !! i = Some x) ->
  (∀ k l x, blocked b1 !! k = Some l -> x ∈ l ->
            ∃ l0, blocked b !! k = Some l0 ∧ x ∈ l0) ->
  BrokerInv b1 ∧ (ID e ∉ ID <$> allEvals b1) ∧ ID e ≠ ""%string ∧
  is_Some (evals b1 !! ID e).
Proof.
  intros Hinv Hen Hlim Hev Hjob Hrq Hall Hin Hlow Hun Hwt Hblk.
  pose proof (inv_nodup b Hinv) as Hnd. rewrite Hall, fmap_cons in Hnd.
  apply NoDup_cons in Hnd as [Hfresh Hnd].
  assert (∀ x, x ∈ allEvals b1 -> x ∈ allEvals b) as Hsub.
  { intros x Hx. rewrite Hall. by apply elem_of_cons; right. }
  assert (e ∈ allEvals b) as He.
  { rewrite Hall. by apply elem_of_cons; left. }
  split; [| split; [done |]].
  - split.
    + rewrite Hen. apply Hinv.
    + done.
    + intros x Hx. rewrite Hev. by apply (inv_evals b Hinv), Hsub.
    + intros i u Hu. by apply (inv_unack_id b Hinv), Hun.
    + intros i x Hx. by apply (inv_wait_id b Hinv), Hwt.
    + intros x Hx. rewrite Hjob. by apply (inv_inflight_job b Hinv), Hin.
    + intros k l x Hk Hx. destruct (Hblk k l x Hk Hx) as (l0 & Hk0 & Hx0).
      by apply (inv_blocked_job b Hinv k l0).
    + rewrite Hjob. apply Hinv.
    + rewrite Hrq. apply Hinv.
    + intros x Hx. apply (lowCount_same b); [done | done |].
      by apply (inv_low b Hinv), Hlow.
  - rewrite Hev. by apply (inv_evals b Hinv).
Qed.

Lemma unackDelete_inv (b : EvalBroker) (i : string) (u : unackEval) (s : BrokerStats) :
  BrokerInv b -> unack b !! i = Some u ->
  let b1 := with_stats (with_unack b (delete i (unack b))) s in
  BrokerInv b1 ∧ (ID (Eval u) ∉ ID <$> allEvals b1) ∧ ID (Eval u) ≠ ""%string ∧
  is_Some (evals b1 !! ID (Eval u)) ∧
  jobEvals b1 !! namespacedID (Eval u) = Some (ID (Eval u)).
Proof.
  intros Hinv Hu b1.
  assert (unackEvals b ≡ₚ Eval u :: unackEvals b1) as Hunack.
  { unfold unackEvals. simpl. by rewrite (vals_delete_Some (unack b) i u Hu). }
  assert (jobEvals b1 !! namespacedID (Eval u) = Some (ID (Eval u))) as Hjob.
  { apply (inv_inflight_job b Hinv). unfold inflight. rewrite elem_of_app. right.
    by apply (elem_of_unackEvals b i). }
  cut (BrokerInv b1 ∧ (ID (Eval u) ∉ ID <$> allEvals b1) ∧ ID (Eval u) ≠ ""%string ∧
       is_Some (evals b1 !! ID (Eval u))); [tauto |].
  apply (remove_inv b); try done; try (by eauto).
  - unfold allEvals, inflight. rewrite Hunack.
    change (readyEvals b1) with (readyEvals b). change (parked b1) with (parked b).
    by rewrite <- !Permutation_middle.
  - intros x. unfold inflight. rewrite Hunack.
    change (readyEvals b1) with (readyEvals b). rewrite !elem_of_app, elem_of_cons. tauto.
  - intros i' u'. simpl. rewrite lookup_delete_Some. tauto.
Qed.

Lemma timeWaitDelete_inv (b : EvalBroker) (i : string) (e : Evaluation) (s : BrokerStats) :
  BrokerInv b -> timeWait b !! i = Some e ->
  let b1 := with_stats (with_timeWait b (delete i (timeWait b))) s in
  BrokerInv b1 ∧ (ID e ∉ ID <$> allEvals b1) ∧ ID e ≠ ""%string ∧
  is_Some (evals b1 !! ID e) ∧ lowCount b1 e.
Proof.
  intros Hinv Hw b1.
  assert (waitEvals b ≡ₚ e :: waitEvals b1) as Hwait.
  { unfold waitEvals. simpl. by rewrite (vals_delete_Some (timeWait b) i e Hw). }
  assert (parked b ≡ₚ e :: parked b1) as Hpk.
  { unfold parked. rewrite Hwait.
    change (blockedEvals b1) with (blockedEvals b).
    change (delayEvals b1) with (delayEvals b).
    rewrite <- app_comm_cons. by rewrite <- Permutation_middle. }
  assert (lowCount b1 e) as Hlow.
  { apply (inv_low b Hinv). unfold lowEvals. rewrite Hpk, elem_of_app, elem_of_cons.
    tauto. }
  cut (BrokerInv b1 ∧ (ID e ∉ ID <$> allEvals b1) ∧ ID e ≠ ""%string ∧
       is_Some (evals b1 !! ID e)); [tauto |].
  apply (remove_inv b); try done; try (by eauto).
  - unfold allEvals. rewrite Hpk. change (inflight b1) with (inflight b).
    by rewrite <- Permutation_middle.
  - intros x. unfold lowEvals. rewrite Hpk. change (ready b1) with (ready b).
    rewrite !elem_of_app, elem_of_cons. tauto.
  - intros i' x. simpl. rewrite lookup_delete_Some. tauto.
Qed.

(** ** The invariant: Ack and Nack *)

Lemma clearRequeue_inv (b : EvalBroker) (token : string) :
  BrokerInv b -> BrokerInv (clearRequeue b token).
Proof.
  intros Hinv. split; try apply Hinv.
  intros t x. simpl. rewrite lookup_delete_Some. intros [_ Ht].
  by apply (inv_requeue_id b Hinv t).
Qed.

Lemma ackCleanup_inv (b : EvalBroker) (i : string) (u : unackEval) (q : string)
    (bySched : SchedulerStats) :
  BrokerInv b -> unack b !! i = Some u ->
  BrokerInv (ackCleanup b i u q bySched) ∧ evals (ackCleanup b i u q bySched) !! i = None.
Proof.
  intros Hinv Hu. split; [| apply lookup_delete_eq].
  pose proof (inv_unack_id b Hinv i u Hu) as Hi.
  set (s := setByScheduler (addUnacked (stats b) (-1)) q
              (mkSched (Ready bySched) (Unacked bySched - 1))).
  destruct (unackDelete_inv b i u s Hinv Hu) as (Hinv1 & Hfresh & Hid & Hsome & Hjob).
  set (b1 := with_stats (with_unack b (delete i (unack b))) s) in *.
  change (ackCleanup b i u q bySched) with
    (with_jobEvals (with_evals b1 (delete i (evals b1)))
       (delete (namespacedID (Eval u)) (jobEvals b1))).
  split; try apply Hinv1.
  - intros x Hx. destruct (inv_evals b1 Hinv1 x Hx) as [Hidx Hsx].
    split; [done |]. simpl. rewrite lookup_delete_ne; [done |].
    rewrite <- Hi. intros Heq. by apply (not_elem_of_IDs _ _ Hfresh x).
  - intros x Hx. pose proof (inv_inflight_job b1 Hinv1 x Hx) as Hjx.
    simpl. rewrite lookup_delete_ne; [done |]. intros Heq.
    apply (not_elem_of_IDs _ _ Hfresh x).
    + unfold allEvals. rewrite elem_of_app. by left.
    + rewrite Heq in Hjob. congruence.
  - intros k j. simpl. rewrite lookup_delete_Some. intros [_ Hk].
    by apply (inv_job_id b1 Hinv1 k).
  - intros x Hx. destruct (inv_low b1 Hinv1 x Hx) as (c & Hc & Hcl).
    exists c. simpl. rewrite lookup_delete_ne; [done |].
    rewrite <- Hi. intros Heq. apply (not_elem_of_IDs _ _ Hfresh x); [| done].
    unfold lowEvals in Hx. unfold allEvals, inflight, readyEvals.
    rewrite !elem_of_app in *. destruct Hx as [Hx | Hx]; [| tauto].
    left. left. apply elem_of_queued in Hx as (k & l & Hk & Hx).
    apply lookup_delete_Some in Hk as [_ Hk]. apply elem_of_queued. eauto.
Qed.

Lemma ackUnblock_inv (b b' : EvalBroker) (k : string * string) :
  BrokerInv b -> ackUnblock b k = Some b' -> BrokerInv b'.
Proof.
  intros Hinv. unfold ackUnblock.
  destruct (blocked b !! k) as [blk |] eqn:Hk; [| by intros [= <-]].
  destruct blk as [| x0 blk0]; [by intros [= <-] |].
  set (blk := x0 :: blk0) in *.
  destruct (heap_Pop blk) as [[e blk'] |] eqn:Hpop; [| done].
  intros [= <-].
  pose proof (heap_Pop_Permutation blk blk' e Hpop) as Hblk.
  set (blocked1 := if (0 <? length blk')%nat then <[k:=blk']> (blocked b)
                   else delete k (blocked b)).
  set (b1 := with_stats (with_blocked b blocked1) (addBlocked (stats b) (-1))).
  assert (blockedEvals b ≡ₚ e :: queued blocked1) as Hq.
  { unfold blockedEvals, blocked1. destruct blk' as [| y blk'']; simpl.
    - by apply (queued_pop_delete _ k blk).
    - by apply (queued_pop _ k blk). }
  assert (parked b ≡ₚ e :: parked b1) as Hpk.
  { unfold parked. rewrite Hq. done. }
  assert (lowCount b1 e) as Hlow.
  { apply (inv_low b Hinv). unfold lowEvals. rewrite Hpk, elem_of_app, elem_of_cons.
    tauto. }
  destruct (remove_inv b b1 e) as (Hinv1 & Hfresh & Hid & Hsome); try done.
  - unfold allEvals. rewrite Hpk. change (inflight b1) with (inflight b).
    by rewrite <- Permutation_middle.
  - intros x. unfold lowEvals. rewrite Hpk. change (ready b1) with (ready b).
    rewrite !elem_of_app, elem_of_cons. tauto.
  - intros k' l x. simpl. unfold blocked1.
    destruct (0 <? length blk')%nat.
    + rewrite lookup_insert. case_decide as Hkk.
      * intros [= <-] Hx. subst k'. exists blk. split; [done |].
        rewrite Hblk. by apply elem_of_cons; right.
      * eauto.
    + rewrite lookup_delete_Some. intros [_ Hk'] Hx. eauto.
  - apply enqueueLocked_inv; auto.
Qed.

Lemma Ack_inv (b b' : EvalBroker) (evalID token : string) :
  BrokerInv b -> outcome_state (Ack b evalID token) = Some b' -> BrokerInv b'.
Proof.
  intros Hinv. unfold Ack.
  destruct (unack b !! evalID) as [u |] eqn:Hu; simpl.
  2: { intros [= <-]. by apply clearRequeue_inv. }
  destruct (negb (String.eqb (Token u) token)); simpl.
  { intros [= <-]. by apply clearRequeue_inv. }
  destruct (negb (NackTimer u)); simpl.
  { intros [= <-]. by apply clearRequeue_inv. }
  destruct (ByScheduler (stats b) !! ackQueue b evalID u) as [bySched |]; [| done].
  destruct (ackCleanup_inv b evalID u (ackQueue b evalID u) bySched Hinv Hu)
    as [Hinv1 _].
  destruct (ackUnblock _ _) as [b2 |] eqn:Hub; [| done]. simpl. intros [= <-].
  apply clearRequeue_inv.
  pose proof (ackUnblock_inv _ _ _ Hinv1 Hub) as Hinv2.
  unfold ackRequeue. destruct (requeue b2 !! token) as [e |] eqn:Hrq; [| done].
  apply processEnqueue_inv; [done |].
  unfold validEval. apply negb_true_iff, String.eqb_neq.
  by apply (inv_requeue_id b2 Hinv2 token).
Qed.

Lemma nackReenqueue_inv (b : EvalBroker) (evalID : string) (u : unackEval) :
  BrokerInv b -> ID (Eval u) = evalID ->
  ID (Eval u) ∉ ID <$> allEvals b -> ID (Eval u) ≠ ""%string ->
  is_Some (evals b !! ID (Eval u)) ->
  jobEvals b !! namespacedID (Eval u) = Some (ID (Eval u)) ->
  BrokerInv (nackReenqueue b evalID u).
Proof.
  intros Hinv Hi Hfresh Hid [c Hc] Hjob. unfold nackReenqueue.
  rewrite <- Hi, Hc. simpl.
  destruct (Z.leb_spec (deliveryLimit b) c) as [Hle | Hlt].
  - apply enqueueLocked_inv; eauto.
  - set (e := setWait _ _).
    assert (lowCount b e) as Hlow by (exists c; auto).
    destruct (Z.ltb 0 _).
    + apply processWaitingEnqueue_inv; eauto.
    + apply enqueueLocked_inv; eauto.
Qed.

Lemma Nack_inv (b b' : EvalBroker) (evalID token : string) :
  BrokerInv b -> outcome_state (Nack b evalID token) = Some b' -> BrokerInv b'.
Proof.
  intros Hinv. unfold Nack.
  pose proof (clearRequeue_inv b token Hinv) as Hinv0.
  set (b0 := clearRequeue b token) in *.
  destruct (unack b0 !! evalID) as [u |] eqn:Hu; simpl; [| by intros [= <-]].
  destruct (negb (String.eqb (Token u) token)); simpl; [by intros [= <-] |].
  destruct (ByScheduler _ !! _) as [bySched |]; [| done]. simpl. intros [= <-].
  set (s := setByScheduler _ _ _).
  destruct (unackDelete_inv b0 evalID u s Hinv0 Hu) as (Hinv1 & Hfresh & Hid & Hsome & Hjob).
  apply nackReenqueue_inv; try done.
  by apply (inv_unack_id b0 Hinv0).
Qed.

(** ** The invariant: timers *)

Lemma setNackTimer_inv (b : EvalBroker) (i : string) (u : unackEval) (v : bool) :
  BrokerInv b -> unack b !! i = Some u -> BrokerInv (setNackTimer b i u v).
Proof.
  intros Hinv Hu. set (b' := setNackTimer b i u v).
  assert (unackEvals b' ≡ₚ unackEvals b) as Hunack.
  { unfold unackEvals. simpl. rewrite <- insert_delete_eq.
    rewrite map_to_list_insert by apply lookup_delete_eq.
    rewrite <- (map_to_list_delete (unack b) i u Hu). done. }
  assert (inflight b' ≡ₚ inflight b) as Hin.
  { unfold inflight. rewrite Hunack. done. }
  assert (allEvals b' ≡ₚ allEvals b) as Hall.
  { unfold allEvals. rewrite Hin. done. }
  split; try apply Hinv.
  - rewrite Hall. apply Hinv.
  - intros x. rewrite Hall. apply Hinv.
  - intros j u'. simpl. rewrite lookup_insert. case_decide.
    + intros [= <-]. simpl. subst j. by apply (inv_unack_id b Hinv).
    + apply Hinv.
  - intros x. rewrite Hin. apply Hinv.
Qed.

Lemma enqueueWaiting_inv (b : EvalBroker) (i : string) (e : Evaluation) :
  BrokerInv b -> timeWait b !! i = Some e -> BrokerInv (enqueueWaiting b e).
Proof.
  intros Hinv Hw. pose proof (inv_wait_id b Hinv i e Hw) as Hi. subst i.
  unfold enqueueWaiting.
  destruct (timeWaitDelete_inv b (ID e) e (addWaiting (stats b) (-1)) Hinv Hw)
    as (Hinv1 & Hfresh & Hid & Hsome & Hlow).
  apply enqueueLocked_inv; auto.
Qed.

Lemma filter_all {A : Type} (P : A -> Prop) `{∀ x, Decision (P x)} (l : list A) :
  (∀ x, x ∈ l -> P x) -> filter P l = l.
Proof.
  induction l as [| a l IH]; intros Hall; [done |].
  rewrite filter_cons_True by (apply Hall; left).
  f_equal. apply IH. intros x Hx. apply Hall. by right.
Qed.

Lemma delayHeap_Remove_Permutation (h : list (Evaluation * Z)) (p : Evaluation * Z) :
  NoDup (ID <$> h.*1) -> p ∈ h ->
  h.*1 ≡ₚ fst p :: (delayHeap_Remove h (fst p)).*1.
Proof.
  unfold delayHeap_Remove. induction h as [| p0 h IH]; intros Hnd Hp.
  - by apply elem_of_nil in Hp.
  - rewrite !fmap_cons in Hnd. apply NoDup_cons in Hnd as [Hp0 Hnd].
    apply elem_of_cons in Hp as [-> | Hp].
    + rewrite filter_cons_False by (intros Hne; by apply Hne).
      rewrite filter_all; [done |]. intros x Hx Heq. apply Hp0.
      rewrite <- Heq. apply list_elem_of_fmap. exists (fst x). split; [done |].
      apply list_elem_of_fmap. by exists x.
    + assert (ID (fst p0) ≠ ID (fst p)) as Hne.
      { intros Heq. apply Hp0. rewrite Heq. apply list_elem_of_fmap.
        exists (fst p). split; [done |]. apply list_elem_of_fmap. by exists p. }
      rewrite filter_cons_True by done. rewrite !fmap_cons.
      rewrite (IH Hnd Hp) at 1. apply perm_swap.
Qed.

Lemma delayedEvalFire_inv (b : EvalBroker) (p : Evaluation * Z) :
  BrokerInv b -> p ∈ delayHeap b -> BrokerInv (delayedEvalFire b (fst p)).
Proof.
  intros Hinv Hp. unfold delayedEvalFire.
  set (b1 := with_stats _ _).
  assert (NoDup (ID <$> delayEvals b)) as Hnd.
  { pose proof (inv_nodup b Hinv) as Hnd. unfold allEvals, parked in Hnd.
    rewrite !fmap_app in Hnd.
    apply NoDup_app in Hnd as (_ & _ & Hnd). apply NoDup_app in Hnd as (_ & _ & Hnd).
    by apply NoDup_app in Hnd as (_ & _ & Hnd). }
  assert (delayEvals b ≡ₚ fst p :: delayEvals b1) as Hdelay.
  { unfold delayEvals. simpl. by apply delayHeap_Remove_Permutation. }
  assert (parked b ≡ₚ fst p :: parked b1) as Hpk.
  { unfold parked. rewrite Hdelay.
    change (blockedEvals b1) with (blockedEvals b).
    change (waitEvals b1) with (waitEvals b).
    by rewrite <- !Permutation_middle. }
  assert (lowCount b1 (fst p)) as Hlow.
  { apply (inv_low b Hinv). unfold lowEvals. rewrite Hpk, elem_of_app, elem_of_cons.
    tauto. }
  destruct (remove_inv b b1 (fst p)) as (Hinv1 & Hfresh & Hid & Hsome);
    try done; try (by eauto).
  - unfold allEvals. rewrite Hpk. change (inflight b1) with (inflight b).
    by rewrite <- Permutation_middle.
  - intros x. unfold lowEvals. rewrite Hpk. change (ready b1) with (ready b).
    rewrite !elem_of_app, elem_of_cons. tauto.
  - apply enqueueLocked_inv; auto.
Qed.

(** ** The invariant holds along every run *)

Lemma waitForSchedulers_inv (b : EvalBroker) (schedulers : list string) :
  BrokerInv b -> BrokerInv (waitForSchedulers b schedulers).
Proof.
  unfold waitForSchedulers. revert b.
  induction schedulers as [| s ss IH]; intros b Hinv; simpl; [done |].
  apply IH. destruct (waiting b !! s); [done |]. split; apply Hinv.
Qed.

Lemma EnqueueAll_inv (b : EvalBroker) (evs : list (Evaluation * string)) :
  BrokerInv b -> forallb (fun p => validEval (fst p)) evs = true ->
  BrokerInv (EnqueueAll b evs).
Proof.
  unfold EnqueueAll. revert b.
  induction evs as [| p evs IH]; intros b Hinv Hval; simpl; [done |].
  simpl in Hval. apply andb_true_iff in Hval as [Hp Hval].
  apply IH; [| done]. by apply processEnqueue_inv.
Qed.

Lemma OutstandingReset_inv (b b' : EvalBroker) (evalID token : string) :
  BrokerInv b -> outcome_state (OutstandingReset b evalID token) = Some b' ->
  BrokerInv b'.
Proof.
  intros Hinv. unfold OutstandingReset.
  destruct (unack b !! evalID) as [u |] eqn:Hu; simpl; [| by intros [= <-]].
  destruct (negb (String.eqb (Token u) token)); simpl; [by intros [= <-] |].
  destruct (negb (NackTimer u)); simpl; intros [= <-]; by apply setNackTimer_inv.
Qed.

Lemma PauseNackTimeout_inv (b b' : EvalBroker) (evalID token : string) :
  BrokerInv b -> outcome_state (PauseNackTimeout b evalID token) = Some b' ->
  BrokerInv b'.
Proof.
  intros Hinv. unfold PauseNackTimeout.
  destruct (unack b !! evalID) as [u |] eqn:Hu; simpl; [| by intros [= <-]].
  destruct (negb (String.eqb (Token u) token)); simpl; [by intros [= <-] |].
  destruct (negb (NackTimer u)); simpl; intros [= <-]; [done |].
  by apply setNackTimer_inv.
Qed.

Lemma ResumeNackTimeout_inv (b b' : EvalBroker) (evalID token : string) :
  BrokerInv b -> outcome_state (ResumeNackTimeout b evalID token) = Some b' ->
  BrokerInv b'.
Proof.
  intros Hinv. unfold ResumeNackTimeout.
  destruct (unack b !! evalID) as [u |] eqn:Hu; simpl; [| by intros [= <-]].
  destruct (negb (String.eqb (Token u) token)); simpl; intros [= <-]; [done |].
  by apply setNackTimer_inv.
Qed.

Lemma step_inv (b b' : EvalBroker) (o : op) :
  BrokerInv b -> validOp o = true -> step b o = Some b' -> BrokerInv b'.
Proof.
  intros Hinv Hval. destruct o; simpl in *.
  - intros [= <-]. by apply processEnqueue_inv.
  - intros [= <-]. by apply EnqueueAll_inv.
  - by apply scanForSchedulers_inv.
  - intros [= <-]. by apply waitForSchedulers_inv.
  - by apply Ack_inv.
  - by apply Nack_inv.
  - by apply OutstandingReset_inv.
  - by apply PauseNackTimeout_inv.
  - by apply ResumeNackTimeout_inv.
  - intros [= <-]. unfold nackTimerExpire.
    destruct (unack b !! evalID) as [u |] eqn:Hu; [| done].
    destruct (NackTimer u); [| done]. by apply setNackTimer_inv.
  - destruct (timeWait b !! evalID) as [e |] eqn:Hw; intros [= <-]; [| done].
    by apply (enqueueWaiting_inv b evalID).
  - destruct (find _ _) as [p |] eqn:Hfind; intros [= <-]; [| done].
    apply find_some in Hfind as [Hp _].
    apply delayedEvalFire_inv; [done |]. by apply list_elem_of_In.
Qed.

Lemma run_inv (ops : list op) (b b' : EvalBroker) :
  BrokerInv b -> forallb validOp ops = true -> run b ops = Some b' -> BrokerInv b'.
Proof.
  revert b. induction ops as [| o ops IH]; intros b Hinv Hval; simpl.
  - by intros [= <-].
  - simpl in Hval. apply andb_true_iff in Hval as [Ho Hval].
    destruct (step b o) as [b1 |] eqn:Hstep; [| done].
    apply IH; [| done]. by apply (step_inv b b1 o).
Qed.

Lemma startBroker_inv (timeout initial subsequent limit : Z) (b : EvalBroker) :
  startBroker timeout initial subsequent limit = Some b -> BrokerInv b.
Proof.
  unfold startBroker, NewEvalBroker. destruct (Z.ltb timeout 0); [done |].
  intros [= <-].
  assert (∀ x, x ∈ allEvals (SetEnabled
            (emptyBroker timeout initial subsequent limit) true) -> False) as Hnone.
  { intros x. unfold allEvals, inflight, parked, readyEvals, unackEvals, blockedEvals,
      waitEvals, delayEvals, queued. simpl. rewrite !map_to_list_empty. simpl.
    apply not_elem_of_nil. }
  split; simpl; try done.
  - unfold allEvals, inflight, parked, readyEvals, unackEvals, blockedEvals,
      waitEvals, delayEvals, queued. simpl. rewrite !map_to_list_empty. simpl.
    apply NoDup_nil_2.
  - intros x Hx. by destruct (Hnone x).
  - intros x Hx. destruct (Hnone x). unfold allEvals. rewrite elem_of_app. by left.
  - intros x. unfold lowEvals, parked, blockedEvals, waitEvals, delayEvals, queued.
    simpl. rewrite delete_empty, !map_to_list_empty. simpl.
    intros Hx. by apply elem_of_nil in Hx.
Qed.

(** ** What enqueueing leaves in place *)

Lemma enqueueReady_onReady_new (b : EvalBroker) (e : Evaluation) (q : string) :
  onReady (enqueueReady b e q) q e.
Proof.
  exists (heap_Push (default [] (ready b !! q)) e). unfold enqueueReady. simpl.
  rewrite lookup_insert_eq. split; [done |].
  rewrite heap_Push_Permutation. by left.
Qed.

Lemma enqueueReady_onReady_mono (b : EvalBroker) (e : Evaluation) (q q' : string)
    (x : Evaluation) :
  onReady b q' x -> onReady (enqueueReady b e q) q' x.
Proof.
  intros (l & Hl & Hx). unfold onReady, enqueueReady. simpl.
  rewrite lookup_insert. case_decide as Hq.
  - subst q'. rewrite Hl. simpl. eexists. split; [done |].
    rewrite heap_Push_Permutation. by right.
  - eauto.
Qed.

Lemma enqueueLocked_onReady_mono (b : EvalBroker) (e : Evaluation) (q q' : string)
    (x : Evaluation) :
  onReady b q' x -> onReady (enqueueLocked b e q) q' x.
Proof.
  intros Hx. unfold enqueueLocked. destruct (negb (enabled b)); [done |].
  destruct (String.eqb _ ""); [by apply enqueueReady_onReady_mono |].
  destruct (negb _); [done |]. by apply enqueueReady_onReady_mono.
Qed.

Lemma processEnqueue_onReady_mono (b : EvalBroker) (e : Evaluation) (token q' : string)
    (x : Evaluation) :
  onReady b q' x -> onReady (processEnqueue b e token) q' x.
Proof.
  intros Hx. unfold processEnqueue. destruct (negb (enabled b)); [done |].
  destruct (evals b !! ID e).
  - destruct (String.eqb token ""); [done |].
    destruct (unack b !! ID e) as [u |]; [| done].
    by destruct (String.eqb (Token u) token).
  - destruct (Z.ltb 0 (Wait e)); [done |].
    destruct (negb (Z.eqb (WaitUntil e) 0)); [done |].
    by apply enqueueLocked_onReady_mono.
Qed.

Lemma enqueueLocked_jobEvals_mono (b : EvalBroker) (e : Evaluation) (q : string)
    (k : string * string) (i : string) :
  jobEvals b !! k = Some i -> i ≠ ""%string ->
  jobEvals (enqueueLocked b e q) !! k = Some i.
Proof.
  intros Hk Hi. unfold enqueueLocked. destruct (negb (enabled b)); [done |].
  destruct (String.eqb_spec (default ""%string (jobEvals b !! namespacedID e)) "")
    as [Heq | Hne].
  - unfold enqueueReady. simpl. rewrite lookup_insert_ne; [done |].
    intros <-. rewrite Hk in Heq. done.
  - by destruct (negb _).
Qed.

Lemma processEnqueue_jobEvals_mono (b : EvalBroker) (e : Evaluation) (token : string)
    (k : string * string) (i : string) :
  jobEvals b !! k = Some i -> i ≠ ""%string ->
  jobEvals (processEnqueue b e token) !! k = Some i.
Proof.
  intros Hk Hi. unfold processEnqueue. destruct (negb (enabled b)); [done |].
  destruct (evals b !! ID e).
  - destruct (String.eqb token ""); [done |].
    destruct (unack b !! ID e) as [u |]; [| done].
    by destruct (String.eqb (Token u) token).
  - destruct (Z.ltb 0 (Wait e)); [done |].
    destruct (negb (Z.eqb (WaitUntil e) 0)); [done |].
    by apply enqueueLocked_jobEvals_mono.
Qed.

(** An evaluation whose job has another representative goes on the blocked
    queue of the job and nowhere else. *)
Lemma enqueueLocked_blocks (b : EvalBroker) (e : Evaluation) (q rep : string) :
  enabled b = true ->
  jobEvals b !! namespacedID e = Some rep -> rep ≠ ""%string -> rep ≠ ID e ->
  onBlocked (enqueueLocked b e q) (namespacedID e) e ∧
  ready (enqueueLocked b e q) = ready b ∧
  unack (enqueueLocked b e q) = unack b ∧
  jobEvals (enqueueLocked b e q) = jobEvals b.
Proof.
  intros Hen Hj Hrep Hne. unfold enqueueLocked. rewrite Hen, Hj. simpl.
  destruct (String.eqb_spec rep ""); [done |].
  destruct (String.eqb_spec rep (ID e)); [done |]. simpl.
  split; [| done]. eexists. simpl. rewrite lookup_insert_eq. split; [done |].
  rewrite heap_Push_Permutation. by left.
Qed.

(** An evaluation whose job has no representative becomes the
    representative and goes on the ready queue. *)
Lemma enqueueLocked_admits (b : EvalBroker) (e : Evaluation) (q : string) :
  enabled b = true -> jobEvals b !! namespacedID e = None ->
  onReady (enqueueLocked b e q) q e ∧
  jobEvals (enqueueLocked b e q) !! namespacedID e = Some (ID e).
Proof.
  intros Hen Hj. unfold enqueueLocked. rewrite Hen, Hj. simpl.
  split; [apply enqueueReady_onReady_new |].
  unfold enqueueReady. simpl. apply lookup_insert_eq.
Qed.

(** The representative itself goes back on the ready queue. *)
Lemma enqueueLocked_readmits (b : EvalBroker) (e : Evaluation) (q : string) :
  enabled b = true -> jobEvals b !! namespacedID e = Some (ID e) ->
  onReady (enqueueLocked b e q) q e.
Proof.
  intros Hen Hj. unfold enqueueLocked. rewrite Hen, Hj. simpl.
  destruct (String.eqb (ID e) ""); [apply enqueueReady_onReady_new |].
  rewrite String.eqb_refl. simpl. apply enqueueReady_onReady_new.
Qed.

(** ** Per-job serialization *)

Lemma inflightOf_length (b : EvalBroker) (nsid : string * string) :
  BrokerInv b -> (length (inflightOf b nsid) ≤ 1)%nat.
Proof.
  intros Hinv. unfold inflightOf.
  assert (NoDup (ID <$> filter (fun e => namespacedID e = nsid) (inflight b))) as Hnd.
  { pose proof (inv_nodup b Hinv) as Hnd. unfold allEvals in Hnd.
    rewrite fmap_app in Hnd. apply NoDup_app in Hnd as (Hnd & _ & _).
    apply (sublist_NoDup _ (ID <$> inflight b)); [done |].
    apply fmap_sublist, sublist_filter. }
  assert (∀ x, x ∈ filter (fun e => namespacedID e = nsid) (inflight b) ->
               jobEvals b !! nsid = Some (ID x)) as Hjob.
  { intros x Hx. apply list_elem_of_filter in Hx as [<- Hx].
    by apply (inv_inflight_job b Hinv). }
  destruct (filter _ _) as [| x [| y l]]; simpl; [lia | lia |]. exfalso.
  assert (ID x = ID y) as Heq.
  { pose proof (Hjob x ltac:(left)) as Hx.
    pose proof (Hjob y ltac:(right; left)) as Hy. congruence. }
  rewrite !fmap_cons, Heq in Hnd. apply NoDup_cons in Hnd as [Hn _].
  apply Hn. by left.
Qed.

Lemma Ack_promotes (b : EvalBroker) (evalID token : string) (u : unackEval)
    (blk : list Evaluation) :
  BrokerInv b ->
  unack b !! evalID = Some u -> Token u = token -> NackTimer u = true ->
  is_Some (ByScheduler (stats b) !! ackQueue b evalID u) ->
  blocked b !! namespacedID (Eval u) = Some blk -> blk ≠ [] ->
  ∃ b' e blk',
    Ack b evalID token = Ok b' tt ∧ heap_Pop blk = Some (e, blk') ∧
    onReady b' (EvalType e) e ∧
    jobEvals b' !! namespacedID (Eval u) = Some (ID e).
Proof.
  intros Hinv Hu Htok Htimer [bySched Hs] Hblk Hne. unfold Ack.
  rewrite Hu, Htimer, Hs.
  assert (String.eqb (Token u) token = true) as -> by (by apply String.eqb_eq).
  simpl.
  destruct (heap_Pop_is_Some blk Hne) as [[e blk'] Hpop].
  pose proof (heap_Pop_Permutation blk blk' e Hpop) as Hperm.
  assert (e ∈ blk) as He by (rewrite Hperm; by left).
  assert (namespacedID e = namespacedID (Eval u)) as Hkey.
  { by apply (inv_blocked_job b Hinv _ blk). }
  assert (ID e ≠ ""%string) as Hid.
  { apply (inv_evals b Hinv). unfold allEvals, parked, blockedEvals.
    rewrite !elem_of_app. right. left. apply elem_of_queued. eauto. }
  set (b1 := ackCleanup b evalID u (ackQueue b evalID u) bySched).
  unfold ackUnblock. change (blocked b1) with (blocked b). rewrite Hblk.
  destruct blk as [| x0 blk0]; [done |]. rewrite Hpop.
  set (b2 := with_stats _ _).
  destruct (enqueueLocked_admits b2 e (EvalType e)) as [Hrdy Hjob].
  { apply Hinv. }
  { rewrite Hkey. apply lookup_delete_eq. }
  eexists _, e, blk'. split; [done |]. split; [done |]. split.
  - unfold ackRequeue. destruct (requeue _ !! token); [| done].
    by apply processEnqueue_onReady_mono.
  - rewrite <- Hkey. unfold ackRequeue.
    destruct (requeue _ !! token); [| done].
    by apply processEnqueue_jobEvals_mono.
Qed.

(** C2, for evaluations with a non-empty id: in every state an enabled
    broker reaches, each job has at most one evaluation on the ready queues
    and in the unack table together; an evaluation admitted while another
    one represents its job goes on the blocked queue of its job, and every
    evaluation on a blocked queue is of that queue's job; an Ack of the
    representative puts the evaluation heap.Pop takes from a non-empty
    blocked queue on the ready queue of its class and makes it the
    representative. *)
Theorem per_job_serialization (timeout initial subsequent limit : Z) (ops : list op)
    (b0 b : EvalBroker) :
  startBroker timeout initial subsequent limit = Some b0 ->
  forallb validOp ops = true ->
  run b0 ops = Some b ->
  (∀ nsid, (length (inflightOf b nsid) ≤ 1)%nat) ∧
  (∀ e q rep,
     jobEvals b !! namespacedID e = Some rep -> rep ≠ ID e ->
     onBlocked (enqueueLocked b e q) (namespacedID e) e ∧
     ready (enqueueLocked b e q) = ready b ∧
     unack (enqueueLocked b e q) = unack b) ∧
  (∀ nsid e, onBlocked b nsid e -> namespacedID e = nsid) ∧
  (∀ evalID token u blk,
     unack b !! evalID = Some u -> Token u = token -> NackTimer u = true ->
     is_Some (ByScheduler (stats b) !! ackQueue b evalID u) ->
     blocked b !! namespacedID (Eval u) = Some blk -> blk ≠ [] ->
     ∃ b' e blk',
       Ack b evalID token = Ok b' tt ∧ heap_Pop blk = Some (e, blk') ∧
       onReady b' (EvalType e) e ∧
       jobEvals b' !! namespacedID (Eval u) = Some (ID e)).
Proof.
  intros Hstart Hval Hrun.
  pose proof (run_inv ops b0 b (startBroker_inv _ _ _ _ _ Hstart) Hval Hrun) as Hinv.
  split; [| split; [| split]].
  - intros nsid. by apply inflightOf_length.
  - intros e q rep Hj Hne.
    destruct (enqueueLocked_blocks b e q rep) as (H1 & H2 & H3 & _); try done.
    + apply Hinv.
    + by apply (inv_job_id b Hinv (namespacedID e)).
  - intros nsid e (l & Hl & He). by apply (inv_blocked_job b Hinv nsid l).
  - intros evalID token u blk. by apply Ack_promotes.
Qed.

Lemma per_job_serialization_witness :
  (length (inflightOf (demoBroker 3 serialOps) ("job-a"%string, "default"%string)) ≤ 1)%nat.
Proof.
  refine (proj1 (per_job_serialization 5 0 0 3 serialOps
                   (SetEnabled (emptyBroker 5 0 0 3) true)
                   (demoBroker 3 serialOps) _ _ _) _);
    vm_compute; reflexivity.
Defined.

(** C2 as stated fails for an evaluation with the empty id: once it and a
    second evaluation of its job are enqueued, both are on the ready
    queue. *)
Lemma empty_id_breaks_serialization :
  run (SetEnabled (emptyBroker 5 0 0 1) true) emptyIdOps =
    Some (demoBroker 1 emptyIdOps) ∧
  inflightOf (demoBroker 1 emptyIdOps) ("job-a"%string, "default"%string) =
    [evalNoID; evalA51] ∧
  ¬ (length (inflightOf (demoBroker 1 emptyIdOps)
               ("job-a"%string, "default"%string)) ≤ 1)%nat.
Proof.
  split; [vm_compute; reflexivity |]. split; [vm_compute; reflexivity |].
  vm_compute. lia.
Qed.

(** ** Nack and the delivery limit *)

Lemma Nack_routes (b b' : EvalBroker) (evalID token : string) :
  BrokerInv b ->
  Nack b evalID token = Ok b' tt ->
  ∃ u c,
    unack b !! evalID = Some u ∧ Token u = token ∧ evals b !! evalID = Some c ∧
    (deliveryLimit b <= c -> onReady b' failedQueue (Eval u)) ∧
    (c < deliveryLimit b ->
     let d := nackReenqueueDelay (initialNackDelay b) (subsequentNackDelay b) c in
     (0 < d ->
      timeWait b' !! evalID = Some (setWait (Eval u) d) ∧ ready b' = ready b ∧
      onReady (enqueueWaiting b' (setWait (Eval u) d)) (EvalType (Eval u))
        (setWait (Eval u) d)) ∧
     (d <= 0 -> onReady b' (EvalType (Eval u)) (setWait (Eval u) d))).
Proof.
  intros Hinv. unfold Nack. simpl.
  destruct (unack b !! evalID) as [u |] eqn:Hu; [| done].
  destruct (String.eqb_spec (Token u) token) as [Htok | ?]; [| done]. simpl.
  destruct (ByScheduler (stats b) !! EvalType (Eval u)) as [bySched |]; [| done].
  intros [= <-].
  pose proof (inv_unack_id b Hinv evalID u Hu) as Hi.
  assert (jobEvals b !! namespacedID (Eval u) = Some (ID (Eval u))) as Hjob.
  { apply (inv_inflight_job b Hinv). unfold inflight. rewrite elem_of_app. right.
    by apply (elem_of_unackEvals b evalID). }
  destruct (inv_evals b Hinv (Eval u)) as [Hid [c Hc]].
  { by apply unackEvals_allEvals, (elem_of_unackEvals b evalID). }
  rewrite Hi in Hc. exists u, c. do 3 (split; [done |]).
  unfold nackReenqueue. simpl. rewrite Hc. simpl. split.
  - intros Hle. destruct (Z.leb_spec (deliveryLimit b) c); [| lia].
    apply enqueueLocked_readmits; [apply Hinv | done].
  - intros Hlt. destruct (Z.leb_spec (deliveryLimit b) c); [lia |]. split.
    + intros Hd. destruct (Z.ltb_spec 0
        (nackReenqueueDelay (initialNackDelay b) (subsequentNackDelay b) c)); [| lia].
      split; [simpl; rewrite Hi; apply lookup_insert_eq |]. split; [done |].
      unfold enqueueWaiting. apply enqueueLocked_readmits; [apply Hinv | done].
    + intros Hd. destruct (Z.ltb_spec 0
        (nackReenqueueDelay (initialNackDelay b) (subsequentNackDelay b) c)); [lia |].
      apply enqueueLocked_readmits; [apply Hinv | done].
Qed.

Lemma scan_delivers (b b' : EvalBroker) (schedulers : list string) (rnd : nat)
    (token t : string) (e : Evaluation) :
  BrokerInv b ->
  scanForSchedulers b schedulers rnd token = Ok b' (Some (e, t)) ->
  ∃ sched l pending,
    ready b !! sched = Some l ∧ heap_Pop l = Some (e, pending) ∧
    evals b' !! ID e = Some (default 0 (evals b !! ID e) + 1).
Proof.
  intros Hinv. unfold scanForSchedulers. rewrite (inv_enabled b Hinv). simpl.
  destruct (fst (eligible b schedulers)) as [| s [| s' ss]]; [done | |].
  - intros Hd.
    destruct (dequeueForSched_inv b b' s token _ Hinv Hd)
      as (_ & e' & l & pending & [= <- <-] & Hl & Hpop & Hev & _).
    by exists s, l, pending.
  - destruct (_ !! _) as [s0 |]; [| done]. intros Hd.
    destruct (dequeueForSched_inv b b' s0 token _ Hinv Hd)
      as (_ & e' & l & pending & [= <- <-] & Hl & Hpop & Hev & _).
    by exists s0, l, pending.
Qed.

Lemma scan_counter_bound (b b' : EvalBroker) (schedulers : list string) (rnd : nat)
    (token t : string) (e : Evaluation) :
  BrokerInv b ->
  scanForSchedulers b schedulers rnd token = Ok b' (Some (e, t)) ->
  ∃ c, evals b !! ID e = Some c ∧ evals b' !! ID e = Some (c + 1) ∧
       (onReady b failedQueue e ∨ c + 1 <= Z.max 1 (deliveryLimit b)).
Proof.
  intros Hinv Hscan.
  destruct (scan_delivers b b' schedulers rnd token t e Hinv Hscan)
    as (sched & l & pending & Hl & Hpop & Hev).
  assert (e ∈ l) as He.
  { rewrite (heap_Pop_Permutation l pending e Hpop). by left. }
  destruct (inv_evals b Hinv e) as [_ [c Hc]].
  { unfold allEvals, inflight, readyEvals. rewrite !elem_of_app. left. left.
    apply elem_of_queued. eauto. }
  rewrite Hc in Hev. exists c. do 2 (split; [done |]).
  destruct (decide (sched = failedQueue)) as [-> | Hne].
  - left. by exists l.
  - right. destruct (inv_low b Hinv e) as (c' & Hc' & Hlow).
    + unfold lowEvals. rewrite elem_of_app. left. apply elem_of_queued.
      exists sched, l. by rewrite lookup_delete_ne.
    + rewrite Hc in Hc'. injection Hc' as <-. lia.
Qed.

(** C3, for evaluations with a non-empty id: in every state an enabled
    broker reaches, a successful Nack of an evaluation whose attempt
    counter has reached the delivery limit puts it on the ready queue of
    the failed class; below the limit the evaluation gets the back-off
    delay as its wait and is parked on a timer when the delay is positive
    (the timer, when it fires, puts it on the ready queue of its own class),
    and is put on the ready queue of its own class when it is not.  Hence a
    scan that delivers an evaluation which is not on the failed queue
    raises its counter to at most the larger of 1 and the delivery limit,
    which is at most the limit plus one when the limit is not negative. *)
Theorem Nack_delivery_limit (timeout initial subsequent limit : Z) (ops : list op)
    (b0 b : EvalBroker) :
  startBroker timeout initial subsequent limit = Some b0 ->
  forallb validOp ops = true ->
  run b0 ops = Some b ->
  (∀ evalID token b',
     Nack b evalID token = Ok b' tt ->
     ∃ u c,
       unack b !! evalID = Some u ∧ Token u = token ∧ evals b !! evalID = Some c ∧
       (deliveryLimit b <= c -> onReady b' failedQueue (Eval u)) ∧
       (c < deliveryLimit b ->
        let d := nackReenqueueDelay (initialNackDelay b) (subsequentNackDelay b) c in
        (0 < d ->
         timeWait b' !! evalID = Some (setWait (Eval u) d) ∧ ready b' = ready b ∧
         onReady (enqueueWaiting b' (setWait (Eval u) d)) (EvalType (Eval u))
           (setWait (Eval u) d)) ∧
        (d <= 0 -> onReady b' (EvalType (Eval u)) (setWait (Eval u) d)))) ∧
  (∀ schedulers rnd token b' e t,
     scanForSchedulers b schedulers rnd token = Ok b' (Some (e, t)) ->
     ∃ c, evals b !! ID e = Some c ∧ evals b' !! ID e = Some (c + 1) ∧
          (onReady b failedQueue e ∨
           (c + 1 <= Z.max 1 (deliveryLimit b) ∧
            (0 <= deliveryLimit b -> c + 1 <= deliveryLimit b + 1)))).
Proof.
  intros Hstart Hval Hrun.
  pose proof (run_inv ops b0 b (startBroker_inv _ _ _ _ _ Hstart) Hval Hrun) as Hinv.
  split.
  - intros evalID token b'. by apply Nack_routes.
  - intros schedulers rnd token b' e t Hscan.
    destruct (scan_counter_bound b b' schedulers rnd token t e Hinv Hscan)
      as (c & Hc & Hc' & Hb).
    exists c. do 2 (split; [done |]). destruct Hb as [Hb | Hb]; [by left |].
    right. split; [done | lia].
Qed.

Lemma Nack_delivery_limit_witness :
  onReady (demoBroker 1 (nackOps ++ [OpNack "e50" "t1"])) failedQueue evalA50.
Proof.
  assert (startBroker 5 0 0 1 = Some (SetEnabled (emptyBroker 5 0 0 1) true)) as Hstart
    by reflexivity.
  assert (forallb validOp nackOps = true) as Hval by reflexivity.
  assert (run (SetEnabled (emptyBroker 5 0 0 1) true) nackOps =
          Some (demoBroker 1 nackOps)) as Hrun by (vm_compute; reflexivity).
  assert (Nack (demoBroker 1 nackOps) "e50" "t1" =
          Ok (demoBroker 1 (nackOps ++ [OpNack "e50" "t1"])) tt) as Hnack
    by (vm_compute; reflexivity).
  destruct (proj1 (Nack_delivery_limit 5 0 0 1 nackOps _ _ Hstart Hval Hrun)
              "e50"%string "t1"%string _ Hnack) as (u & c & Hu & _ & Hc & Hfail & _).
  vm_compute in Hu. injection Hu as <-.
  vm_compute in Hc. injection Hc as <-.
  apply Hfail. vm_compute. discriminate.
Defined.

(** C3 as stated fails in two ways.  With delivery limit 1 the evaluation
    with the empty id, nacked at the limit, is blocked behind another
    evaluation of its job and comes back on class A: the failed queue does
    not exist and the next scan of A delivers it a third time.  With
    delivery limit -1 the first delivery already exceeds the limit plus
    one. *)
Lemma empty_id_exceeds_delivery_limit :
  (run (SetEnabled (emptyBroker 5 0 0 1) true) emptyIdRedeliveryOps =
     Some (demoBroker 1 emptyIdRedeliveryOps) ∧
   deliveryLimit (demoBroker 1 emptyIdRedeliveryOps) = 1 ∧
   ready (demoBroker 1 emptyIdRedeliveryOps) !! failedQueue = None ∧
   ∃ b', scanForSchedulers (demoBroker 1 emptyIdRedeliveryOps) ["A"%string] 0 "t5" =
           Ok b' (Some (evalNoID, "t5"%string)) ∧
         evals b' !! ""%string = Some 3) ∧
  (run (SetEnabled (emptyBroker 5 0 0 (-1)) true) [OpEnqueue evalA50] =
     Some (demoBroker (-1) [OpEnqueue evalA50]) ∧
   deliveryLimit (demoBroker (-1) [OpEnqueue evalA50]) + 1 = 0 ∧
   ready (demoBroker (-1) [OpEnqueue evalA50]) !! failedQueue = None ∧
   ∃ b', scanForSchedulers (demoBroker (-1) [OpEnqueue evalA50]) ["A"%string] 0 "t1" =
           Ok b' (Some (evalA50, "t1"%string)) ∧
         evals b' !! "e50"%string = Some 1).
Proof.
  split.
  - split; [vm_compute; reflexivity |]. split; [vm_compute; reflexivity |].
    split; [vm_compute; reflexivity |].
    eexists. split; vm_compute; reflexivity.
  - split; [vm_compute; reflexivity |]. split; [vm_compute; reflexivity |].
    split; [vm_compute; reflexivity |].
    eexists. split; vm_compute; reflexivity.
Qed.

(** ** The requeue table *)

Lemma enqueueLocked_fields (b : EvalBroker) (e : Evaluation) (q : string) :
  evals (enqueueLocked b e q) = evals b ∧
  requeue (enqueueLocked b e q) = requeue b ∧
  enabled (enqueueLocked b e q) = enabled b ∧
  timeWait (enqueueLocked b e q) = timeWait b ∧
  delayHeap (enqueueLocked b e q) = delayHeap b.
Proof.
  unfold enqueueLocked. destruct (negb (enabled b)); [done |].
  destruct (String.eqb _ ""); [done |]. by destruct (negb _).
Qed.

Lemma enqueueLocked_resident (b : EvalBroker) (e : Evaluation) (q : string) :
  enabled b = true ->
  onReady (enqueueLocked b e q) q e ∨ onBlocked (enqueueLocked b e q) (namespacedID e) e.
Proof.
  intros Hen. unfold enqueueLocked. rewrite Hen. simpl.
  destruct (String.eqb _ ""); [left; apply enqueueReady_onReady_new |].
  destruct (negb _); [| left; apply enqueueReady_onReady_new].
  right. eexists. simpl. rewrite lookup_insert_eq. split; [done |].
  rewrite heap_Push_Permutation. by left.
Qed.

Lemma processEnqueue_requeues (b : EvalBroker) (e : Evaluation) (token : string)
    (u : unackEval) :
  enabled b = true -> is_Some (evals b !! ID e) -> token ≠ ""%string ->
  unack b !! ID e = Some u -> Token u = token ->
  processEnqueue b e token = with_requeue b (<[token:=e]> (requeue b)).
Proof.
  intros Hen [c Hc] Htok Hu Ht. unfold processEnqueue. rewrite Hen, Hc, Hu. simpl.
  destruct (String.eqb_spec token ""); [done |].
  by destruct (String.eqb_spec (Token u) token).
Qed.

Lemma processEnqueue_fresh (b : EvalBroker) (e : Evaluation) :
  enabled b = true -> evals b !! ID e = None ->
  let b' := processEnqueue b e "" in
  evals b' !! ID e = Some 0 ∧ requeue b' = requeue b ∧
  (0 < Wait e -> timeWait b' !! ID e = Some e) ∧
  (Wait e <= 0 -> WaitUntil e ≠ 0 -> e ∈ delayEvals b') ∧
  (Wait e <= 0 -> WaitUntil e = 0 ->
   onReady b' (EvalType e) e ∨ onBlocked b' (namespacedID e) e).
Proof.
  intros Hen Hev. unfold processEnqueue. rewrite Hen, Hev. simpl.
  set (b1 := with_evals b (<[ID e:=0]> (evals b))).
  destruct (Z.ltb_spec 0 (Wait e)) as [Hw | Hw].
  - simpl. rewrite !lookup_insert_eq. repeat split; (done || lia).
  - destruct (Z.eqb_spec (WaitUntil e) 0) as [Hz | Hz]; simpl.
    + destruct (enqueueLocked_fields b1 e (EvalType e)) as (-> & -> & _).
      simpl. rewrite lookup_insert_eq. repeat split; try (done || lia).
      intros _ _. by apply enqueueLocked_resident.
    + rewrite lookup_insert_eq. repeat split; try (done || lia).
      intros _ _. unfold delayEvals. simpl. by left.
Qed.

Lemma ackUnblock_fields (b : EvalBroker) (k : string * string) :
  ∃ b', ackUnblock b k = Some b' ∧ evals b' = evals b ∧ requeue b' = requeue b ∧
        enabled b' = enabled b.
Proof.
  unfold ackUnblock. destruct (blocked b !! k) as [blk |]; [| by eexists].
  destruct blk as [| x0 blk0]; [by eexists |].
  destruct (heap_Pop_is_Some (x0 :: blk0)) as [[e blk'] ->]; [done |].
  eexists. split; [done |].
  destruct (enqueueLocked_fields
              (with_stats (with_blocked b
                 (if (0 <? length blk')%nat then <[k:=blk']> (blocked b)
                  else delete k (blocked b))) (addBlocked (stats b) (-1)))
              e (EvalType e)) as (-> & -> & -> & _).
  done.
Qed.

Lemma Ack_clears_requeue (b b' : EvalBroker) (evalID token : string) :
  outcome_state (Ack b evalID token) = Some b' -> requeue b' !! token = None.
Proof.
  unfold Ack. destruct (unack b !! evalID) as [u |]; simpl.
  2: { intros [= <-]. apply lookup_delete_eq. }
  destruct (negb (String.eqb (Token u) token)); simpl.
  { intros [= <-]. apply lookup_delete_eq. }
  destruct (negb (NackTimer u)); simpl.
  { intros [= <-]. apply lookup_delete_eq. }
  destruct (ByScheduler _ !! _); [| done].
  destruct (ackUnblock _ _); [| done]. simpl.
  intros [= <-]. apply lookup_delete_eq.
Qed.

Lemma Nack_clears_requeue (b b' : EvalBroker) (evalID token : string) :
  outcome_state (Nack b evalID token) = Some b' -> requeue b' !! token = None.
Proof.
  unfold Nack. simpl. destruct (unack b !! evalID) as [u |]; simpl.
  2: { intros [= <-]. apply lookup_delete_eq. }
  destruct (negb (String.eqb (Token u) token)); simpl.
  { intros [= <-]. apply lookup_delete_eq. }
  destruct (ByScheduler _ !! _) as [bySched |]; [| done]. simpl. intros [= <-].
  unfold nackReenqueue. simpl. destruct (Z.leb _ _).
  - match goal with
    | |- requeue (enqueueLocked ?b0 ?e0 ?q0) !! _ = _ =>
        destruct (enqueueLocked_fields b0 e0 q0) as (_ & -> & _)
    end.
    apply lookup_delete_eq.
  - destruct (Z.ltb 0 _); [apply lookup_delete_eq |].
    match goal with
    | |- requeue (enqueueLocked ?b0 ?e0 ?q0) !! _ = _ =>
        destruct (enqueueLocked_fields b0 e0 q0) as (_ & -> & _)
    end.
    apply lookup_delete_eq.
Qed.

(** C4: while the evaluation with the id of [e2] is outstanding with the
    non-empty token [token], submitting [e2] through EnqueueAll under that
    token only records it in the requeue table (no counter, queue or
    statistic changes).  An Ack of that delivery, when the nack timer is
    still pending, then enqueues [e2] afresh (attempt counter 0, parked on
    a timer, on the delay heap, or admitted to the ready or blocked queue);
    a Nack gives the result it gives without the submission.  Ack and Nack
    leave no requeue entry for their token, whatever they return. *)
Theorem requeue_lifecycle (b : EvalBroker) (e2 : Evaluation) (token : string)
    (u : unackEval) :
  enabled b = true ->
  unack b !! ID e2 = Some u -> Token u = token -> token ≠ ""%string ->
  is_Some (evals b !! ID e2) ->
  EnqueueAll b [(e2, token)] = with_requeue b (<[token:=e2]> (requeue b)) ∧
  (NackTimer u = true ->
   is_Some (ByScheduler (stats b) !! ackQueue b (ID e2) u) ->
   ∃ b', Ack (EnqueueAll b [(e2, token)]) (ID e2) token = Ok b' tt ∧
         requeue b' !! token = None ∧
         evals b' !! ID e2 = Some 0 ∧
         (0 < Wait e2 -> timeWait b' !! ID e2 = Some e2) ∧
         (Wait e2 <= 0 -> WaitUntil e2 ≠ 0 -> e2 ∈ delayEvals b') ∧
         (Wait e2 <= 0 -> WaitUntil e2 = 0 ->
          onReady b' (EvalType e2) e2 ∨ onBlocked b' (namespacedID e2) e2)) ∧
  Nack (EnqueueAll b [(e2, token)]) (ID e2) token = Nack b (ID e2) token ∧
  (∀ b1 evalID tok b',
     (outcome_state (Ack b1 evalID tok) = Some b' -> requeue b' !! tok = None) ∧
     (outcome_state (Nack b1 evalID tok) = Some b' -> requeue b' !! tok = None)).
Proof.
  intros Hen Hu Htok Hne Hev.
  assert (EnqueueAll b [(e2, token)] = with_requeue b (<[token:=e2]> (requeue b)))
    as Henq.
  { unfold EnqueueAll. simpl. by apply (processEnqueue_requeues b e2 token u). }
  split; [done |]. rewrite Henq. split; [| split].
  - intros Htimer [bySched Hs]. unfold Ack. simpl. rewrite Hu, Htimer.
    assert (String.eqb (Token u) token = true) as -> by (by apply String.eqb_eq).
    simpl. change (ackQueue (with_requeue b (<[token:=e2]> (requeue b))) (ID e2) u)
      with (ackQueue b (ID e2) u). rewrite Hs.
    set (b1 := ackCleanup _ _ _ _ _).
    destruct (ackUnblock_fields b1 (namespacedID (Eval u)))
      as (b2 & -> & Hev2 & Hrq2 & Hen2).
    eexists. split; [done |]. split; [apply lookup_delete_eq |].
    unfold ackRequeue. rewrite Hrq2. simpl. rewrite lookup_insert_eq.
    destruct (processEnqueue_fresh b2 e2) as (H0 & _ & Hw & Hd & Hr).
    { by rewrite Hen2. }
    { rewrite Hev2. simpl. apply lookup_delete_eq. }
    done.
  - unfold Nack. simpl. unfold clearRequeue. simpl. by rewrite delete_insert_eq.
  - intros b1 evalID tok b'. split.
    + apply Ack_clears_requeue.
    + apply Nack_clears_requeue.
Qed.

Lemma requeue_lifecycle_witness :
  ∃ b', Ack (EnqueueAll (demoBroker 3 outstandingOps) [(evalA50', "t1"%string)])
          "e50" "t1" = Ok b' tt ∧
        requeue b' !! "t1"%string = None ∧
        evals b' !! "e50"%string = Some 0 ∧
        onReady b' "A" evalA50'.
Proof.
  assert (unack (demoBroker 3 outstandingOps) !! ID evalA50' =
          Some (mkUnack evalA50 "t1" true)) as Hu by (vm_compute; reflexivity).
  assert (is_Some (evals (demoBroker 3 outstandingOps) !! ID evalA50')) as Hev
    by (exists 1; vm_compute; reflexivity).
  assert (is_Some (ByScheduler (stats (demoBroker 3 outstandingOps)) !!
                     ackQueue (demoBroker 3 outstandingOps) (ID evalA50')
                       (mkUnack evalA50 "t1" true))) as Hs
    by (exists (mkSched 0 1); vm_compute; reflexivity).
  destruct (proj1 (proj2 (requeue_lifecycle (demoBroker 3 outstandingOps) evalA50'
                            "t1" (mkUnack evalA50 "t1" true)
                            eq_refl Hu eq_refl ltac:(discriminate) Hev))
              eq_refl Hs) as (b' & Hack & Hrq & Hc & _ & _ & Hres).
  exists b'. split; [exact Hack |]. split; [exact Hrq |]. split; [exact Hc |].
  destruct (Hres ltac:(vm_compute; discriminate) eq_refl) as [Hr | (l & Hl & _)].
  - exact Hr.
  - exfalso. vm_compute in Hack. injection Hack as <-.
    vm_compute in Hl. discriminate.
Defined.

Lemma Ack_after_nack_timer_witness :
  ∃ b', Ack (demoBroker 3 expiredOps) "e50" "t1" = Err b' ErrAckedAfterNack ∧
        unack b' = unack (demoBroker 3 expiredOps) ∧
        evals b' = evals (demoBroker 3 expiredOps) ∧
        jobEvals b' = jobEvals (demoBroker 3 expiredOps) ∧
        ready b' = ready (demoBroker 3 expiredOps) ∧
        blocked b' = blocked (demoBroker 3 expiredOps) ∧
        timeWait b' = timeWait (demoBroker 3 expiredOps) ∧
        delayHeap b' = delayHeap (demoBroker 3 expiredOps) ∧
        stats b' = stats (demoBroker 3 expiredOps) ∧
        enabled b' = enabled (demoBroker 3 expiredOps) ∧
        requeue b' = delete "t1"%string (requeue (demoBroker 3 expiredOps)).
Proof.
  refine (proj2 (Ack_after_nack_timer (demoBroker 3 expiredOps) "e50" "t1"
                   (mkUnack evalA50 "t1" false) _ _) _).
  - vm_compute; reflexivity.
  - reflexivity.
  - reflexivity.
Defined.

(** * Further properties of the broker *)

(** ** Construction, enabling and disabling *)

Lemma processEnqueue_enabled (b : EvalBroker) (e : Evaluation) (token : string) :
  enabled (processEnqueue b e token) = enabled b.
Proof.
  unfold processEnqueue. destruct (enabled b) eqn:Hen; simpl; [| done].
  destruct (evals b !! ID e).
  - destruct (String.eqb token ""); [done |].
    destruct (unack b !! ID e) as [u |]; [| done].
    by destruct (String.eqb (Token u) token).
  - destruct (Z.ltb 0 (Wait e)); [done |].
    destruct (negb (Z.eqb (WaitUntil e) 0)); [done |].
    by destruct (enqueueLocked_fields (with_evals b (<[ID e:=0]> (evals b))) e
                   (EvalType e)) as (_ & _ & -> & _).
Qed.

Lemma EnqueueAll_disabled (b : EvalBroker) (evs : list (Evaluation * string)) :
  enabled b = false -> EnqueueAll b evs = b.
Proof.
  intros Hen. unfold EnqueueAll. induction evs as [| p evs IH]; simpl; [done |].
  unfold processEnqueue at 2. rewrite Hen. simpl. exact IH.
Qed.

(** X1: NewEvalBroker fails exactly for a negative timeout.  The broker it
    returns keeps the configuration, is disabled and empty; until it is
    enabled it drops every Enqueue and EnqueueAll and every scan of Dequeue
    returns the disabled error. *)
Theorem NewEvalBroker_starts_disabled (timeout initial subsequent limit : Z) :
  (NewEvalBroker timeout initial subsequent limit = None <-> timeout < 0) ∧
  (∀ b, NewEvalBroker timeout initial subsequent limit = Some b ->
        Enabled b = false ∧ allEvals b = [] ∧ requeue b = ∅ ∧
        Stats b = mkStats 0 0 0 0 ∅ ∧
        nackTimeout b = timeout ∧ deliveryLimit b = limit ∧
        initialNackDelay b = initial ∧ subsequentNackDelay b = subsequent ∧
        (∀ e, Enqueue b e = b) ∧
        (∀ evs, EnqueueAll b evs = b) ∧
        (∀ schedulers rnd token,
           scanForSchedulers b schedulers rnd token = Err b ErrDisabled)).
Proof.
  unfold NewEvalBroker. destruct (Z.ltb_spec timeout 0) as [Hlt | Hge].
  - split; [done |]. intros b Hb. discriminate.
  - split; [split; [discriminate | lia] |]. intros b [= <-].
    repeat split. intros evs. by apply EnqueueAll_disabled.
Qed.

Lemma NewEvalBroker_starts_disabled_witness :
  ∃ b, NewEvalBroker 5 0 0 3 = Some b ∧ Enqueue b evalA50 = b.
Proof.
  exists (emptyBroker 5 0 0 3). split; [reflexivity |].
  apply (proj2 (NewEvalBroker_starts_disabled 5 0 0 3) (emptyBroker 5 0 0 3) eq_refl).
Defined.

(** X2: a disabled broker does not take work: Enqueue, EnqueueAll and
    enqueueLocked leave it unchanged and a scan returns the disabled error.
    The callback of a wait timer that had already fired still takes its
    timer out and lowers TotalWaiting, and the evaluation is not queued. *)
Theorem disabled_broker_takes_no_work (b : EvalBroker) :
  enabled b = false ->
  (∀ e token, processEnqueue b e token = b) ∧
  (∀ evs, EnqueueAll b evs = b) ∧
  (∀ e queue, enqueueLocked b e queue = b) ∧
  (∀ schedulers rnd token,
     scanForSchedulers b schedulers rnd token = Err b ErrDisabled) ∧
  (∀ e, enqueueWaiting b e =
        with_stats (with_timeWait b (delete (ID e) (timeWait b)))
          (addWaiting (stats b) (-1))).
Proof.
  intros Hen. repeat split.
  - intros e token. unfold processEnqueue. by rewrite Hen.
  - intros evs. by apply EnqueueAll_disabled.
  - intros e queue. unfold enqueueLocked. by rewrite Hen.
  - intros schedulers rnd token. unfold scanForSchedulers. by rewrite Hen.
  - intros e. unfold enqueueWaiting, enqueueLocked. simpl. by rewrite Hen.
Qed.

Lemma disabled_broker_takes_no_work_witness :
  scanForSchedulers (SetEnabled (demoBroker 3 outstandingOps) false)
    ["A"%string] 0 "t2" =
  Err (SetEnabled (demoBroker 3 outstandingOps) false) ErrDisabled.
Proof.
  apply (disabled_broker_takes_no_work
           (SetEnabled (demoBroker 3 outstandingOps) false) eq_refl).
Defined.



(** ** Duplicates *)

Lemma processEnqueue_known (b : EvalBroker) (e : Evaluation) :
  enabled b = true -> is_Some (evals (processEnqueue b e "") !! ID e).
Proof.
  intros Hen. destruct (evals b !! ID e) as [c |] eqn:Hev.
  - unfold processEnqueue. rewrite Hen, Hev. simpl. by eexists.
  - destruct (processEnqueue_fresh b e Hen Hev) as [-> _]. by eexists.
Qed.

(** X4: Enqueue de-duplicates by id.  An evaluation whose id has an
    attempt counter is dropped, so enqueueing an id a second time, with
    whatever fields, changes nothing; Enqueue is idempotent.  While the
    broker is enabled an enqueued id always has a counter. *)
Theorem Enqueue_drops_duplicates (b : EvalBroker) (e e' : Evaluation) :
  ID e' = ID e ->
  (is_Some (evals b !! ID e) -> Enqueue b e' = b) ∧
  Enqueue (Enqueue b e) e' = Enqueue b e ∧
  (enabled b = true -> is_Some (evals (Enqueue b e) !! ID e)).
Proof.
  intros Hid. unfold Enqueue. split; [| split].
  - intros [c Hc]. unfold processEnqueue. rewrite Hid, Hc.
    by destruct (negb (enabled b)).
  - destruct (enabled b) eqn:Hen.
    + destruct (processEnqueue_known b e Hen) as [c Hc].
      unfold processEnqueue at 1. rewrite Hid, Hc.
      by destruct (negb _).
    + unfold processEnqueue at 1. rewrite processEnqueue_enabled, Hen. done.
  - apply processEnqueue_known.
Qed.

Lemma Enqueue_drops_duplicates_witness :
  Enqueue (demoBroker 3 outstandingOps) evalA50' = demoBroker 3 outstandingOps.
Proof.
  apply (proj1 (Enqueue_drops_duplicates (demoBroker 3 outstandingOps)
                  evalA50 evalA50' eq_refl)).
  exists 1. vm_compute. reflexivity.
Defined.

(** ** Outstanding deliveries and their tokens *)

Lemma enqueueLocked_unack (b : EvalBroker) (e : Evaluation) (q : string) :
  unack (enqueueLocked b e q) = unack b.
Proof.
  unfold enqueueLocked. destruct (negb (enabled b)); [done |].
  destruct (String.eqb _ ""); [done |]. by destruct (negb _).
Qed.

Lemma processEnqueue_unack (b : EvalBroker) (e : Evaluation) (token : string) :
  unack (processEnqueue b e token) = unack b.
Proof.
  unfold processEnqueue. destruct (negb (enabled b)); [done |].
  destruct (evals b !! ID e).
  - destruct (String.eqb token ""); [done |].
    destruct (unack b !! ID e) as [u |]; [| done].
    by destruct (String.eqb (Token u) token).
  - destruct (Z.ltb 0 (Wait e)); [done |].
    destruct (negb (Z.eqb (WaitUntil e) 0)); [done |].
    by rewrite enqueueLocked_unack.
Qed.

Lemma ackUnblock_unack (b b' : EvalBroker) (k : string * string) :
  ackUnblock b k = Some b' -> unack b' = unack b.
Proof.
  unfold ackUnblock. destruct (blocked b !! k) as [blk |]; [| by intros [= <-]].
  destruct blk as [| x0 blk0]; [by intros [= <-] |].
  destruct (heap_Pop _) as [[e blk'] |]; [| done]. intros [= <-].
  by rewrite enqueueLocked_unack.
Qed.

Lemma scan_Ok_dequeues (b b' : EvalBroker) (schedulers : list string) (rnd : nat)
    (token : string) (r : Evaluation * string) :
  scanForSchedulers b schedulers rnd token = Ok b' (Some r) ->
  ∃ sched, sched ∈ fst (eligible b schedulers) ∧
           dequeueForSched b sched token = Ok b' (Some r).
Proof.
  unfold scanForSchedulers. destruct (negb (enabled b)); [done |].
  destruct (fst (eligible b schedulers)) as [| s [| s' ss]] eqn:Hel; [done | |].
  - intros Hd. exists s. split; [by left | done].
  - destruct (_ !! _) as [s0 |] eqn:Hs0; [| done]. intros Hd. exists s0.
    split; [| done]. by apply list_elem_of_lookup_2 in Hs0.
Qed.

(** X5: Outstanding follows the deliveries.  After a scan delivers an
    evaluation, Outstanding of its id returns the token of the delivery;
    an Ack or a Nack that succeeds was for an outstanding id with that
    token, and afterwards the id is no longer outstanding. *)
Theorem Outstanding_tracks_deliveries (b b' : EvalBroker) :
  (∀ schedulers rnd token e t,
     scanForSchedulers b schedulers rnd token = Ok b' (Some (e, t)) ->
     t = token ∧ Outstanding b' (ID e) = (token, true)) ∧
  (∀ evalID token,
     Ack b evalID token = Ok b' tt ->
     Outstanding b evalID = (token, true) ∧ Outstanding b' evalID = (""%string, false)) ∧
  (∀ evalID token,
     Nack b evalID token = Ok b' tt ->
     Outstanding b evalID = (token, true) ∧ Outstanding b' evalID = (""%string, false)).
Proof.
  split; [| split].
  - intros schedulers rnd token e t Hscan.
    destruct (scan_Ok_dequeues _ _ _ _ _ _ Hscan) as (sched & _ & Hd).
    unfold dequeueForSched in Hd.
    destruct (heap_Pop _) as [[e0 pending] |]; [| done].
    destruct (ByScheduler _ !! _); [| done]. injection Hd as <- <- <-.
    split; [done |]. unfold Outstanding. simpl. by rewrite lookup_insert_eq.
  - intros evalID token. unfold Ack, Outstanding.
    destruct (unack b !! evalID) as [u |] eqn:Hu; [| done].
    destruct (String.eqb_spec (Token u) token) as [<- | ?]; [| done]. simpl.
    destruct (negb (NackTimer u)); [done |].
    destruct (ByScheduler _ !! _) as [bySched |]; [| done].
    destruct (ackUnblock _ _) as [b2 |] eqn:Hub; [| done]. intros [= <-].
    split; [done |]. simpl. unfold ackRequeue.
    assert (unack b2 !! evalID = None) as Hnone.
    { rewrite (ackUnblock_unack _ _ _ Hub). simpl. apply lookup_delete_eq. }
    destruct (requeue b2 !! Token u); [rewrite processEnqueue_unack |]; by rewrite Hnone.
  - intros evalID token. unfold Nack, Outstanding. simpl.
    destruct (unack b !! evalID) as [u |] eqn:Hu; [| done].
    destruct (String.eqb_spec (Token u) token) as [<- | ?]; [| done]. simpl.
    destruct (ByScheduler _ !! _) as [bySched |]; [| done]. intros [= <-].
    split; [done |]. unfold nackReenqueue. simpl.
    destruct (Z.leb _ _);
      [rewrite enqueueLocked_unack; simpl; by rewrite lookup_delete_eq |].
    destruct (Z.ltb 0 _); [simpl; by rewrite lookup_delete_eq |].
    rewrite enqueueLocked_unack. simpl. by rewrite lookup_delete_eq.
Qed.

Lemma Outstanding_tracks_deliveries_witness :
  Outstanding (demoBroker 3 outstandingOps) "e50" = ("t1"%string, true) ∧
  Outstanding (demoBroker 3 (outstandingOps ++ [OpAck "e50" "t1"])) "e50" =
    (""%string, false).
Proof.
  apply (proj1 (proj2 (Outstanding_tracks_deliveries (demoBroker 3 outstandingOps)
                         (demoBroker 3 (outstandingOps ++ [OpAck "e50" "t1"]))))
           "e50"%string "t1"%string).
  vm_compute. reflexivity.
Defined.

(** X6: a call for an id that is not outstanding, or with a token other
    than the one of the delivery, is rejected with the error of its kind.
    OutstandingReset, PauseNackTimeout and ResumeNackTimeout then leave the
    broker as it is; Ack and Nack only clear the requeue entry of the token
    they were given. *)
Theorem stale_calls_are_rejected (b : EvalBroker) (evalID token : string) :
  (unack b !! evalID = None ->
   Ack b evalID token = Err (clearRequeue b token) ErrNotFound ∧
   Nack b evalID token = Err (clearRequeue b token) ErrNotFound ∧
   OutstandingReset b evalID token = Err b ErrNotOutstanding ∧
   PauseNackTimeout b evalID token = Err b ErrNotOutstanding ∧
   ResumeNackTimeout b evalID token = Err b ErrNotOutstanding) ∧
  (∀ u, unack b !! evalID = Some u -> Token u ≠ token ->
   Ack b evalID token = Err (clearRequeue b token) ErrTokenDoesNotMatch ∧
   Nack b evalID token = Err (clearRequeue b token) ErrTokenDoesNotMatch ∧
   OutstandingReset b evalID token = Err b ErrTokenMismatch ∧
   PauseNackTimeout b evalID token = Err b ErrTokenMismatch ∧
   ResumeNackTimeout b evalID token = Err b ErrTokenMismatch).
Proof.
  split.
  - intros Hu. unfold Ack, Nack, OutstandingReset, PauseNackTimeout,
      ResumeNackTimeout. simpl. by rewrite Hu.
  - intros u Hu Hne. unfold Ack, Nack, OutstandingReset, PauseNackTimeout,
      ResumeNackTimeout. simpl. rewrite Hu.
    by destruct (String.eqb_spec (Token u) token).
Qed.

Lemma stale_calls_are_rejected_witness :
  Nack (demoBroker 3 outstandingOps) "e50" "t0" =
  Err (clearRequeue (demoBroker 3 outstandingOps) "t0") ErrTokenDoesNotMatch.
Proof.
  refine (proj1 (proj2 (proj2 (stale_calls_are_rejected (demoBroker 3 outstandingOps)
                                 "e50" "t0") (mkUnack evalA50 "t1" true) _ _))).
  - vm_compute. reflexivity.
  - discriminate.
Defined.






(** ** Deferred enqueues *)

Lemma addWaiting_back (s : BrokerStats) : addWaiting (addWaiting s 1) (-1) = s.
Proof.
  destruct s as [tr tu tb tw bs]. unfold addWaiting. simpl. f_equal. lia.
Qed.

(** X9: an evaluation enqueued with a positive wait is parked on a timer
    and counted as waiting; no queue and no job entry changes, and its
    wait-until time plays no part.  When the timer fires, the broker is in
    the state that admitting the evaluation at once would have given.  An
    evaluation without a wait but with a wait-until time goes on the delay
    heap in the same way, and is admitted when the watcher fires for it. *)
Theorem deferred_enqueue_admits_later (b : EvalBroker) (e : Evaluation) :
  enabled b = true -> evals b !! ID e = None ->
  let b0 := with_evals b (<[ID e:=0]> (evals b)) in
  (0 < Wait e -> timeWait b !! ID e = None ->
   timeWait (Enqueue b e) !! ID e = Some e ∧
   TotalWaiting (stats (Enqueue b e)) = TotalWaiting (stats b) + 1 ∧
   ready (Enqueue b e) = ready b ∧ blocked (Enqueue b e) = blocked b ∧
   jobEvals (Enqueue b e) = jobEvals b ∧ delayHeap (Enqueue b e) = delayHeap b ∧
   enqueueWaiting (Enqueue b e) e = enqueueLocked b0 e (EvalType e)) ∧
  (Wait e <= 0 -> WaitUntil e ≠ 0 -> ID e ∉ ID <$> delayEvals b ->
   delayHeap (Enqueue b e) = (e, WaitUntil e) :: delayHeap b ∧
   TotalWaiting (stats (Enqueue b e)) = TotalWaiting (stats b) + 1 ∧
   ready (Enqueue b e) = ready b ∧ blocked (Enqueue b e) = blocked b ∧
   jobEvals (Enqueue b e) = jobEvals b ∧ timeWait (Enqueue b e) = timeWait b ∧
   delayedEvalFire (Enqueue b e) e =
     enqueueLocked (with_updateCh b0 true) e (EvalType e)).
Proof.
  intros Hen Hev b0. unfold Enqueue, processEnqueue. rewrite Hen, Hev. simpl.
  split.
  - intros Hw Htw. destruct (Z.ltb_spec 0 (Wait e)); [| lia]. simpl.
    rewrite lookup_insert_eq. repeat split.
    unfold enqueueWaiting. f_equal. simpl.
    rewrite delete_insert_eq, (delete_id _ _ Htw), addWaiting_back.
    subst b0. by destruct b.
  - intros Hw Hwu Hfresh. destruct (Z.ltb_spec 0 (Wait e)); [lia |].
    destruct (Z.eqb_spec (WaitUntil e) 0); [done |]. simpl. repeat split.
    unfold delayedEvalFire. f_equal.
    assert (delayHeap_Remove (delayHeap_Push (delayHeap b) e (WaitUntil e)) e =
            delayHeap b) as Hrem.
    { unfold delayHeap_Remove, delayHeap_Push.
      rewrite filter_cons_False by (intros Hne; by apply Hne).
      apply filter_all. intros p Hp Heq. apply Hfresh. rewrite <- Heq.
      unfold delayEvals. apply list_elem_of_fmap. exists (fst p). split; [done |].
      apply list_elem_of_fmap. by exists p. }
    cbn [delayHeap stats with_updateCh with_stats with_delayHeap with_evals].
    rewrite Hrem, addWaiting_back. subst b0. by destruct b.
Qed.

Lemma deferred_enqueue_admits_later_witness :
  enqueueWaiting
    (Enqueue (demoBroker 3 []) (setWait evalA50 10)) (setWait evalA50 10) =
  enqueueLocked
    (with_evals (demoBroker 3 []) (<["e50"%string:=0]> (evals (demoBroker 3 []))))
    (setWait evalA50 10) "A".
Proof.
  destruct (proj1 (deferred_enqueue_admits_later (demoBroker 3 []) (setWait evalA50 10)
                     eq_refl eq_refl) ltac:(reflexivity) eq_refl)
    as (_ & _ & _ & _ & _ & _ & H).
  exact H.
Defined.

(** ** An Ack with nothing to promote *)

(** X10: an Ack of a pending delivery whose job has no blocked evaluation
    and whose token has no requeue entry only removes: the delivery, the
    attempt counter and the job entry are gone, TotalUnacked drops by one,
    and the ready and blocked queues, the timers and the delay heap are as
    before.  The next evaluation of that job is admitted to the ready
    queue. *)
Theorem Ack_without_successor (b : EvalBroker) (evalID token : string) (u : unackEval)
    (bySched : SchedulerStats) :
  unack b !! evalID = Some u -> Token u = token -> NackTimer u = true ->
  ByScheduler (stats b) !! ackQueue b evalID u = Some bySched ->
  blocked b !! namespacedID (Eval u) = None ->
  requeue b !! token = None ->
  ∃ b',
    Ack b evalID token = Ok b' tt ∧
    unack b' = delete evalID (unack b) ∧
    evals b' = delete evalID (evals b) ∧
    jobEvals b' = delete (namespacedID (Eval u)) (jobEvals b) ∧
    TotalUnacked (stats b') = TotalUnacked (stats b) - 1 ∧
    ready b' = ready b ∧ blocked b' = blocked b ∧ timeWait b' = timeWait b ∧
    delayHeap b' = delayHeap b ∧ requeue b' = requeue b ∧
    (enabled b = true ->
     ∀ e q, namespacedID e = namespacedID (Eval u) ->
            onReady (enqueueLocked b' e q) q e).
Proof.
  intros Hu Htok Htimer Hs Hblk Hrq. unfold Ack. rewrite Hu, Htimer, Hs.
  assert (String.eqb (Token u) token = true) as -> by (by apply String.eqb_eq).
  simpl. unfold ackUnblock. simpl. rewrite Hblk. unfold ackRequeue. simpl.
  rewrite Hrq. eexists. split; [done |]. simpl.
  split; [done |]. split; [done |]. split; [done |]. split; [lia |].
  do 4 (split; [done |]). split; [by apply delete_id |].
  intros Hen e q Hkey. apply enqueueLocked_admits; [done |].
  simpl. rewrite Hkey. apply lookup_delete_eq.
Qed.

Lemma Ack_without_successor_witness :
  ∃ b', Ack (demoBroker 3 outstandingOps) "e50" "t1" = Ok b' tt ∧
        evals b' = delete "e50"%string (evals (demoBroker 3 outstandingOps)).
Proof.
  destruct (Ack_without_successor (demoBroker 3 outstandingOps) "e50" "t1"
              (mkUnack evalA50 "t1" true) (mkSched 0 1)
              ltac:(vm_compute; reflexivity) eq_refl eq_refl
              ltac:(vm_compute; reflexivity) ltac:(vm_compute; reflexivity)
              ltac:(vm_compute; reflexivity)) as (b' & Hack & _ & Hev & _).
  exists b'. split; [exact Hack | exact Hev].
Defined.

(** ** Scanning one class *)

(** X11: a scan of a single class does not depend on what Peek reads: on
    an enabled broker it returns nothing, and changes nothing, when the
    class has no ready queue or an empty one, and otherwise delivers the
    evaluation heap.Pop takes from the queue, leaving the rest of the heap
    as the queue.  A scan of no class returns nothing. *)
Theorem scan_of_one_class (b : EvalBroker) (sched : string) (rnd : nat)
    (token : string) :
  enabled b = true ->
  scanForSchedulers b [] rnd token = Ok b None ∧
  (default [] (ready b !! sched) = [] ->
   scanForSchedulers b [sched] rnd token = Ok b None) ∧
  (∀ l, ready b !! sched = Some l -> l ≠ [] ->
        is_Some (ByScheduler (stats b) !! sched) ->
        ∃ b' e pending,
          scanForSchedulers b [sched] rnd token = Ok b' (Some (e, token)) ∧
          heap_Pop l = Some (e, pending) ∧
          ready b' = <[sched:=pending]> (ready b)).
Proof.
  intros Hen. unfold scanForSchedulers, eligible. rewrite Hen. simpl.
  split; [done |]. split.
  - intros Hempty. unfold scanStep.
    destruct (ready b !! sched) as [l |]; [| done]. simpl in Hempty. by subst l.
  - intros l Hl Hne [bySched Hs]. unfold scanStep. rewrite Hl.
    assert (is_Some (Peek l)) as [r Hr].
    { unfold Peek. destruct l as [| x l'] eqn:Heq; [done |]. rewrite <- Heq.
      replace (length l) with (S (length l')) by (by subst l).
      apply lookup_lt_is_Some. subst l. simpl. lia. }
    rewrite Hr. simpl. unfold dequeueForSched. rewrite Hl, Hs. simpl.
    destruct (heap_Pop_is_Some l Hne) as [[e pending] Hpop]. rewrite Hpop.
    by eexists _, e, pending.
Qed.

Lemma scan_of_one_class_witness :
  ∃ b' e pending,
    scanForSchedulers (demoBroker 3 [OpEnqueue evalA50; OpEnqueue evalA10])
      ["A"%string] 0 "t1" = Ok b' (Some (e, "t1"%string)) ∧
    heap_Pop [evalA50; evalA10] = Some (e, pending) ∧
    ready b' =
      <["A"%string:=pending]>
        (ready (demoBroker 3 [OpEnqueue evalA50; OpEnqueue evalA10])).
Proof.
  apply (proj2 (proj2 (scan_of_one_class
                         (demoBroker 3 [OpEnqueue evalA50; OpEnqueue evalA10])
                         "A" 0 "t1" eq_refl))).
  - vm_compute. reflexivity.
  - discriminate.
  - exists (mkSched 2 0). vm_compute. reflexivity.
Defined.

(** ** What a scan compares *)

Lemma Peek_None (p : list Evaluation) : Peek p = None <-> p = [].
Proof.
  unfold Peek. destruct p as [| x p']; [done |]. simpl. split; [| done].
  intros Hn. apply lookup_ge_None in Hn. simpl in Hn. lia.
Qed.

Lemma scanStep_peekPriority (b : EvalBroker) (acc : list string * Z) (sched : string) :
  scanStep b acc sched =
  match peekPriority b sched with
  | None => acc
  | Some p =>
      if (length (fst acc) =? 0)%nat || Z.ltb (snd acc) p then ([sched], p)
      else if Z.ltb p (snd acc) then acc
      else if Z.eqb (snd acc) p then (fst acc ++ [sched], snd acc)
      else acc
  end.
Proof.
  unfold scanStep, peekPriority. destruct (ready b !! sched) as [l |]; [| done].
  by destruct (Peek l).
Qed.

Lemma eligible_sound (b : EvalBroker) (schedulers : list string) :
  (∀ s, s ∈ fst (eligible b schedulers) ->
        s ∈ schedulers ∧ peekPriority b s = Some (snd (eligible b schedulers))) ∧
  (∀ s p, s ∈ schedulers -> peekPriority b s = Some p ->
          fst (eligible b schedulers) ≠ [] ∧ p <= snd (eligible b schedulers) ∧
          (p = snd (eligible b schedulers) -> s ∈ fst (eligible b schedulers))).
Proof.
  unfold eligible. induction schedulers as [| x l IH] using rev_ind.
  - simpl. split; [intros s Hs; by apply elem_of_nil in Hs |].
    intros s p Hs. by apply elem_of_nil in Hs.
  - rewrite foldl_snoc. destruct IH as [IH1 IH2].
    set (acc := foldl (scanStep b) ([], 0) l) in *.
    rewrite scanStep_peekPriority.
    destruct (peekPriority b x) as [px |] eqn:Hx.
    2: { split.
         - intros s Hs. destruct (IH1 s Hs) as [Hin Hp]. split; [| done].
           apply elem_of_app. by left.
         - intros s p Hs Hp. apply elem_of_app in Hs as [Hs | Hs]; [by apply IH2 |].
           apply list_elem_of_singleton in Hs. subst s. congruence. }
    destruct (decide (fst acc = [])) as [Hes | Hes].
    { rewrite Hes. simpl. split.
      - intros s Hs. apply list_elem_of_singleton in Hs. subst s. split; [| done].
        apply elem_of_app. right. by left.
      - intros s p Hs Hp. apply elem_of_app in Hs as [Hs | Hs].
        + by destruct (IH2 s p Hs Hp) as [Hne _].
        + apply list_elem_of_singleton in Hs. subst s.
          assert (p = px) as -> by congruence.
          split; [done |]. split; [lia |]. intros _. by left. }
    assert ((length (fst acc) =? 0)%nat = false) as ->.
    { apply Nat.eqb_neq. by destruct (fst acc). }
    simpl. destruct (Z.ltb_spec (snd acc) px) as [Hlt | Hge]; simpl.
    { split.
      - intros s Hs. apply list_elem_of_singleton in Hs. subst s. split; [| done].
        apply elem_of_app. right. by left.
      - intros s p Hs Hp. apply elem_of_app in Hs as [Hs | Hs].
        + destruct (IH2 s p Hs Hp) as (_ & Hle & _).
          split; [done |]. split; [lia |]. intros ->. lia.
        + apply list_elem_of_singleton in Hs. subst s.
          assert (p = px) as -> by congruence.
          split; [done |]. split; [lia |]. intros _. by left. }
    destruct (Z.ltb_spec px (snd acc)) as [Hlt | Hge2]; simpl.
    { split.
      - intros s Hs. destruct (IH1 s Hs) as [Hin Hp]. split; [| done].
        apply elem_of_app. by left.
      - intros s p Hs Hp. apply elem_of_app in Hs as [Hs | Hs].
        + by apply IH2.
        + apply list_elem_of_singleton in Hs. subst s.
          assert (p = px) as -> by congruence.
          split; [done |]. split; [lia |]. intros ->. lia. }
    assert (snd acc = px) as Heq by lia.
    destruct (Z.eqb_spec (snd acc) px); [| done]. simpl.
    assert (fst acc ++ [x] ≠ []) as Hne by (by destruct (fst acc)).
    split.
    + intros s Hs. apply elem_of_app in Hs as [Hs | Hs].
      * destruct (IH1 s Hs) as [Hin Hp]. split; [| done]. apply elem_of_app. by left.
      * apply list_elem_of_singleton in Hs. subst s. split; [| congruence].
        apply elem_of_app. right. by left.
    + intros s p Hs Hp. apply elem_of_app in Hs as [Hs | Hs].
      * destruct (IH2 s p Hs Hp) as (_ & Hle & Hmem).
        split; [done |]. split; [done |].
        intros Hpe. apply elem_of_app. left. by apply Hmem.
      * apply list_elem_of_singleton in Hs. subst s.
        assert (p = px) as -> by congruence.
        split; [done |]. split; [lia |].
        intros _. apply elem_of_app. right. by left.
Qed.

(** X12: what a scan compares.  The class a scan delivers from is one of
    the requested classes, and the priority Peek reads on its ready queue
    is the greatest of the priorities Peek reads on the ready queues of the
    requested classes; the evaluation delivered is the one heap.Pop takes
    from that queue.  The scan returns nothing exactly when Peek finds
    nothing on any requested class. *)
Theorem scan_picks_greatest_peek (b : EvalBroker) (schedulers : list string)
    (rnd : nat) (token : string) :
  enabled b = true ->
  (∀ b' e t,
     scanForSchedulers b schedulers rnd token = Ok b' (Some (e, t)) ->
     ∃ sched l pending p,
       sched ∈ schedulers ∧ ready b !! sched = Some l ∧
       heap_Pop l = Some (e, pending) ∧ peekPriority b sched = Some p ∧
       ∀ s p', s ∈ schedulers -> peekPriority b s = Some p' -> p' <= p) ∧
  ((∃ b', scanForSchedulers b schedulers rnd token = Ok b' None) <->
   ∀ s, s ∈ schedulers -> peekPriority b s = None).
Proof.
  intros Hen. destruct (eligible_sound b schedulers) as [Hs1 Hs2]. split.
  - intros b' e t Hscan.
    destruct (scan_Ok_dequeues _ _ _ _ _ _ Hscan) as (sched & Hel & Hd).
    destruct (Hs1 sched Hel) as [Hin Hp].
    unfold dequeueForSched in Hd.
    destruct (ready b !! sched) as [l |] eqn:Hl; [| done]. simpl in Hd.
    destruct (heap_Pop l) as [[e0 pending] |] eqn:Hpop; [| done].
    destruct (ByScheduler _ !! _) as [bySched |]; [| done]. injection Hd as _ <- _.
    exists sched, l, pending, (snd (eligible b schedulers)).
    do 4 (split; [done |]). intros s p' Hs Hp'. by apply (Hs2 s p').
  - unfold scanForSchedulers. rewrite Hen. cbn [negb]. split.
    + intros [b' Hscan] s Hs.
      destruct (peekPriority b s) as [p |] eqn:Hp; [| done]. exfalso.
      destruct (Hs2 s p Hs Hp) as [Hne _].
      destruct (fst (eligible b schedulers)) as [| s0 [| s1 ss]]; [done | |].
      * unfold dequeueForSched in Hscan.
        destruct (heap_Pop _) as [[e0 pending] |]; [| done].
        by destruct (ByScheduler _ !! _).
      * destruct (_ !! _) as [s2 |]; [| done]. unfold dequeueForSched in Hscan.
        destruct (heap_Pop _) as [[e0 pending] |]; [| done].
        by destruct (ByScheduler _ !! _).
    + intros Hnone.
      destruct (fst (eligible b schedulers)) as [| s0 es] eqn:Hes; [by eexists |].
      destruct (Hs1 s0) as [Hin Hp]; [by left |].
      rewrite (Hnone s0 Hin) in Hp. done.
Qed.

Lemma scan_picks_greatest_peek_witness :
  ∃ sched l pending p,
    sched ∈ ["A"%string; "B"%string] ∧
    ready (demoBroker 3 [OpEnqueue evalA50; OpEnqueue evalA10; OpEnqueue evalB30])
      !! sched = Some l ∧
    heap_Pop l = Some (evalB30, pending) ∧
    peekPriority
      (demoBroker 3 [OpEnqueue evalA50; OpEnqueue evalA10; OpEnqueue evalB30]) sched =
      Some p ∧
    ∀ s p', s ∈ ["A"%string; "B"%string] ->
            peekPriority
              (demoBroker 3 [OpEnqueue evalA50; OpEnqueue evalA10; OpEnqueue evalB30]) s =
              Some p' -> p' <= p.
Proof.
  refine (proj1 (scan_picks_greatest_peek
                   (demoBroker 3 [OpEnqueue evalA50; OpEnqueue evalA10; OpEnqueue evalB30])
                   ["A"%string; "B"%string] 0 "t1" eq_refl)
            (demoBroker 3 [OpEnqueue evalA50; OpEnqueue evalA10; OpEnqueue evalB30;
                           OpDequeue ["A"%string; "B"%string] 0 "t1"])
            evalB30 "t1"%string _).
  vm_compute. reflexivity.
Defined.

(** ** Queues and wait channels *)

(** X13: heap.Push and heap.Pop keep the evaluations of a queue.  A push
    adds the evaluation and nothing else; a pop fails exactly on the empty
    queue, and otherwise returns one evaluation of the queue and leaves
    the others; Peek finds nothing exactly on the empty queue and otherwise
    reads the last slot. *)
Theorem heap_keeps_elements (h : list Evaluation) (x : Evaluation) :
  heap_Push h x ≡ₚ x :: h ∧
  length (heap_Push h x) = S (length h) ∧
  (heap_Pop h = None <-> h = []) ∧
  (∀ e h', heap_Pop h = Some (e, h') -> h ≡ₚ e :: h' ∧ length h = S (length h')) ∧
  (∃ e h', heap_Pop (heap_Push h x) = Some (e, h') ∧ e :: h' ≡ₚ x :: h) ∧
  (Peek h = None <-> h = []) ∧
  Peek h = last h.
Proof.
  split; [apply heap_Push_Permutation |].
  split; [by rewrite (Permutation_length (heap_Push_Permutation h x)) |].
  split.
  { split.
    - intros Hn. destruct h as [| y h']; [done |].
      destruct (heap_Pop_is_Some (y :: h')) as [r Hr]; [done | congruence].
    - by intros ->. }
  split.
  { intros e h' Hpop. pose proof (heap_Pop_Permutation h h' e Hpop) as Hp.
    split; [done |]. by rewrite (Permutation_length Hp). }
  split.
  { destruct (heap_Pop_is_Some (heap_Push h x)) as [[e h'] Hpop].
    - intros Hnil. pose proof (Permutation_length (heap_Push_Permutation h x)) as Hl.
      rewrite Hnil in Hl. done.
    - exists e, h'. split; [done |].
      by rewrite <- (heap_Pop_Permutation _ _ _ Hpop), heap_Push_Permutation. }
  split; [apply Peek_None |].
  unfold Peek. destruct h as [| y h'] using rev_ind; [done |].
  rewrite length_app, last_snoc. simpl.
  replace (length h' + 1)%nat with (S (length h')) by lia.
  by rewrite lookup_app_r, Nat.sub_diag.
Qed.

Lemma heap_keeps_elements_witness :
  [evalA50; evalA10] ≡ₚ evalA50 :: [evalA10] ∧ length [evalA50; evalA10] = 2%nat.
Proof.
  apply (proj1 (proj2 (proj2 (proj2 (heap_keeps_elements [evalA50; evalA10] evalA50))))
           evalA50 [evalA10]).
  reflexivity.
Defined.

Lemma waitForSchedulers_waiting (b : EvalBroker) (schedulers : list string) :
  waitForSchedulers b schedulers =
    with_waiting b (waiting (waitForSchedulers b schedulers)) ∧
  (∀ s v, waiting b !! s = Some v ->
          waiting (waitForSchedulers b schedulers) !! s = Some v) ∧
  (∀ s, s ∈ schedulers -> is_Some (waiting (waitForSchedulers b schedulers) !! s)) ∧
  (∀ s, is_Some (waiting (waitForSchedulers b schedulers) !! s) ->
        s ∈ schedulers ∨ is_Some (waiting b !! s)).
Proof.
  unfold waitForSchedulers. revert b.
  induction schedulers as [| x l IH]; intros b; simpl.
  - split; [by destruct b |]. split; [done |].
    split; [intros s Hs; by apply elem_of_nil in Hs |]. intros s Hs. by right.
  - set (b1 := match waiting b !! x with
               | Some _ => b
               | None => with_waiting b (<[x:=false]> (waiting b))
               end).
    destruct (IH b1) as (Heq & Hkeep & Hnew & Hold).
    assert (∀ s v, waiting b !! s = Some v -> waiting b1 !! s = Some v) as Hb1.
    { intros s v Hs. unfold b1. destruct (waiting b !! x) eqn:Hx; [done |].
      simpl. rewrite lookup_insert_ne; [done |]. intros <-. congruence. }
    assert (is_Some (waiting b1 !! x)) as [vx Hx1].
    { unfold b1. destruct (waiting b !! x) eqn:Hx; [by eexists |].
      simpl. rewrite lookup_insert_eq. by eexists. }
    split; [| split; [| split]].
    + rewrite Heq at 1. unfold b1. by destruct (waiting b !! x); destruct b.
    + intros s v Hs. by apply Hkeep, Hb1.
    + intros s Hs. apply elem_of_cons in Hs as [-> | Hs]; [| by apply Hnew].
      rewrite (Hkeep x vx Hx1). by eexists.
    + intros s Hs. destruct (Hold s Hs) as [Hin | Hsome].
      * left. by right.
      * unfold b1 in Hsome. destruct (waiting b !! x) eqn:Hx; [by right |].
        simpl in Hsome. rewrite lookup_insert in Hsome. case_decide.
        -- subst s. left. by left.
        -- by right.
Qed.



(** ** The statistics follow the tables: enqueueing *)

Lemma inflight_enqueueReady (b : EvalBroker) (e : Evaluation) (q : string) :
  inflight (enqueueReady b e q) ≡ₚ e :: inflight b.
Proof. unfold inflight. by rewrite readyEvals_enqueueReady. Qed.

Lemma allEvals_enqueueReady (b : EvalBroker) (e : Evaluation) (q : string) :
  allEvals (enqueueReady b e q) ≡ₚ e :: allEvals b.
Proof. unfold allEvals. by rewrite inflight_enqueueReady. Qed.

Lemma exempt_resident (i : string) (e : Evaluation) (l l' : list Evaluation)
    (ex ex' : list string) :
  l' ≡ₚ e :: l -> ex ⊆ ID e :: ex' ->
  i ∈ ID <$> l ∨ i ∈ ex -> i ∈ ID <$> l' ∨ i ∈ ex'.
Proof.
  intros Hl Hex [Hi | Hi].
  - left. rewrite Hl, fmap_cons. by right.
  - apply Hex in Hi. apply elem_of_cons in Hi as [-> | Hi]; [| by right].
    left. rewrite Hl, fmap_cons. by left.
Qed.

Lemma signal_lookup (w : gmap string bool) (q q' : string) :
  is_Some (w !! q') ->
  is_Some ((match w !! q with Some _ => <[q:=true]> w | None => w end) !! q').
Proof.
  intros Hq'. destruct (w !! q) eqn:Hq; [| done].
  rewrite lookup_insert. case_decide; [by eexists | done].
Qed.

Lemma create_lookup (w : gmap string bool) (r : option (list Evaluation))
    (q q' : string) :
  is_Some (w !! q') ->
  is_Some ((match r with
            | Some _ => w
            | None => match w !! q with Some _ => w | None => <[q:=false]> w end
            end) !! q').
Proof.
  intros Hq'. destruct r; [done |]. destruct (w !! q) eqn:Hq; [done |].
  rewrite lookup_insert. case_decide; [by eexists | done].
Qed.

Lemma enqueueReady_sinv (b : EvalBroker) (e : Evaluation) (q : string)
    (ex ex' : list string) :
  StatsInv b ex ->
  q = EvalType e ∨ is_Some (ByScheduler (stats b) !! EvalType e) ->
  ex ⊆ ID e :: ex' ->
  StatsInv (enqueueReady b e q) ex'.
Proof.
  intros Hs Hty Hex.
  pose proof (readyEvals_enqueueReady b e q) as Hrdy.
  pose proof (si_class b ex Hs q) as Hq.
  split.
  - rewrite (Permutation_length Hrdy). simpl. rewrite (si_ready b ex Hs). lia.
  - apply Hs.
  - apply Hs.
  - apply Hs.
  - intros q'. unfold enqueueReady. simpl. rewrite !lookup_insert.
    case_decide as Hqq.
    + subst q'. eexists. split; [done |]. simpl.
      rewrite (Permutation_length (heap_Push_Permutation _ _)). simpl.
      destruct (ready b !! q) as [l |]; simpl.
      * destruct Hq as (s & -> & Hr). simpl. lia.
      * rewrite Hq. simpl. lia.
    + apply Hs.
  - intros q'. unfold enqueueReady. simpl. rewrite lookup_insert. intros Hsome.
    apply signal_lookup. case_decide as Hqq.
    + subst q'. destruct (ready b !! q) as [l |] eqn:Hl.
      * apply (si_chan b ex Hs q). by eexists.
      * destruct (waiting b !! q) as [v |] eqn:Hv; [by eexists |].
        rewrite lookup_insert_eq. by eexists.
    + apply create_lookup. by apply (si_chan b ex Hs q').
  - intros i Hi. apply (exempt_resident i e (allEvals b) _ ex ex').
    + apply allEvals_enqueueReady.
    + done.
    + by apply (si_counter b ex Hs).
  - intros x. rewrite inflight_enqueueReady, elem_of_cons.
    unfold enqueueReady. simpl. rewrite lookup_insert. intros [-> | Hx].
    + case_decide; [by eexists |]. destruct Hty as [-> | Hty]; done.
    + case_decide; [by eexists |]. by apply (si_type b ex Hs).
  - intros i u Hu. destruct (si_failed b ex Hs i u Hu) as [Hle | Hf]; [by left |].
    right. unfold enqueueReady. simpl. rewrite lookup_insert.
    case_decide; [by eexists | done].
Qed.

Lemma setJobEvals_sinv (b : EvalBroker) (v : gmap (string * string) string)
    (ex : list string) :
  StatsInv b ex -> StatsInv (with_jobEvals b v) ex.
Proof. intros Hs. split; apply Hs. Qed.

Lemma allEvals_cons_parked (b b' : EvalBroker) (e : Evaluation) :
  inflight b' = inflight b -> parked b' ≡ₚ e :: parked b ->
  allEvals b' ≡ₚ e :: allEvals b.
Proof.
  intros Hin Hpk. unfold allEvals. rewrite Hin, Hpk. by rewrite <- Permutation_middle.
Qed.

Lemma enqueueLocked_sinv (b : EvalBroker) (e : Evaluation) (q : string)
    (ex ex' : list string) :
  enabled b = true ->
  StatsInv b ex ->
  q = EvalType e ∨ is_Some (ByScheduler (stats b) !! EvalType e) ->
  ex ⊆ ID e :: ex' ->
  StatsInv (enqueueLocked b e q) ex'.
Proof.
  intros Hen Hs Hty Hex. unfold enqueueLocked. rewrite Hen. simpl.
  destruct (String.eqb _ "").
  { apply (enqueueReady_sinv _ e q ex ex'); [by apply setJobEvals_sinv | done | done]. }
  destruct (negb _); [| by apply (enqueueReady_sinv b e q ex ex')].
  set (b' := with_stats _ _).
  assert (blockedEvals b' ≡ₚ e :: blockedEvals b) as Hblk.
  { unfold blockedEvals. simpl. apply blockedEvals_push. }
  assert (allEvals b' ≡ₚ e :: allEvals b) as Hall.
  { apply allEvals_cons_parked; [done |]. unfold parked. rewrite Hblk. done. }
  split; try apply Hs.
  - rewrite (Permutation_length Hblk).
    change (TotalBlocked (stats b')) with (TotalBlocked (stats b) + 1).
    rewrite (si_blocked b ex Hs). simpl length. lia.
  - intros i Hi. apply (exempt_resident i e (allEvals b) _ ex ex'); [done | done |].
    by apply (si_counter b ex Hs).
Qed.

Lemma processWaitingEnqueue_sinv (b : EvalBroker) (e : Evaluation)
    (ex ex' : list string) :
  StatsInv b ex -> timeWait b !! ID e = None -> ex ⊆ ID e :: ex' ->
  StatsInv (processWaitingEnqueue b e) ex'.
Proof.
  intros Hs Htw Hex. set (b' := processWaitingEnqueue b e).
  assert (waitEvals b' ≡ₚ e :: waitEvals b) as Hw.
  { unfold waitEvals. simpl. by rewrite vals_insert_None. }
  assert (allEvals b' ≡ₚ e :: allEvals b) as Hall.
  { apply allEvals_cons_parked; [done |]. unfold parked. rewrite Hw.
    change (blockedEvals b') with (blockedEvals b).
    change (delayEvals b') with (delayEvals b).
    rewrite <- app_comm_cons. by rewrite <- Permutation_middle. }
  split; try apply Hs.
  - rewrite (Permutation_length Hw). change (delayEvals b') with (delayEvals b).
    change (TotalWaiting (stats b')) with (TotalWaiting (stats b) + 1).
    rewrite (si_waiting b ex Hs). simpl length. lia.
  - intros i Hi. apply (exempt_resident i e (allEvals b) _ ex ex'); [done | done |].
    by apply (si_counter b ex Hs).
Qed.

Lemma delayPush_sinv (b : EvalBroker) (e : Evaluation) (t : Z) (ex ex' : list string) :
  StatsInv b ex -> ex ⊆ ID e :: ex' ->
  StatsInv (with_updateCh
              (with_stats (with_delayHeap b (delayHeap_Push (delayHeap b) e t))
                 (addWaiting (stats b) 1)) true) ex'.
Proof.
  intros Hs Hex. set (b' := with_updateCh _ _).
  assert (allEvals b' ≡ₚ e :: allEvals b) as Hall.
  { apply allEvals_cons_parked; [done |]. unfold parked, delayEvals. simpl.
    by rewrite <- !Permutation_middle. }
  split; try apply Hs.
  - change (waitEvals b') with (waitEvals b).
    change (TotalWaiting (stats b')) with (TotalWaiting (stats b) + 1).
    change (delayEvals b') with (e :: delayEvals b).
    rewrite (si_waiting b ex Hs). simpl length. lia.
  - intros i Hi. apply (exempt_resident i e (allEvals b) _ ex ex'); [done | done |].
    by apply (si_counter b ex Hs).
Qed.

Lemma setEvals_fresh_sinv (b : EvalBroker) (i : string) :
  StatsInv b [] -> StatsInv (with_evals b (<[i:=0]> (evals b))) [i].
Proof.
  intros Hs. split; try apply Hs.
  - intros j. simpl. rewrite lookup_insert. case_decide as Hij.
    + intros _. right. subst j. by left.
    + intros Hj. destruct (si_counter b [] Hs j Hj) as [Hr | Hr]; [by left |].
      by apply elem_of_nil in Hr.
  - intros j u Hu. simpl. rewrite lookup_insert. case_decide.
    + left. simpl. lia.
    + by apply (si_failed b [] Hs j u).
Qed.

Lemma requeue_sinv (b : EvalBroker) (v : gmap string Evaluation) (ex : list string) :
  StatsInv b ex -> StatsInv (with_requeue b v) ex.
Proof. intros Hs. split; apply Hs. Qed.

Lemma processEnqueue_sinv (b : EvalBroker) (e : Evaluation) (token : string) :
  BrokerInv b -> StatsInv b [] -> StatsInv (processEnqueue b e token) [].
Proof.
  intros Hinv Hs. unfold processEnqueue. rewrite (inv_enabled b Hinv). simpl.
  destruct (evals b !! ID e) as [c |] eqn:Hev.
  - destruct (String.eqb token ""); [done |].
    destruct (unack b !! ID e) as [u |]; [| done].
    destruct (String.eqb (Token u) token); [| done]. by apply requeue_sinv.
  - pose proof (setEvals_fresh_sinv b (ID e) Hs) as Hs1.
    set (b1 := with_evals b (<[ID e:=0]> (evals b))) in *.
    destruct (Z.ltb 0 (Wait e)).
    + apply (processWaitingEnqueue_sinv b1 e [ID e] []); [done | | done].
      apply (fresh_timeWait b e Hinv). by apply fresh_of_evals.
    + destruct (negb (Z.eqb (WaitUntil e) 0)).
      * by apply (delayPush_sinv b1 e (WaitUntil e) [ID e] []).
      * apply (enqueueLocked_sinv b1 e (EvalType e) [ID e] []); try done.
        -- apply Hinv.
        -- by left.
Qed.

Lemma EnqueueAll_sinv (b : EvalBroker) (evs : list (Evaluation * string)) :
  BrokerInv b -> forallb (fun p => validEval (fst p)) evs = true ->
  StatsInv b [] -> StatsInv (EnqueueAll b evs) [].
Proof.
  unfold EnqueueAll. revert b.
  induction evs as [| p evs IH]; intros b Hinv Hval Hs; simpl; [done |].
  simpl in Hval. apply andb_true_iff in Hval as [Hp Hval].
  apply IH; [by apply processEnqueue_inv | done | by apply processEnqueue_sinv].
Qed.

(** ** The statistics follow the tables: dequeueing, Ack and Nack *)

Lemma ready_not_unack (b : EvalBroker) (sched : string) (l : list Evaluation)
    (e : Evaluation) :
  BrokerInv b -> ready b !! sched = Some l -> e ∈ l -> unack b !! ID e = None.
Proof.
  intros Hinv Hl He. destruct (unack b !! ID e) as [u |] eqn:Hu; [| done]. exfalso.
  pose proof (inv_nodup b Hinv) as Hnd. unfold allEvals, inflight in Hnd.
  rewrite !fmap_app in Hnd. apply NoDup_app in Hnd as (Hnd & _ & _).
  apply NoDup_app in Hnd as (_ & Hdis & _). apply (Hdis (ID e)).
  - apply list_elem_of_fmap. exists e. split; [done |]. apply elem_of_queued. eauto.
  - apply list_elem_of_fmap. exists (Eval u).
    split; [symmetry; by apply (inv_unack_id b Hinv) |].
    by apply (elem_of_unackEvals b (ID e)).
Qed.

Lemma dequeueForSched_sinv (b b' : EvalBroker) (sched token : string)
    (r : option (Evaluation * string)) :
  BrokerInv b -> StatsInv b [] ->
  dequeueForSched b sched token = Ok b' r -> StatsInv b' [].
Proof.
  intros Hinv Hs. unfold dequeueForSched.
  destruct (ready b !! sched) as [l |] eqn:Hsched; [| done]. simpl.
  destruct (heap_Pop l) as [[e pending] |] eqn:Hpop; [| done].
  destruct (ByScheduler (stats b) !! sched) as [bySched |] eqn:Hby; [| done].
  intros [= <- <-]. set (b' := with_stats _ _).
  pose proof (heap_Pop_Permutation l pending e Hpop) as Hl.
  assert (e ∈ l) as He by (rewrite Hl; by left).
  assert (readyEvals b ≡ₚ e :: readyEvals b') as Hready.
  { unfold readyEvals. simpl. by apply (queued_pop _ sched l). }
  pose proof (ready_not_unack b sched l e Hinv Hsched He) as Hun.
  assert (unackEvals b' ≡ₚ e :: unackEvals b) as Hunack.
  { unfold unackEvals. simpl. by rewrite vals_insert_None. }
  assert (inflight b' ≡ₚ inflight b) as Hin.
  { unfold inflight. rewrite Hunack, Hready. by rewrite <- Permutation_middle. }
  assert (allEvals b' ≡ₚ allEvals b) as Hall.
  { unfold allEvals. by rewrite Hin. }
  pose proof (si_class b [] Hs sched) as Hcls. rewrite Hsched, Hby in Hcls.
  destruct Hcls as (s0 & [= <-] & Hrdy).
  split.
  - change (TotalReady (stats b')) with (TotalReady (stats b) + -1).
    rewrite (si_ready b [] Hs), (Permutation_length Hready). simpl length. lia.
  - change (TotalUnacked (stats b')) with (TotalUnacked (stats b) + 1).
    rewrite (si_unacked b [] Hs), (Permutation_length Hunack). simpl length. lia.
  - apply Hs.
  - apply Hs.
  - intros q. simpl. rewrite !lookup_insert. case_decide.
    + eexists. split; [done |]. simpl. rewrite Hrdy, (Permutation_length Hl).
      simpl length. lia.
    + apply Hs.
  - intros q. simpl. rewrite lookup_insert. case_decide.
    + intros _. subst q. apply (si_chan b [] Hs sched). by eexists.
    + apply Hs.
  - intros i. simpl. rewrite lookup_insert. case_decide as Hi.
    + intros _. left. subst i. rewrite Hall. apply list_elem_of_fmap. exists e.
      split; [done |]. unfold allEvals, inflight, readyEvals.
      rewrite !elem_of_app. left. left. apply elem_of_queued. eauto.
    + intros Hsome. rewrite Hall. by apply (si_counter b [] Hs).
  - intros x. rewrite Hin. intros Hx. simpl. rewrite lookup_insert.
    case_decide; [by eexists | by apply (si_type b [] Hs)].
  - intros i u. simpl. rewrite !lookup_insert. case_decide as Hi.
    + intros [= <-]. subst i. simpl.
      destruct (decide (sched = failedQueue)) as [-> | Hne].
      * right. by eexists.
      * left. destruct (inv_low b Hinv e) as (c & Hc & Hlow).
        { unfold lowEvals. rewrite elem_of_app. left. apply elem_of_queued.
          exists sched, l. by rewrite lookup_delete_ne. }
        rewrite Hc. simpl. lia.
    + intros Hu.
      destruct (si_failed b [] Hs i u Hu) as [Hle | Hf]; [by left |].
      right. case_decide; [by eexists | done].
Qed.

Lemma scanForSchedulers_sinv (b b' : EvalBroker) (schedulers : list string) (rnd : nat)
    (token : string) :
  BrokerInv b -> StatsInv b [] ->
  outcome_state (scanForSchedulers b schedulers rnd token) = Some b' ->
  StatsInv b' [].
Proof.
  intros Hinv Hs. unfold scanForSchedulers. rewrite (inv_enabled b Hinv). simpl.
  destruct (fst (eligible b schedulers)) as [| s [| s' ss]].
  - by intros [= <-].
  - destruct (dequeueForSched b s token) as [b1 r | b1 err |] eqn:Hd; simpl;
      intros [= <-].
    + by apply (dequeueForSched_sinv b b1 s token r).
    + unfold dequeueForSched in Hd. repeat case_match; done.
  - destruct (_ !! _) as [s0 |]; [| done].
    destruct (dequeueForSched b s0 token) as [b1 r | b1 err |] eqn:Hd; simpl;
      intros [= <-].
    + by apply (dequeueForSched_sinv b b1 s0 token r).
    + unfold dequeueForSched in Hd. repeat case_match; done.
Qed.

Lemma unackDelete_sinv (b : EvalBroker) (i : string) (u : unackEval) (q : string)
    (s0 : SchedulerStats) :
  StatsInv b [] -> unack b !! i = Some u -> ID (Eval u) = i ->
  ByScheduler (stats b) !! q = Some s0 ->
  StatsInv (with_stats (with_unack b (delete i (unack b)))
              (setByScheduler (addUnacked (stats b) (-1)) q
                 (mkSched (Ready s0) (Unacked s0 - 1)))) [i].
Proof.
  intros Hs Hu Hi Hq. set (b' := with_stats _ _).
  assert (unackEvals b ≡ₚ Eval u :: unackEvals b') as Hunack.
  { unfold unackEvals. simpl. by rewrite (vals_delete_Some (unack b) i u Hu). }
  assert (allEvals b ≡ₚ Eval u :: allEvals b') as Hall.
  { unfold allEvals, inflight. rewrite Hunack.
    change (readyEvals b') with (readyEvals b). change (parked b') with (parked b).
    by rewrite <- !Permutation_middle. }
  split; try apply Hs.
  - change (TotalUnacked (stats b')) with (TotalUnacked (stats b) + -1).
    rewrite (si_unacked b [] Hs), (Permutation_length Hunack). simpl length. lia.
  - intros q'. simpl. rewrite lookup_insert. case_decide.
    + subst q'. pose proof (si_class b [] Hs q) as Hc. rewrite Hq in Hc.
      destruct (ready b !! q) as [l |]; [| done].
      destruct Hc as (s1 & [= <-] & Hr). by eexists.
    + apply Hs.
  - intros j Hj. destruct (si_counter b [] Hs j Hj) as [Hr | Hr].
    + rewrite Hall, fmap_cons in Hr. apply elem_of_cons in Hr as [-> | Hr].
      * right. rewrite Hi. by left.
      * by left.
    + by apply elem_of_nil in Hr.
  - intros x Hx. simpl. rewrite lookup_insert. case_decide; [by eexists |].
    apply (si_type b [] Hs). unfold inflight in *. rewrite Hunack.
    change (readyEvals b') with (readyEvals b) in Hx.
    rewrite !elem_of_app, elem_of_cons in *. tauto.
  - intros j u'. simpl. rewrite lookup_delete_Some. intros [_ Hu'].
    destruct (si_failed b [] Hs j u' Hu') as [Hle | Hf]; [by left |].
    right. rewrite lookup_insert. case_decide; [by eexists | done].
Qed.

Lemma ackCleanup_sinv (b : EvalBroker) (i : string) (u : unackEval) (q : string)
    (bySched : SchedulerStats) :
  StatsInv b [] -> unack b !! i = Some u -> ID (Eval u) = i ->
  ByScheduler (stats b) !! q = Some bySched ->
  StatsInv (ackCleanup b i u q bySched) [].
Proof.
  intros Hs Hu Hi Hq.
  pose proof (unackDelete_sinv b i u q bySched Hs Hu Hi Hq) as Hs1.
  set (b1 := with_stats _ _) in Hs1.
  change (ackCleanup b i u q bySched) with
    (with_jobEvals (with_evals b1 (delete i (evals b1)))
       (delete (namespacedID (Eval u)) (jobEvals b1))).
  split; try apply Hs1.
  - intros j. simpl. intros [c Hc]. apply lookup_delete_Some in Hc as [Hne Hj].
    destruct (si_counter b1 [i] Hs1 j) as [Hr | Hr]; [by eexists | by left |].
    apply list_elem_of_singleton in Hr. done.
  - intros j u'. simpl. intros Hu'. pose proof Hu' as Hu''.
    apply lookup_delete_Some in Hu'' as [Hne _].
    rewrite lookup_delete_ne by done. by apply (si_failed b1 [i] Hs1 j u').
Qed.

Lemma ackUnblock_sinv (b b' : EvalBroker) (k : string * string) :
  BrokerInv b -> StatsInv b [] -> ackUnblock b k = Some b' -> StatsInv b' [].
Proof.
  intros Hinv Hs. unfold ackUnblock.
  destruct (blocked b !! k) as [blk |] eqn:Hk; [| by intros [= <-]].
  destruct blk as [| x0 blk0]; [by intros [= <-] |].
  set (blk := x0 :: blk0) in *.
  destruct (heap_Pop blk) as [[e blk'] |] eqn:Hpop; [| done].
  intros [= <-].
  pose proof (heap_Pop_Permutation blk blk' e Hpop) as Hblk.
  set (blocked1 := if (0 <? length blk')%nat then <[k:=blk']> (blocked b)
                   else delete k (blocked b)).
  set (b1 := with_stats (with_blocked b blocked1) (addBlocked (stats b) (-1))).
  assert (blockedEvals b ≡ₚ e :: blockedEvals b1) as Hq.
  { unfold blockedEvals, blocked1. simpl. destruct blk' as [| y blk'']; simpl.
    - by apply (queued_pop_delete _ k blk).
    - by apply (queued_pop _ k blk). }
  assert (allEvals b ≡ₚ e :: allEvals b1) as Hall.
  { unfold allEvals, parked. rewrite Hq. change (inflight b1) with (inflight b).
    change (waitEvals b1) with (waitEvals b). change (delayEvals b1) with (delayEvals b).
    rewrite <- app_comm_cons. by rewrite <- Permutation_middle. }
  apply (enqueueLocked_sinv b1 e (EvalType e) [ID e] []).
  - apply Hinv.
  - split; try apply Hs.
    + change (TotalBlocked (stats b1)) with (TotalBlocked (stats b) + -1).
      rewrite (si_blocked b [] Hs), (Permutation_length Hq). simpl length. lia.
    + intros j Hj. destruct (si_counter b [] Hs j Hj) as [Hr | Hr].
      * rewrite Hall, fmap_cons in Hr. apply elem_of_cons in Hr as [-> | Hr].
        -- right. by left.
        -- by left.
      * by apply elem_of_nil in Hr.
  - by left.
  - done.
Qed.

Lemma Ack_sinv (b b' : EvalBroker) (evalID token : string) :
  BrokerInv b -> StatsInv b [] ->
  outcome_state (Ack b evalID token) = Some b' -> StatsInv b' [].
Proof.
  intros Hinv Hs. unfold Ack.
  destruct (unack b !! evalID) as [u |] eqn:Hu; simpl.
  2: { intros [= <-]. by apply requeue_sinv. }
  destruct (negb (String.eqb (Token u) token)); simpl.
  { intros [= <-]. by apply requeue_sinv. }
  destruct (negb (NackTimer u)); simpl.
  { intros [= <-]. by apply requeue_sinv. }
  destruct (ByScheduler (stats b) !! ackQueue b evalID u) as [bySched |] eqn:Hby;
    [| done].
  pose proof (inv_unack_id b Hinv evalID u Hu) as Hi.
  destruct (ackCleanup_inv b evalID u (ackQueue b evalID u) bySched Hinv Hu)
    as [Hinv1 _].
  pose proof (ackCleanup_sinv b evalID u _ bySched Hs Hu Hi Hby) as Hs1.
  destruct (ackUnblock _ _) as [b2 |] eqn:Hub; [| done]. simpl. intros [= <-].
  apply requeue_sinv.
  pose proof (ackUnblock_inv _ _ _ Hinv1 Hub) as Hinv2.
  pose proof (ackUnblock_sinv _ _ _ Hinv1 Hs1 Hub) as Hs2.
  unfold ackRequeue. destruct (requeue b2 !! token) as [e |]; [| done].
  by apply processEnqueue_sinv.
Qed.

Lemma Nack_sinv (b b' : EvalBroker) (evalID token : string) :
  BrokerInv b -> StatsInv b [] ->
  outcome_state (Nack b evalID token) = Some b' -> StatsInv b' [].
Proof.
  intros Hinv Hs. unfold Nack.
  pose proof (clearRequeue_inv b token Hinv) as Hinv0.
  pose proof (requeue_sinv b (delete token (requeue b)) [] Hs) as Hs0.
  change (with_requeue b (delete token (requeue b))) with (clearRequeue b token) in Hs0.
  set (b0 := clearRequeue b token) in *.
  destruct (unack b0 !! evalID) as [u |] eqn:Hu; simpl; [| by intros [= <-]].
  destruct (negb (String.eqb (Token u) token)); simpl; [by intros [= <-] |].
  destruct (ByScheduler _ !! _) as [bySched |] eqn:Hby; [| done]. simpl.
  intros [= <-].
  pose proof (inv_unack_id b0 Hinv0 evalID u Hu) as Hi.
  set (s := setByScheduler _ _ _).
  destruct (unackDelete_inv b0 evalID u s Hinv0 Hu)
    as (Hinv1 & Hfresh & Hid & Hsome & Hjob).
  pose proof (unackDelete_sinv b0 evalID u _ bySched Hs0 Hu Hi Hby) as Hs1.
  fold s in Hs1.
  set (b1 := with_stats (with_unack b0 (delete evalID (unack b0))) s) in *.
  assert (is_Some (ByScheduler (stats b1) !! EvalType (Eval u))) as Hty.
  { simpl. rewrite lookup_insert_eq. by eexists. }
  assert ([evalID] ⊆ [ID (Eval u)]) as Hex by (by rewrite Hi).
  unfold nackReenqueue. destruct (Z.leb _ _).
  - apply (enqueueLocked_sinv b1 (Eval u) failedQueue [evalID] []); try done.
    + apply Hinv1.
    + by right.
  - set (e := setWait _ _). destruct (Z.ltb 0 (Wait e)).
    + apply (processWaitingEnqueue_sinv b1 e [evalID] []); try done.
      by apply (fresh_timeWait b1 e Hinv1).
    + apply (enqueueLocked_sinv b1 e (EvalType e) [evalID] []); try done.
      * apply Hinv1.
      * by left.
Qed.

(** ** The statistics follow the tables: timers and runs *)

Lemma setNackTimer_sinv (b : EvalBroker) (i : string) (u : unackEval) (v : bool) :
  StatsInv b [] -> unack b !! i = Some u -> StatsInv (setNackTimer b i u v) [].
Proof.
  intros Hs Hu. set (b' := setNackTimer b i u v).
  assert (unackEvals b' ≡ₚ unackEvals b) as Hunack.
  { unfold unackEvals. simpl. rewrite <- insert_delete_eq.
    rewrite map_to_list_insert by apply lookup_delete_eq.
    rewrite <- (map_to_list_delete (unack b) i u Hu). done. }
  assert (inflight b' ≡ₚ inflight b) as Hin.
  { unfold inflight. rewrite Hunack. done. }
  assert (allEvals b' ≡ₚ allEvals b) as Hall.
  { unfold allEvals. rewrite Hin. done. }
  split; try apply Hs.
  - rewrite (Permutation_length Hunack). apply Hs.
  - intros j. rewrite Hall. apply Hs.
  - intros x. rewrite Hin. apply Hs.
  - intros j u'. simpl. rewrite lookup_insert. case_decide.
    + intros _. subst j. by apply (si_failed b [] Hs i u).
    + apply Hs.
Qed.

Lemma enqueueWaiting_sinv (b : EvalBroker) (i : string) (e : Evaluation) :
  BrokerInv b -> StatsInv b [] -> timeWait b !! i = Some e ->
  StatsInv (enqueueWaiting b e) [].
Proof.
  intros Hinv Hs Hw. pose proof (inv_wait_id b Hinv i e Hw) as Hi. subst i.
  unfold enqueueWaiting. set (b1 := with_stats _ _).
  assert (waitEvals b ≡ₚ e :: waitEvals b1) as Hwait.
  { unfold waitEvals. simpl. by rewrite (vals_delete_Some (timeWait b) (ID e) e Hw). }
  assert (allEvals b ≡ₚ e :: allEvals b1) as Hall.
  { unfold allEvals, parked. rewrite Hwait. change (inflight b1) with (inflight b).
    change (blockedEvals b1) with (blockedEvals b).
    change (delayEvals b1) with (delayEvals b).
    rewrite <- app_comm_cons. by rewrite <- !Permutation_middle. }
  apply (enqueueLocked_sinv b1 e (EvalType e) [ID e] []).
  - apply Hinv.
  - split; try apply Hs.
    + change (TotalWaiting (stats b1)) with (TotalWaiting (stats b) + -1).
      change (delayEvals b1) with (delayEvals b).
      rewrite (si_waiting b [] Hs), (Permutation_length Hwait). simpl length. lia.
    + intros j Hj. destruct (si_counter b [] Hs j Hj) as [Hr | Hr].
      * rewrite Hall, fmap_cons in Hr. apply elem_of_cons in Hr as [-> | Hr].
        -- right. by left.
        -- by left.
      * by apply elem_of_nil in Hr.
  - by left.
  - done.
Qed.

Lemma delayedEvalFire_sinv (b : EvalBroker) (p : Evaluation * Z) :
  BrokerInv b -> StatsInv b [] -> p ∈ delayHeap b ->
  StatsInv (delayedEvalFire b (fst p)) [].
Proof.
  intros Hinv Hs Hp. unfold delayedEvalFire. set (b1 := with_stats _ _).
  assert (NoDup (ID <$> delayEvals b)) as Hnd.
  { pose proof (inv_nodup b Hinv) as Hnd. unfold allEvals, parked in Hnd.
    rewrite !fmap_app in Hnd.
    apply NoDup_app in Hnd as (_ & _ & Hnd). apply NoDup_app in Hnd as (_ & _ & Hnd).
    by apply NoDup_app in Hnd as (_ & _ & Hnd). }
  assert (delayEvals b ≡ₚ fst p :: delayEvals b1) as Hdelay.
  { unfold delayEvals. simpl. by apply delayHeap_Remove_Permutation. }
  assert (allEvals b ≡ₚ fst p :: allEvals b1) as Hall.
  { unfold allEvals, parked. rewrite Hdelay. change (inflight b1) with (inflight b).
    change (blockedEvals b1) with (blockedEvals b).
    change (waitEvals b1) with (waitEvals b).
    by rewrite <- !Permutation_middle. }
  apply (enqueueLocked_sinv b1 (fst p) (EvalType (fst p)) [ID (fst p)] []).
  - apply Hinv.
  - split; try apply Hs.
    + change (TotalWaiting (stats b1)) with (TotalWaiting (stats b) + -1).
      change (waitEvals b1) with (waitEvals b).
      rewrite (si_waiting b [] Hs), (Permutation_length Hdelay). simpl length. lia.
    + intros j Hj. destruct (si_counter b [] Hs j Hj) as [Hr | Hr].
      * rewrite Hall, fmap_cons in Hr. apply elem_of_cons in Hr as [-> | Hr].
        -- right. by left.
        -- by left.
      * by apply elem_of_nil in Hr.
  - by left.
  - done.
Qed.

Lemma waitForSchedulers_sinv (b : EvalBroker) (schedulers : list string) :
  StatsInv b [] -> StatsInv (waitForSchedulers b schedulers) [].
Proof.
  intros Hs. destruct (waitForSchedulers_waiting b schedulers) as (Heq & Hkeep & _).
  rewrite Heq. split; try apply Hs.
  intros q Hq. simpl. destruct (si_chan b [] Hs q Hq) as [v Hv].
  rewrite (Hkeep q v Hv). by eexists.
Qed.

Lemma step_sinv (b b' : EvalBroker) (o : op) :
  BrokerInv b -> StatsInv b [] -> validOp o = true -> step b o = Some b' ->
  StatsInv b' [].
Proof.
  intros Hinv Hs Hval. destruct o; simpl in *.
  - intros [= <-]. by apply processEnqueue_sinv.
  - intros [= <-]. by apply EnqueueAll_sinv.
  - by apply scanForSchedulers_sinv.
  - intros [= <-]. by apply waitForSchedulers_sinv.
  - by apply Ack_sinv.
  - by apply Nack_sinv.
  - unfold OutstandingReset.
    destruct (unack b !! evalID) as [u |] eqn:Hu; simpl; [| by intros [= <-]].
    destruct (negb (String.eqb (Token u) token)); simpl; [by intros [= <-] |].
    destruct (negb (NackTimer u)); simpl; intros [= <-]; by apply setNackTimer_sinv.
  - unfold PauseNackTimeout.
    destruct (unack b !! evalID) as [u |] eqn:Hu; simpl; [| by intros [= <-]].
    destruct (negb (String.eqb (Token u) token)); simpl; [by intros [= <-] |].
    destruct (negb (NackTimer u)); simpl; intros [= <-]; [done |].
    by apply setNackTimer_sinv.
  - unfold ResumeNackTimeout.
    destruct (unack b !! evalID) as [u |] eqn:Hu; simpl; [| by intros [= <-]].
    destruct (negb (String.eqb (Token u) token)); simpl; intros [= <-]; [done |].
    by apply setNackTimer_sinv.
  - intros [= <-]. unfold nackTimerExpire.
    destruct (unack b !! evalID) as [u |] eqn:Hu; [| done].
    destruct (NackTimer u); [| done]. by apply setNackTimer_sinv.
  - destruct (timeWait b !! evalID) as [e |] eqn:Hw; intros [= <-]; [| done].
    by apply (enqueueWaiting_sinv b evalID).
  - destruct (find _ _) as [p |] eqn:Hfind; intros [= <-]; [| done].
    apply find_some in Hfind as [Hp _].
    apply delayedEvalFire_sinv; [done | done |]. by apply list_elem_of_In.
Qed.

Lemma run_sinv (ops : list op) (b b' : EvalBroker) :
  BrokerInv b -> StatsInv b [] -> forallb validOp ops = true ->
  run b ops = Some b' -> BrokerInv b' ∧ StatsInv b' [].
Proof.
  revert b. induction ops as [| o ops IH]; intros b Hinv Hs Hval; simpl.
  - by intros [= <-].
  - simpl in Hval. apply andb_true_iff in Hval as [Ho Hval].
    destruct (step b o) as [b1 |] eqn:Hstep; [| done].
    apply IH; [by apply (step_inv b b1 o) | by apply (step_sinv b b1 o) | done].
Qed.

Lemma startBroker_sinv (timeout initial subsequent limit : Z) (b : EvalBroker) :
  startBroker timeout initial subsequent limit = Some b -> StatsInv b [].
Proof.
  unfold startBroker, NewEvalBroker. destruct (Z.ltb timeout 0); [done |].
  intros [= <-]. split; try done.
  - intros q [l Hl]. simpl in Hl. by rewrite lookup_empty in Hl.
  - intros i [c Hc]. simpl in Hc. by rewrite lookup_empty in Hc.
  - intros e. unfold inflight, readyEvals, unackEvals, queued. simpl.
    intros He. by apply elem_of_nil in He.
Qed.

(** ** Invariants of the enabled broker *)

Lemma reachable_inv (limit : Z) (b : EvalBroker) :
  reachable limit b -> BrokerInv b ∧ StatsInv b [].
Proof.
  intros (timeout & initial & subsequent & b0 & ops & Hstart & Hval & Hrun).
  apply (run_sinv ops b0 b); try done.
  - by apply (startBroker_inv _ _ _ _ _ Hstart).
  - by apply (startBroker_sinv _ _ _ _ _ Hstart).
Qed.

Lemma reachable_demo (limit : Z) (ops : list op) :
  forallb validOp ops = true ->
  run (SetEnabled (emptyBroker 5 0 0 limit) true) ops = Some (demoBroker limit ops) ->
  reachable limit (demoBroker limit ops).
Proof.
  intros Hval Hrun. exists 5, 0, 0, (SetEnabled (emptyBroker 5 0 0 limit) true), ops.
  split; [| done]. reflexivity.
Qed.

(** X15: the residence sets of an enabled broker are disjoint.  Along
    every run of calls and timer events with non-empty evaluation ids, no
    two evaluations on the ready and blocked queues, in the unack table,
    on wait timers and on the delay heap share an id; the attempt counters
    are exactly the ids of these evaluations; and the unack table and the
    wait timers are keyed by the id of the evaluation they hold. *)
Theorem resident_ids_are_unique (limit : Z) (b : EvalBroker) :
  reachable limit b ->
  NoDup (ID <$> allEvals b) ∧
  (∀ i, is_Some (evals b !! i) <-> i ∈ ID <$> allEvals b) ∧
  (∀ i u, unack b !! i = Some u -> ID (Eval u) = i) ∧
  (∀ i e, timeWait b !! i = Some e -> ID e = i).
Proof.
  intros Hr. destruct (reachable_inv limit b Hr) as [Hinv Hs].
  split; [apply Hinv |]. split; [| split; apply Hinv].
  intros i. split.
  - intros Hi. destruct (si_counter b [] Hs i Hi) as [H | H]; [done |].
    by apply elem_of_nil in H.
  - intros Hi. apply list_elem_of_fmap in Hi as (e & -> & He).
    by apply (inv_evals b Hinv).
Qed.

Lemma resident_ids_are_unique_witness :
  NoDup (ID <$> allEvals (demoBroker 3 busyOps)).
Proof.
  apply (proj1 (resident_ids_are_unique 3 (demoBroker 3 busyOps)
                  (reachable_demo 3 busyOps eq_refl
                     ltac:(vm_compute; reflexivity)))).
Defined.

(** X16: the totals Stats reports count the tables.  Along every run with
    non-empty ids TotalReady is the number of evaluations on the ready
    queues, TotalUnacked the size of the unack table, TotalBlocked the
    number of evaluations on the blocked queues, and TotalWaiting the
    number of wait timers plus the length of the delay heap. *)
Theorem Stats_totals_count_the_tables (limit : Z) (b : EvalBroker) :
  reachable limit b ->
  TotalReady (Stats b) = Z.of_nat (length (readyEvals b)) ∧
  TotalUnacked (Stats b) = Z.of_nat (size (unack b)) ∧
  TotalBlocked (Stats b) = Z.of_nat (length (blockedEvals b)) ∧
  TotalWaiting (Stats b) = Z.of_nat (size (timeWait b) + length (delayHeap b)).
Proof.
  intros Hr. destruct (reachable_inv limit b Hr) as [Hinv Hs]. simpl.
  split; [apply Hs |]. split; [| split; [apply Hs |]].
  - rewrite (si_unacked b [] Hs). unfold unackEvals.
    by rewrite !length_fmap, length_map_to_list.
  - rewrite (si_waiting b [] Hs). unfold waitEvals, delayEvals.
    by rewrite !length_fmap, length_map_to_list.
Qed.

Lemma Stats_totals_count_the_tables_witness :
  TotalReady (Stats (demoBroker 3 busyOps)) =
    Z.of_nat (length (readyEvals (demoBroker 3 busyOps))) ∧
  TotalUnacked (Stats (demoBroker 3 busyOps)) =
    Z.of_nat (size (unack (demoBroker 3 busyOps))) ∧
  TotalBlocked (Stats (demoBroker 3 busyOps)) =
    Z.of_nat (length (blockedEvals (demoBroker 3 busyOps))) ∧
  TotalWaiting (Stats (demoBroker 3 busyOps)) =
    Z.of_nat (size (timeWait (demoBroker 3 busyOps)) +
              length (delayHeap (demoBroker 3 busyOps))).
Proof.
  apply (Stats_totals_count_the_tables 3 (demoBroker 3 busyOps)
           (reachable_demo 3 busyOps eq_refl ltac:(vm_compute; reflexivity))).
Defined.

(** X17: the per-class statistics follow the ready queues.  Along every
    run with non-empty ids a class has a statistics entry exactly when it
    has a ready queue, the Ready counter of the entry is the length of the
    queue, and every class with a ready queue has a wait channel. *)
Theorem class_stats_follow_ready_queues (limit : Z) (b : EvalBroker) :
  reachable limit b ->
  (∀ q, ByScheduler (Stats b) !! q = None <-> ready b !! q = None) ∧
  (∀ q l s, ready b !! q = Some l -> ByScheduler (Stats b) !! q = Some s ->
            Ready s = Z.of_nat (length l)) ∧
  (∀ q, is_Some (ready b !! q) -> is_Some (waiting b !! q)).
Proof.
  intros Hr. destruct (reachable_inv limit b Hr) as [Hinv Hs]. simpl.
  split; [| split; [| apply Hs]].
  - intros q. pose proof (si_class b [] Hs q) as Hq.
    destruct (ready b !! q) as [l |]; [| done].
    destruct Hq as (s & -> & _). done.
  - intros q l s Hl Hq. pose proof (si_class b [] Hs q) as Hc.
    rewrite Hl, Hq in Hc. by destruct Hc as (s' & [= <-] & Hc).
Qed.

Lemma class_stats_follow_ready_queues_witness :
  is_Some (waiting (demoBroker 3 busyOps) !! "A"%string).
Proof.
  apply (proj2 (proj2 (class_stats_follow_ready_queues 3 (demoBroker 3 busyOps)
                         (reachable_demo 3 busyOps eq_refl
                            ltac:(vm_compute; reflexivity)))) "A"%string).
  eexists. vm_compute. reflexivity.
Defined.

(** ** No panic above delivery limit 0 *)

Lemma enqueueLocked_deliveryLimit (b : EvalBroker) (e : Evaluation) (q : string) :
  deliveryLimit (enqueueLocked b e q) = deliveryLimit b.
Proof.
  unfold enqueueLocked. destruct (negb (enabled b)); [done |].
  destruct (String.eqb _ ""); [done |]. by destruct (negb _).
Qed.

Lemma processEnqueue_deliveryLimit (b : EvalBroker) (e : Evaluation) (token : string) :
  deliveryLimit (processEnqueue b e token) = deliveryLimit b.
Proof.
  unfold processEnqueue. destruct (negb (enabled b)); [done |].
  destruct (evals b !! ID e).
  - destruct (String.eqb token ""); [done |].
    destruct (unack b !! ID e) as [u |]; [| done].
    by destruct (String.eqb (Token u) token).
  - destruct (Z.ltb 0 (Wait e)); [done |].
    destruct (negb (Z.eqb (WaitUntil e) 0)); [done |].
    by rewrite enqueueLocked_deliveryLimit.
Qed.

Lemma step_deliveryLimit (b b' : EvalBroker) (o : op) :
  step b o = Some b' -> deliveryLimit b' = deliveryLimit b.
Proof.
  destruct o; simpl.
  - intros [= <-]. apply processEnqueue_deliveryLimit.
  - intros [= <-]. unfold EnqueueAll. revert b.
    induction evs as [| p evs IH]; intros b; simpl; [done |].
    by rewrite IH, processEnqueue_deliveryLimit.
  - unfold scanForSchedulers. destruct (negb (enabled b)); [by intros [= <-] |].
    assert (∀ s, outcome_state (dequeueForSched b s token) = Some b' ->
                 deliveryLimit b' = deliveryLimit b) as Hd.
    { intros s. unfold dequeueForSched.
      destruct (heap_Pop _) as [[e pending] |]; [| done].
      destruct (ByScheduler _ !! _); [| done]. by intros [= <-]. }
    destruct (fst (eligible b schedulers)) as [| s [| s' ss]];
      [by intros [= <-] | apply Hd |].
    destruct (_ !! _); [apply Hd | done].
  - intros [= <-].
    destruct (waitForSchedulers_waiting b schedulers) as (-> & _). done.
  - unfold Ack. destruct (unack b !! evalID) as [u |]; [| by intros [= <-]].
    destruct (negb _); [by intros [= <-] |].
    destruct (negb _); [by intros [= <-] |].
    destruct (ByScheduler _ !! _) as [bySched |]; [| done].
    set (b1 := ackCleanup _ _ _ _ _).
    assert (∀ b2, ackUnblock b1 (namespacedID (Eval u)) = Some b2 ->
                  deliveryLimit b2 = deliveryLimit b) as Hub.
    { intros b2. unfold ackUnblock.
      destruct (blocked b1 !! _) as [blk |]; [| by intros [= <-]].
      destruct blk as [| x0 blk0]; [by intros [= <-] |].
      destruct (heap_Pop _) as [[e blk'] |]; [| done]. intros [= <-].
      by rewrite enqueueLocked_deliveryLimit. }
    destruct (ackUnblock _ _) as [b2 |]; [| done]. simpl. intros [= <-].
    simpl. unfold ackRequeue. destruct (requeue b2 !! token).
    + rewrite processEnqueue_deliveryLimit. by apply Hub.
    + by apply Hub.
  - unfold Nack. simpl. destruct (unack b !! evalID) as [u |]; [| by intros [= <-]].
    destruct (negb _); [by intros [= <-] |].
    destruct (ByScheduler _ !! _) as [bySched |]; [| done]. simpl. intros [= <-].
    unfold nackReenqueue. destruct (Z.leb _ _).
    + by rewrite enqueueLocked_deliveryLimit.
    + destruct (Z.ltb 0 _); [done |]. by rewrite enqueueLocked_deliveryLimit.
  - unfold OutstandingReset. destruct (unack b !! evalID) as [u |]; [| by intros [= <-]].
    destruct (negb _); [by intros [= <-] |]. by destruct (negb _); intros [= <-].
  - unfold PauseNackTimeout. destruct (unack b !! evalID) as [u |]; [| by intros [= <-]].
    destruct (negb _); [by intros [= <-] |]. by destruct (negb _); intros [= <-].
  - unfold ResumeNackTimeout.
    destruct (unack b !! evalID) as [u |]; [| by intros [= <-]].
    by destruct (negb _); intros [= <-].
  - intros [= <-]. unfold nackTimerExpire. destruct (unack b !! evalID) as [u |]; [| done].
    by destruct (NackTimer u).
  - destruct (timeWait b !! evalID) as [e |]; intros [= <-]; [| done].
    unfold enqueueWaiting. by rewrite enqueueLocked_deliveryLimit.
  - destruct (find _ _) as [p |]; intros [= <-]; [| done].
    unfold delayedEvalFire. by rewrite enqueueLocked_deliveryLimit.
Qed.

Lemma eligible_dequeues (b : EvalBroker) (schedulers : list string) (s token : string) :
  StatsInv b [] -> s ∈ fst (eligible b schedulers) ->
  is_Some (outcome_state (dequeueForSched b s token)).
Proof.
  intros Hs Hel. destruct (eligible_sound b schedulers) as [Hs1 _].
  destruct (Hs1 s Hel) as [_ Hp]. unfold peekPriority in Hp.
  pose proof (si_class b [] Hs s) as Hc.
  destruct (ready b !! s) as [l |] eqn:Hl; [| done].
  destruct Hc as (bySched & Hby & _).
  assert (l ≠ []) as Hne.
  { intros ->. done. }
  destruct (heap_Pop_is_Some l Hne) as [[e pending] Hpop].
  unfold dequeueForSched. rewrite Hl. simpl. rewrite Hpop, Hby. by eexists.
Qed.

Lemma step_is_Some (b : EvalBroker) (o : op) :
  BrokerInv b -> StatsInv b [] -> 1 <= deliveryLimit b -> is_Some (step b o).
Proof.
  intros Hinv Hs Hlim. destruct o; simpl; try (by eexists).
  - unfold scanForSchedulers. destruct (negb (enabled b)); [by eexists |].
    destruct (fst (eligible b schedulers)) as [| s [| s' ss]] eqn:Hel; [by eexists | |].
    + apply (eligible_dequeues b schedulers); [done |]. rewrite Hel. by left.
    + destruct (lookup_lt_is_Some_2 (s :: s' :: ss)
                  (rnd mod length (s :: s' :: ss))) as [s0 Hs0].
      { apply Nat.mod_upper_bound. done. }
      rewrite Hs0. apply (eligible_dequeues b schedulers); [done |].
      rewrite Hel. by apply list_elem_of_lookup_2 in Hs0.
  - unfold Ack. destruct (unack b !! evalID) as [u |] eqn:Hu; [| by eexists].
    destruct (negb _); [by eexists |]. destruct (negb _); [by eexists |].
    assert (is_Some (ByScheduler (stats b) !! ackQueue b evalID u)) as [bySched Hby].
    { unfold ackQueue. destruct (Z.ltb_spec (deliveryLimit b) (default 0 (evals b !! evalID))).
      - destruct (si_failed b [] Hs evalID u Hu) as [Hle | Hf]; [lia | done].
      - apply (si_type b [] Hs). unfold inflight. rewrite elem_of_app. right.
        by apply (elem_of_unackEvals b evalID). }
    rewrite Hby.
    destruct (ackUnblock_fields (ackCleanup b evalID u (ackQueue b evalID u) bySched)
                (namespacedID (Eval u))) as (b2 & -> & _).
    by eexists.
  - unfold Nack. simpl. destruct (unack b !! evalID) as [u |] eqn:Hu; [| by eexists].
    destruct (negb _); [by eexists |].
    destruct (si_type b [] Hs (Eval u)) as [bySched ->]; [| by eexists].
    unfold inflight. rewrite elem_of_app. right. by apply (elem_of_unackEvals b evalID).
  - unfold OutstandingReset. destruct (unack b !! evalID) as [u |]; [| by eexists].
    destruct (negb _); [by eexists |]. by destruct (negb _); eexists.
  - unfold PauseNackTimeout. destruct (unack b !! evalID) as [u |]; [| by eexists].
    destruct (negb _); [by eexists |]. by destruct (negb _); eexists.
  - unfold ResumeNackTimeout. destruct (unack b !! evalID) as [u |]; [| by eexists].
    by destruct (negb _); eexists.
  - destruct (timeWait b !! evalID); by eexists.
  - destruct (find _ _); by eexists.
Qed.

(** X18: with a delivery limit of at least 1, no run panics.  From a new,
    enabled broker every sequence of calls and timer events with non-empty
    evaluation ids runs to the end: heap.Pop is never called on an empty
    queue, and the statistics entries that dequeueForSched, Ack and Nack
    update exist. *)
Theorem no_panic_above_limit_zero (timeout initial subsequent limit : Z)
    (ops : list op) (b0 : EvalBroker) :
  startBroker timeout initial subsequent limit = Some b0 ->
  1 <= limit ->
  forallb validOp ops = true ->
  is_Some (run b0 ops).
Proof.
  intros Hstart Hlim Hval.
  assert (deliveryLimit b0 = limit) as Hl0.
  { unfold startBroker, NewEvalBroker in Hstart.
    destruct (Z.ltb timeout 0); [done |]. by injection Hstart as <-. }
  pose proof (startBroker_inv _ _ _ _ _ Hstart) as Hinv.
  pose proof (startBroker_sinv _ _ _ _ _ Hstart) as Hs.
  clear Hstart. revert b0 Hl0 Hinv Hs.
  induction ops as [| o ops IH]; intros b0 Hl0 Hinv Hs; simpl; [by eexists |].
  simpl in Hval. apply andb_true_iff in Hval as [Ho Hval].
  destruct (step_is_Some b0 o Hinv Hs) as [b1 Hstep]; [lia |].
  rewrite Hstep. apply IH; [done | | |].
  - rewrite (step_deliveryLimit b0 b1 o Hstep). done.
  - by apply (step_inv b0 b1 o).
  - by apply (step_sinv b0 b1 o).
Qed.

Lemma no_panic_above_limit_zero_witness :
  is_Some (run (SetEnabled (emptyBroker 5 0 0 1) true)
             [OpEnqueue evalA50; OpDequeue ["A"%string] 0 "t1"; OpAck "e50" "t1"]).
Proof.
  apply (no_panic_above_limit_zero 5 0 0 1
           [OpEnqueue evalA50; OpDequeue ["A"%string] 0 "t1"; OpAck "e50" "t1"]
           (SetEnabled (emptyBroker 5 0 0 1) true) eq_refl ltac:(lia) eq_refl).
Defined.

(** ** A Nack keeps the job *)

Lemma enqueueLocked_representative (b : EvalBroker) (e : Evaluation) (q : string) :
  enabled b = true -> jobEvals b !! namespacedID e = Some (ID e) ->
  ID e ≠ ""%string ->
  jobEvals (enqueueLocked b e q) = jobEvals b ∧
  blocked (enqueueLocked b e q) = blocked b ∧
  evals (enqueueLocked b e q) = evals b ∧
  enabled (enqueueLocked b e q) = true.
Proof.
  intros Hen Hj Hid. unfold enqueueLocked. rewrite Hen, Hj. simpl.
  destruct (String.eqb_spec (ID e) ""); [done |].
  by rewrite String.eqb_refl.
Qed.

(** X19: a Nack does not release the job of the evaluation.  Along every
    run with non-empty ids a successful Nack leaves the job table, the
    attempt counters and the blocked queues as they are, so an evaluation
    of the same job that is admitted after the Nack still goes on the
    blocked queue of the job. *)
Theorem Nack_keeps_the_job (limit : Z) (b b' : EvalBroker) (evalID token : string) :
  reachable limit b ->
  Nack b evalID token = Ok b' tt ->
  jobEvals b' = jobEvals b ∧ evals b' = evals b ∧ blocked b' = blocked b ∧
  ∃ u, unack b !! evalID = Some u ∧
       jobEvals b' !! namespacedID (Eval u) = Some evalID ∧
       ∀ e q, namespacedID e = namespacedID (Eval u) -> ID e ≠ evalID ->
              onBlocked (enqueueLocked b' e q) (namespacedID e) e ∧
              ready (enqueueLocked b' e q) = ready b'.
Proof.
  intros Hr. destruct (reachable_inv limit b Hr) as [Hinv _]. unfold Nack. simpl.
  destruct (unack b !! evalID) as [u |] eqn:Hu; [| done].
  destruct (negb _); [done |]. simpl.
  destruct (ByScheduler _ !! _) as [bySched |]; [| done]. intros [= <-].
  pose proof (inv_unack_id b Hinv evalID u Hu) as Hi.
  assert (jobEvals b !! namespacedID (Eval u) = Some (ID (Eval u))) as Hjob.
  { apply (inv_inflight_job b Hinv). unfold inflight. rewrite elem_of_app. right.
    by apply (elem_of_unackEvals b evalID). }
  assert (ID (Eval u) ≠ ""%string) as Hid.
  { apply (inv_evals b Hinv).
    by apply unackEvals_allEvals, (elem_of_unackEvals b evalID). }
  set (b1 := with_stats _ _).
  assert (jobEvals (nackReenqueue b1 evalID u) = jobEvals b ∧
          blocked (nackReenqueue b1 evalID u) = blocked b ∧
          evals (nackReenqueue b1 evalID u) = evals b ∧
          enabled (nackReenqueue b1 evalID u) = true) as (Hj & Hb & He & Hen).
  { unfold nackReenqueue. destruct (Z.leb _ _).
    - apply (enqueueLocked_representative b1 (Eval u) failedQueue);
        [apply Hinv | done | done].
    - set (e := setWait _ _). destruct (Z.ltb 0 (Wait e)).
      + repeat split. apply Hinv.
      + apply (enqueueLocked_representative b1 e (EvalType e));
          [apply Hinv | done | done]. }
  split; [done |]. split; [done |]. split; [done |].
  exists u. split; [done |]. split; [by rewrite Hj, Hjob, Hi |].
  intros e q Hkey Hne.
  destruct (enqueueLocked_blocks (nackReenqueue b1 evalID u) e q evalID)
    as (H1 & H2 & _); [done | by rewrite Hj, Hkey, Hjob, Hi | by rewrite <- Hi
                       | by intros -> |].
  done.
Qed.

Lemma Nack_keeps_the_job_witness :
  jobEvals (demoBroker 3 (outstandingOps ++ [OpNack "e50" "t1"])) =
  jobEvals (demoBroker 3 outstandingOps).
Proof.
  apply (proj1 (Nack_keeps_the_job 3 (demoBroker 3 outstandingOps)
                  (demoBroker 3 (outstandingOps ++ [OpNack "e50" "t1"]))
                  "e50" "t1"
                  (reachable_demo 3 outstandingOps eq_refl
                     ltac:(vm_compute; reflexivity))
                  ltac:(vm_compute; reflexivity))).
Defined.

(** ** The heap order of the queues *)

(** The parent [(k - 1) / 2] of [k] has [k] as its left or right child. *)
Lemma parent_spec (k : nat) :
  (0 < k)%nat -> (k = 2 * ((k - 1) / 2) + 1 ∨ k = 2 * ((k - 1) / 2) + 2)%nat.
Proof.
  intros Hk. pose proof (Nat.div_mod_eq (k - 1) 2) as Hd.
  pose proof (Nat.mod_upper_bound (k - 1) 2). lia.
Qed.

Lemma LessEval_irrefl (a : Evaluation) : LessEval a a = false.
Proof.
  unfold LessEval. rewrite String.eqb_refl. simpl. apply Z.ltb_irrefl.
Qed.

(** Swap exchanges two elements and leaves the others. *)
Lemma Swap_lookup (h : list Evaluation) (i j k : nat) :
  (i < length h)%nat -> (j < length h)%nat ->
  Swap h i j !! k = h !! transpose i j k.
Proof.
  intros Hi Hj. unfold Swap, transpose.
  destruct (lookup_lt_is_Some_2 h i Hi) as [a Ha].
  destruct (lookup_lt_is_Some_2 h j Hj) as [b Hb]. rewrite Ha, Hb.
  destruct (decide (k = j)) as [-> | Hkj].
  - rewrite list_lookup_insert_eq; [done | by rewrite length_insert].
  - rewrite list_lookup_insert_ne by done.
    destruct (decide (k = i)) as [-> | Hki].
    + by rewrite list_lookup_insert_eq.
    + by rewrite list_lookup_insert_ne.
Qed.

Lemma Less_Swap (h : list Evaluation) (i j a b : nat) :
  (i < length h)%nat -> (j < length h)%nat ->
  Less (Swap h i j) a b = Less h (transpose i j a) (transpose i j b).
Proof. intros Hi Hj. unfold Less. by rewrite !Swap_lookup. Qed.

Lemma LessOrders_Permutation (l l' : list Evaluation) :
  l ≡ₚ l' -> LessOrders l -> LessOrders l'.
Proof.
  intros Hp Ho a b c Ha Hb Hc. apply Ho; by rewrite Hp.
Qed.

Section order.
Variable h : list Evaluation.
Hypothesis Hord : LessOrders h.

Lemma Less_trans (a b c : nat) :
  Less h a b = true -> Less h b c = true -> Less h a c = true.
Proof.
  unfold Less. destruct (h !! a) as [x |] eqn:Ha; [| done].
  destruct (h !! b) as [y |] eqn:Hb; [| done].
  destruct (h !! c) as [z |] eqn:Hc; [| done].
  apply list_elem_of_lookup_2 in Ha, Hb, Hc. by apply (Hord x y z).
Qed.

Lemma Less_negtrans (a b c : nat) :
  (b < length h)%nat ->
  Less h a b = false -> Less h b c = false -> Less h a c = false.
Proof.
  intros Hlt. unfold Less. destruct (h !! a) as [x |] eqn:Ha; [| done].
  destruct (lookup_lt_is_Some_2 h b Hlt) as [y Hb]. rewrite Hb.
  destruct (h !! c) as [z |] eqn:Hc; [| done].
  apply list_elem_of_lookup_2 in Ha, Hb, Hc. by apply (Hord x y z).
Qed.

Lemma Less_asym (a b : nat) : Less h a b = true -> Less h b a = false.
Proof.
  intros Hab. destruct (Less h b a) eqn:Hba; [| done].
  pose proof (Less_trans a b a Hab Hba) as Haa. unfold Less in Haa.
  destruct (h !! a); [| done]. by rewrite LessEval_irrefl in Haa.
Qed.

(** In heap order no element is Less than the root. *)
Lemma heapOrdered_root (n k : nat) :
  (n <= length h)%nat -> heapOrdered h n -> (k < n)%nat -> Less h k 0 = false.
Proof.
  intros Hn Hh. induction (lt_wf k) as [k _ IH]. intros Hk.
  destruct (decide (k = 0%nat)) as [-> | Hk0].
  - unfold Less. destruct (h !! 0%nat); [| done]. apply LessEval_irrefl.
  - pose proof (parent_spec k ltac:(lia)) as Hp.
    apply (Less_negtrans k ((k - 1) / 2) 0); [lia | apply Hh; lia |].
    apply IH; lia.
Qed.

End order.

(** heap.up restores the heap order when [j] alone may be Less than its
    parent and the children of [j] are not Less than the parent of [j]. *)
Lemma up_loop_heap (fuel : nat) (h : list Evaluation) (j : nat) :
  LessOrders h -> (j < length h)%nat -> (j < fuel)%nat ->
  (∀ k, (0 < k < length h)%nat -> k ≠ j -> Less h k ((k - 1) / 2) = false) ->
  (∀ k, (0 < k < length h)%nat -> (0 < j)%nat -> ((k - 1) / 2)%nat = j ->
        Less h k ((j - 1) / 2) = false) ->
  heapOrdered (up_loop fuel h j) (length h).
Proof.
  revert h j. induction fuel as [| fuel IH]; intros h j Hord Hj Hfuel H1 H2; [lia |].
  cbn [up_loop]. cbv zeta.
  destruct (Nat.eqb_spec ((j - 1) / 2) j) as [Heq | Hne]; cbn [orb].
  { intros k Hk. apply H1; [done |]. destruct j; [lia |].
    pose proof (parent_spec (S j) ltac:(lia)). lia. }
  destruct (Less h j ((j - 1) / 2)) eqn:Hless; cbn [negb].
  2:{ intros k Hk. destruct (decide (k = j)) as [-> | Hkj]; [done | by apply H1]. }
  assert (0 < j)%nat as Hj0 by (destruct j; [done | lia]).
  pose proof (parent_spec j Hj0) as Hpj.
  rewrite <- (Swap_length h ((j - 1) / 2) j).
  apply IH.
  - eapply LessOrders_Permutation; [symmetry; apply Swap_Permutation | done].
  - rewrite Swap_length. lia.
  - lia.
  - rewrite Swap_length. intros k Hk Hki.
    rewrite Less_Swap by lia. unfold transpose.
    pose proof (parent_spec k ltac:(lia)) as Hpk.
    destruct (decide (k = j)) as [-> | Hkj].
    + destruct (decide (_ = j)); [lia |]. rewrite decide_True by done.
      by apply Less_asym.
    + rewrite (decide_False (P := k = _)) by done.
      destruct (decide ((k - 1) / 2 = j)%nat) as [Hpkj | Hpkj].
      * by apply H2.
      * destruct (decide ((k - 1) / 2 = (j - 1) / 2)%nat) as [Heq | Hneq]; [| by apply H1].
        destruct (Less h k j) eqn:Hkj'; [| done].
        pose proof (Less_trans h Hord _ _ _ Hkj' Hless) as Hc.
        rewrite <- Heq in Hc. rewrite H1 in Hc; done.
  - rewrite Swap_length. intros k Hk Hi0 Hpk.
    pose proof (parent_spec ((j - 1) / 2) Hi0) as Hpi.
    pose proof (parent_spec k ltac:(lia)) as Hsk.
    rewrite Less_Swap by lia. unfold transpose.
    rewrite (decide_False (P := ((_ - 1) / 2)%nat = j)) by lia.
    rewrite (decide_False (P := (((j - 1) / 2 - 1) / 2)%nat = _)) by lia.
    destruct (decide (k = j)) as [-> | Hkj].
    + apply H1; lia.
    + rewrite decide_False by lia.
      apply (Less_negtrans h Hord k ((j - 1) / 2)); [lia | |].
      * rewrite <- Hpk. apply H1; [lia | done].
      * apply H1; lia.
Qed.

(** heap.down restores the heap order when the children of [i] alone may be
    Less than their parent and are not Less than the parent of [i]. *)
Lemma down_loop_heap (fuel : nat) (h : list Evaluation) (i n : nat) :
  LessOrders h -> (n <= length h)%nat -> (i < n)%nat -> (n - i <= fuel)%nat ->
  (∀ k, (0 < k < n)%nat -> ((k - 1) / 2)%nat ≠ i -> Less h k ((k - 1) / 2) = false) ->
  (∀ k, (0 < k < n)%nat -> (0 < i)%nat -> ((k - 1) / 2)%nat = i ->
        Less h k ((i - 1) / 2) = false) ->
  heapOrdered (down_loop fuel h i n) n.
Proof.
  revert h i. induction fuel as [| fuel IH]; intros h i Hord Hn Hi Hfuel H1 H2; [lia |].
  cbn [down_loop]. cbv zeta.
  destruct (Nat.leb_spec n (2 * i + 1)) as [Hle | Hlt].
  { intros k Hk. apply H1; [done |]. pose proof (parent_spec k ltac:(lia)). lia. }
  set (j := if ((2 * i + 1 + 1 <? n)%nat && Less h (2 * i + 1 + 1) (2 * i + 1))%bool
            then (2 * i + 1 + 1)%nat else (2 * i + 1)%nat).
  assert ((j = 2 * i + 1 ∧
           ((2 * i + 2 < n)%nat -> Less h (2 * i + 2) (2 * i + 1) = false)) ∨
          (j = 2 * i + 2 ∧ (2 * i + 2 < n) ∧
           Less h (2 * i + 2) (2 * i + 1) = true))%nat as Hj.
  { unfold j. replace (2 * i + 1 + 1)%nat with (2 * i + 2)%nat by lia.
    destruct (Nat.ltb_spec (2 * i + 2) n) as [Hlt2 | Hge2]; cbn [andb].
    - destruct (Less h (2 * i + 2) (2 * i + 1)) eqn:Hl; [right | left];
        [split; [| split]; (done || lia) | by split].
    - left. split; [done | lia]. }
  clearbody j.
  assert (∀ k, (0 < k < n)%nat -> ((k - 1) / 2)%nat = i -> k ≠ j ->
               Less h k j = false) as Hsib.
  { intros k Hk Hpk Hkj. pose proof (parent_spec k ltac:(lia)) as Hs.
    rewrite Hpk in Hs.
    destruct Hj as [[-> Hj] | (-> & Hlt2 & Hj)].
    - assert (k = 2 * i + 2)%nat as -> by lia. apply Hj. lia.
    - assert (k = 2 * i + 1)%nat as -> by lia. by apply Less_asym. }
  assert (j < n ∧ ((j - 1) / 2)%nat = i)%nat as [Hjn Hpj].
  { destruct Hj as [[-> _] | (-> & ? & _)]; (split; [lia |]).
    - replace (2 * i + 1 - 1)%nat with (i * 2)%nat by lia. by rewrite Nat.div_mul.
    - replace (2 * i + 2 - 1)%nat with (1 + i * 2)%nat by lia.
      rewrite Nat.div_add by done. done. }
  assert (i < j)%nat as Hij by (destruct Hj as [[-> _] | (-> & _)]; lia).
  clear Hj.
  destruct (Less h j i) eqn:Hless; cbn [negb].
  2:{ intros k Hk. destruct (decide (((k - 1) / 2)%nat = i)) as [Hpk | Hpk]; [| by apply H1].
      rewrite Hpk. destruct (decide (k = j)) as [-> | Hkj]; [done |].
      apply (Less_negtrans h Hord k j i); [lia | by apply Hsib | done]. }
  apply IH.
  - eapply LessOrders_Permutation; [symmetry; apply Swap_Permutation | done].
  - by rewrite Swap_length.
  - done.
  - lia.
  - intros k Hk Hpk. pose proof (parent_spec k ltac:(lia)) as Hs.
    rewrite Less_Swap by lia. unfold transpose.
    destruct (decide (k = j)) as [-> | Hkj].
    + rewrite Hpj. rewrite decide_False by lia. rewrite decide_True by done.
      by apply Less_asym.
    + rewrite (decide_False (P := ((k - 1) / 2)%nat = j)) by done.
      destruct (decide (k = i)) as [-> | Hki].
      * rewrite decide_False by lia. apply H2; [lia | lia | done].
      * destruct (decide (((k - 1) / 2)%nat = i)) as [Hpki | Hpki].
        -- by apply Hsib.
        -- by apply H1.
  - intros k Hk Hj0 Hpk. pose proof (parent_spec k ltac:(lia)) as Hs.
    rewrite Less_Swap by lia. unfold transpose. rewrite Hpj.
    rewrite (decide_False (P := k = j)) by lia.
    rewrite (decide_False (P := k = i)) by lia.
    rewrite (decide_False (P := i = j)) by lia.
    rewrite decide_True by done.
    rewrite <- Hpk. apply H1; [done | lia].
Qed.

(** heap.down on the first [n] elements leaves the others in place. *)
Lemma down_loop_above (fuel : nat) (h : list Evaluation) (i n k : nat) :
  (n <= length h)%nat -> (i < n)%nat -> (n <= k)%nat ->
  down_loop fuel h i n !! k = h !! k.
Proof.
  revert h i. induction fuel as [| fuel IH]; intros h i Hn Hi Hk; [done |].
  cbn [down_loop]. cbv zeta.
  destruct (Nat.leb_spec n (2 * i + 1)) as [Hle | Hlt]; [done |].
  set (j := if ((2 * i + 1 + 1 <? n)%nat && Less h (2 * i + 1 + 1) (2 * i + 1))%bool
            then (2 * i + 1 + 1)%nat else (2 * i + 1)%nat).
  assert (i < j < n)%nat as Hj.
  { unfold j. destruct (Nat.ltb_spec (2 * i + 1 + 1) n); simpl; [| lia].
    destruct (Less _ _ _); lia. }
  clearbody j. destruct (negb _); [done |].
  rewrite IH; [| by rewrite Swap_length | lia | done].
  rewrite Swap_lookup by lia. unfold transpose.
  rewrite !decide_False by lia. done.
Qed.

Lemma LessOrders_cons (x : Evaluation) (l : list Evaluation) :
  LessOrders (x :: l) -> LessOrders l.
Proof. intros Ho a b c Ha Hb Hc. apply Ho; by right. Qed.

Lemma heapOrdered_nil : heapOrdered [] 0.
Proof. intros k Hk. lia. Qed.

Lemma heap_Push_length (h : list Evaluation) (x : Evaluation) :
  length (heap_Push h x) = S (length h).
Proof. by rewrite (Permutation_length (heap_Push_Permutation h x)). Qed.

Lemma heap_Push_heap (h : list Evaluation) (x : Evaluation) :
  LessOrders (x :: h) -> heapOrdered h (length h) ->
  heapOrdered (heap_Push h x) (length (heap_Push h x)).
Proof.
  intros Hord Hh. rewrite heap_Push_length. unfold heap_Push, up.
  replace (S (length h)) with (length (h ++ [x])) at 2
    by (rewrite length_app; simpl; lia).
  apply up_loop_heap.
  - eapply LessOrders_Permutation; [| done]. by rewrite Permutation_app_comm.
  - rewrite length_app. change (length [x]) with 1%nat. lia.
  - lia.
  - rewrite length_app. change (length [x]) with 1%nat. intros k Hk Hne.
    pose proof (parent_spec k ltac:(lia)) as Hp.
    unfold Less. rewrite !lookup_app_l by lia. apply Hh. lia.
  - rewrite length_app. change (length [x]) with 1%nat. intros k Hk _ Hpk.
    pose proof (parent_spec k ltac:(lia)) as Hp. lia.
Qed.

Lemma heap_Pop_heap (h h' : list Evaluation) (e : Evaluation) :
  LessOrders h -> heapOrdered h (length h) -> heap_Pop h = Some (e, h') ->
  h !! 0%nat = Some e ∧ heapOrdered h' (length h') ∧
  ∀ y, y ∈ h -> LessEval y e = false.
Proof.
  intros Hord Hh Hpop.
  assert (h !! 0%nat = Some e ∧ ∀ k, (k < length h')%nat ->
            h' !! k = down (Swap h 0 (length h')) 0 (length h') !! k) as [H0 Hk'].
  { revert Hpop. unfold heap_Pop. destruct (length h) as [| n] eqn:Hn; [done |].
    set (h1 := down (Swap h 0 n) 0 n).
    assert (length h1 = S n) as Hl1.
    { unfold h1, down. rewrite (Permutation_length (down_loop_Permutation _ _ _ _)).
      by rewrite Swap_length. }
    destruct (h1 !! n) as [x |] eqn:Hx; [| done]. intros [= <- <-].
    assert (length (take n h1) = n) as Hlt by (rewrite length_take; lia).
    rewrite Hlt. split.
    - rewrite <- Hx. unfold h1, down. destruct n as [| n].
      { cbn [down_loop]. by rewrite Swap_lookup by lia. }
      rewrite down_loop_above; [| rewrite Swap_length; lia | lia | done].
      rewrite Swap_lookup by lia. unfold transpose. by rewrite decide_True.
    - intros k Hk. by rewrite lookup_take_lt. }
  split; [done |]. split.
  - set (n := length h') in *.
    assert (length h = S n) as Hn.
    { apply heap_Pop_Permutation in Hpop. by rewrite (Permutation_length Hpop). }
    assert (heapOrdered (down (Swap h 0 n) 0 n) n) as Hd.
    { destruct n as [| n]; [intros k Hk; lia |].
      unfold down. apply down_loop_heap.
      - eapply LessOrders_Permutation; [symmetry; apply Swap_Permutation | done].
      - rewrite Swap_length. lia.
      - lia.
      - lia.
      - intros k Hk Hpk. pose proof (parent_spec k ltac:(lia)) as Hp.
        rewrite Less_Swap by lia. unfold transpose.
        rewrite !decide_False by lia. apply Hh. lia.
      - intros k Hk Hlt. lia. }
    intros k Hk. pose proof (parent_spec k ltac:(lia)) as Hp.
    unfold Less. rewrite !Hk' by lia. apply Hd. done.
  - intros y Hy. apply list_elem_of_lookup in Hy as [k Hk].
    pose proof (lookup_lt_Some _ _ _ Hk) as Hlt.
    pose proof (heapOrdered_root h Hord (length h) k ltac:(lia) Hh Hlt) as Hr.
    unfold Less in Hr. by rewrite Hk, H0 in Hr.
Qed.

Lemma LessEval_false (a b : Evaluation) :
  LessEval a b = false <->
  ¬ ((JobID a ≠ JobID b ∧ Priority a ≠ Priority b ∧ Priority a > Priority b) ∨
     ((JobID a = JobID b ∨ Priority a = Priority b) ∧ CreateIndex a < CreateIndex b)).
Proof. rewrite <- LessEval_spec. by destruct (LessEval a b). Qed.

(** Among evaluations of pairwise different jobs Less is the order by
    descending priority, then ascending create index. *)
Lemma LessOrders_distinct_jobs (l : list Evaluation) :
  NoDup (JobID <$> l) -> LessOrders l.
Proof.
  intros Hnd.
  assert (∀ a b, a ∈ l -> b ∈ l -> a = b ∨ JobID a ≠ JobID b) as Hapart.
  { intros a b Ha Hb. apply list_elem_of_lookup in Ha as [i Hi].
    apply list_elem_of_lookup in Hb as [j Hj].
    destruct (decide (JobID a = JobID b)) as [Heq | Hne]; [left | by right].
    assert (i = j) as ->; [| congruence].
    apply (NoDup_lookup (JobID <$> l) i j (JobID a)); [done | |].
    - by rewrite list_lookup_fmap, Hi.
    - by rewrite list_lookup_fmap, Hj, Heq. }
  assert (∀ a b, a ∈ l -> b ∈ l ->
            JobID a ≠ JobID b ∨
            (Priority a = Priority b ∧ CreateIndex a = CreateIndex b)) as Hfields.
  { intros a b Ha Hb. destruct (Hapart a b Ha Hb) as [-> | Hne]; [by right | by left]. }
  intros a b c Ha Hb Hc.
  pose proof (Hfields a b Ha Hb) as Hab. pose proof (Hfields b c Hb Hc) as Hbc.
  pose proof (Hfields a c Ha Hc) as Hac.
  rewrite !LessEval_false, !LessEval_spec. split; intuition lia.
Qed.

(** Among evaluations of one job Less is the order by create index. *)
Lemma LessOrders_one_job (l : list Evaluation) (j : string) :
  (∀ e, e ∈ l -> JobID e = j) -> LessOrders l.
Proof.
  intros Hj a b c Ha Hb Hc.
  assert (JobID a = JobID b) by (rewrite (Hj a Ha), (Hj b Hb); done).
  assert (JobID b = JobID c) by (rewrite (Hj b Hb), (Hj c Hc); done).
  assert (JobID a = JobID c) by congruence.
  rewrite !LessEval_false, !LessEval_spec. split; intuition lia.
Qed.

(** X20: container/heap keeps the heap order of a queue on which Less is an
    order (transitive, with a transitive negation).  If no element of [h]
    is Less than its parent, the same holds after heap.Push of [x], and
    heap.Pop takes the root [h[0]], leaves a queue in heap order, and no
    element of [h] is Less than the one it took. *)
Theorem heap_order_kept (h : list Evaluation) (x : Evaluation) :
  LessOrders (x :: h) -> heapOrdered h (length h) ->
  heapOrdered (heap_Push h x) (length (heap_Push h x)) ∧
  ∀ e h', heap_Pop h = Some (e, h') ->
    h !! 0%nat = Some e ∧ heapOrdered h' (length h') ∧
    ∀ y, y ∈ h -> LessEval y e = false.
Proof.
  intros Hord Hh. split; [by apply heap_Push_heap |].
  intros e h' Hpop. apply heap_Pop_heap; [by apply (LessOrders_cons x) | done | done].
Qed.

Lemma heap_order_kept_witness :
  heapOrdered (heap_Push [evalP50; evalP10] evalP30)
    (length (heap_Push [evalP50; evalP10] evalP30)).
Proof.
  apply (heap_order_kept [evalP50; evalP10] evalP30).
  - apply LessOrders_distinct_jobs. apply (bool_decide_unpack (NoDup _)). reflexivity.
  - intros k Hk. simpl in Hk. assert (k = 1%nat) as -> by lia. reflexivity.
Defined.

(** What heap.Pop takes from a queue of pairwise different jobs. *)
Lemma heap_Pop_greatest (h h' : list Evaluation) (e : Evaluation) :
  NoDup (JobID <$> h) -> heapOrdered h (length h) -> heap_Pop h = Some (e, h') ->
  h !! 0%nat = Some e ∧
  ∀ y, y ∈ h -> Priority y <= Priority e ∧
                (Priority y = Priority e -> CreateIndex e <= CreateIndex y).
Proof.
  intros Hnd Hh Hpop.
  destruct (heap_Pop_heap h h' e (LessOrders_distinct_jobs h Hnd) Hh Hpop)
    as (H0 & _ & Hmin).
  split; [done |]. intros y Hy.
  specialize (Hmin y Hy). apply LessEval_false in Hmin.
  apply list_elem_of_lookup in Hy as [i Hi].
  destruct (decide (JobID y = JobID e)) as [Heq | Hne].
  2:{ assert (¬ (Priority y ≠ Priority e ∧ Priority y > Priority e)) as Hp.
      { intros [Hp1 Hp2]. apply Hmin. by left. }
      assert (¬ (Priority y = Priority e ∧ CreateIndex y < CreateIndex e)) as Hc.
      { intros [Hc1 Hc2]. apply Hmin. right. split; [by right | done]. }
      lia. }
  assert (i = 0%nat) as ->; [| rewrite H0 in Hi; injection Hi as <-; lia].
  apply (NoDup_lookup (JobID <$> h) i 0 (JobID y)); [done | |].
  - by rewrite list_lookup_fmap, Hi.
  - by rewrite list_lookup_fmap, H0, Heq.
Qed.

(** X21: what heap.Pop takes from a queue in heap order.  If the
    evaluations of the queue belong to pairwise different jobs (by JobID),
    it takes one of greatest priority, and among those of greatest priority
    one of least create index; if they all have the JobID of the one taken,
    it takes one of least create index. *)
Theorem Pop_takes_highest_priority (h h' : list Evaluation) (e : Evaluation) :
  heapOrdered h (length h) -> heap_Pop h = Some (e, h') ->
  (NoDup (JobID <$> h) ->
   ∀ y, y ∈ h -> Priority y <= Priority e ∧
                 (Priority y = Priority e -> CreateIndex e <= CreateIndex y)) ∧
  ((∀ y, y ∈ h -> JobID y = JobID e) ->
   ∀ y, y ∈ h -> CreateIndex e <= CreateIndex y).
Proof.
  intros Hh Hpop. split.
  - intros Hnd. by apply (heap_Pop_greatest h h' e).
  - intros Hjob y Hy.
    destruct (heap_Pop_heap h h' e (LessOrders_one_job h (JobID e) Hjob) Hh Hpop)
      as (_ & _ & Hmin).
    specialize (Hmin y Hy). apply LessEval_false in Hmin.
    assert (¬ (CreateIndex y < CreateIndex e)) as Hc; [| lia].
    intros Hc. apply Hmin. right. split; [left; by apply Hjob | done].
Qed.

Lemma Pop_takes_highest_priority_witness :
  Priority evalP30 <= Priority evalP50 ∧
  (Priority evalP30 = Priority evalP50 -> CreateIndex evalP50 <= CreateIndex evalP30).
Proof.
  refine (proj1 (Pop_takes_highest_priority [evalP50; evalP10; evalP30]
                   [evalP30; evalP10] evalP50 _ _) _ evalP30 _).
  - intros k Hk. simpl in Hk.
    destruct k as [| [| [| k]]]; [lia | reflexivity | reflexivity | lia].
  - vm_compute. reflexivity.
  - apply (bool_decide_unpack (NoDup _)). reflexivity.
  - right. right. left.
Defined.

(** ** The blocked queues along a run *)

Lemma BlockedHeaps_same (b b' : EvalBroker) :
  blocked b' = blocked b -> BlockedHeaps b -> BlockedHeaps b'.
Proof. intros Heq Hb k l. rewrite Heq. apply Hb. Qed.

Lemma LessOrders_job_key (l : list Evaluation) (k : string * string) :
  (∀ e, e ∈ l -> namespacedID e = k) -> LessOrders l.
Proof.
  intros Hk. apply (LessOrders_one_job l (fst k)).
  intros e He. by rewrite <- (Hk e He).
Qed.

Lemma enqueueLocked_bheaps (b : EvalBroker) (e : Evaluation) (q : string) :
  BlockedHeaps b -> BlockedHeaps (enqueueLocked b e q).
Proof.
  intros Hb. unfold enqueueLocked. destruct (negb (enabled b)); [done |].
  destruct (String.eqb _ ""); [by apply (BlockedHeaps_same b) |].
  destruct (negb _); [| by apply (BlockedHeaps_same b)].
  intros k l. simpl. rewrite lookup_insert. case_decide as Hk; [| apply Hb].
  intros [= <-]. subst k.
  assert (heapOrdered (default [] (blocked b !! namespacedID e))
            (length (default [] (blocked b !! namespacedID e))) ∧
          ∀ y, y ∈ default [] (blocked b !! namespacedID e) ->
               namespacedID y = namespacedID e) as [Hh Hkey].
  { destruct (blocked b !! namespacedID e) as [blk |] eqn:Hblk; simpl.
    - by apply Hb.
    - split; [apply heapOrdered_nil | intros y Hy; by apply elem_of_nil in Hy]. }
  assert (∀ y, y ∈ heap_Push (default [] (blocked b !! namespacedID e)) e ->
               namespacedID y = namespacedID e) as Hkey'.
  { intros y. rewrite heap_Push_Permutation. intros [-> | Hy]%elem_of_cons; auto. }
  split; [| done]. apply heap_Push_heap; [| done].
  apply (LessOrders_job_key _ (namespacedID e)).
  intros y [-> | Hy]%elem_of_cons; auto.
Qed.

Lemma processEnqueue_bheaps (b : EvalBroker) (e : Evaluation) (token : string) :
  BlockedHeaps b -> BlockedHeaps (processEnqueue b e token).
Proof.
  intros Hb. unfold processEnqueue. destruct (negb (enabled b)); [done |].
  destruct (evals b !! ID e).
  - destruct (String.eqb token ""); [done |].
    destruct (unack b !! ID e) as [u |]; [| done].
    by destruct (String.eqb (Token u) token).
  - destruct (Z.ltb 0 (Wait e)); [done |].
    destruct (negb (Z.eqb (WaitUntil e) 0)); [done |].
    by apply enqueueLocked_bheaps.
Qed.

Lemma ackUnblock_bheaps (b b' : EvalBroker) (k : string * string) :
  BlockedHeaps b -> ackUnblock b k = Some b' -> BlockedHeaps b'.
Proof.
  intros Hb. unfold ackUnblock.
  destruct (blocked b !! k) as [blk |] eqn:Hblk; [| by intros [= <-]].
  destruct blk as [| x0 blk0]; [by intros [= <-] |].
  destruct (heap_Pop _) as [[e blk'] |] eqn:Hpop; [| done]. intros [= <-].
  apply enqueueLocked_bheaps.
  destruct (Hb k _ Hblk) as [Hh Hkey].
  destruct (heap_Pop_heap _ _ _ (LessOrders_job_key _ k Hkey) Hh Hpop) as (_ & Hh' & _).
  pose proof (heap_Pop_Permutation _ _ _ Hpop) as Hperm.
  intros k' l. simpl. destruct (0 <? length blk')%nat.
  - rewrite lookup_insert. case_decide as Hk; [| apply Hb].
    intros [= <-]. subst k'. split; [done |]. intros y Hy. apply Hkey.
    rewrite Hperm. by right.
  - rewrite lookup_delete. case_decide as Hk; [done | apply Hb].
Qed.

Lemma step_bheaps (b b' : EvalBroker) (o : op) :
  BlockedHeaps b -> step b o = Some b' -> BlockedHeaps b'.
Proof.
  intros Hb. destruct o; simpl.
  - intros [= <-]. by apply processEnqueue_bheaps.
  - intros [= <-]. unfold EnqueueAll. revert b Hb.
    induction evs as [| p evs IH]; intros b Hb; simpl; [done |].
    apply IH. by apply processEnqueue_bheaps.
  - unfold scanForSchedulers. destruct (negb (enabled b)); [by intros [= <-] |].
    assert (∀ s, outcome_state (dequeueForSched b s token) = Some b' ->
                 BlockedHeaps b') as Hd.
    { intros s. unfold dequeueForSched.
      destruct (heap_Pop _) as [[e pending] |]; [| done].
      destruct (ByScheduler _ !! _); [| done]. by intros [= <-]. }
    destruct (fst (eligible b schedulers)) as [| s [| s' ss]];
      [by intros [= <-] | apply Hd |].
    destruct (_ !! _); [apply Hd | done].
  - intros [= <-].
    destruct (waitForSchedulers_waiting b schedulers) as (-> & _). done.
  - unfold Ack. destruct (unack b !! evalID) as [u |]; [| by intros [= <-]].
    destruct (negb _); [by intros [= <-] |].
    destruct (negb _); [by intros [= <-] |].
    destruct (ByScheduler _ !! _) as [bySched |]; [| done].
    set (b1 := ackCleanup _ _ _ _ _).
    assert (BlockedHeaps b1) as Hb1 by done.
    destruct (ackUnblock _ _) as [b2 |] eqn:Hub; [| done]. simpl. intros [= <-].
    pose proof (ackUnblock_bheaps _ _ _ Hb1 Hub) as Hb2.
    apply (BlockedHeaps_same (ackRequeue b2 token)); [done |].
    unfold ackRequeue. destruct (requeue b2 !! token); [| done].
    by apply processEnqueue_bheaps.
  - unfold Nack. simpl. destruct (unack b !! evalID) as [u |]; [| by intros [= <-]].
    destruct (negb _); [by intros [= <-] |].
    destruct (ByScheduler _ !! _) as [bySched |]; [| done]. simpl. intros [= <-].
    unfold nackReenqueue. destruct (Z.leb _ _).
    + by apply enqueueLocked_bheaps.
    + destruct (Z.ltb 0 _); [done |]. by apply enqueueLocked_bheaps.
  - unfold OutstandingReset. destruct (unack b !! evalID) as [u |]; [| by intros [= <-]].
    destruct (negb _); [by intros [= <-] |]. by destruct (negb _); intros [= <-].
  - unfold PauseNackTimeout. destruct (unack b !! evalID) as [u |]; [| by intros [= <-]].
    destruct (negb _); [by intros [= <-] |]. by destruct (negb _); intros [= <-].
  - unfold ResumeNackTimeout.
    destruct (unack b !! evalID) as [u |]; [| by intros [= <-]].
    by destruct (negb _); intros [= <-].
  - intros [= <-]. unfold nackTimerExpire. destruct (unack b !! evalID) as [u |]; [| done].
    by destruct (NackTimer u).
  - destruct (timeWait b !! evalID) as [e |]; intros [= <-]; [| done].
    unfold enqueueWaiting. by apply enqueueLocked_bheaps.
  - destruct (find _ _) as [p |]; intros [= <-]; [| done].
    unfold delayedEvalFire. by apply enqueueLocked_bheaps.
Qed.

Lemma run_bheaps (ops : list op) (b b' : EvalBroker) :
  BlockedHeaps b -> run b ops = Some b' -> BlockedHeaps b'.
Proof.
  revert b. induction ops as [| o ops IH]; intros b Hb; simpl; [by intros [= <-] |].
  destruct (step b o) as [b1 |] eqn:Hstep; [| done].
  apply IH. by apply (step_bheaps b b1 o).
Qed.

Lemma reachable_bheaps (limit : Z) (b : EvalBroker) :
  reachable limit b -> BlockedHeaps b.
Proof.
  intros (timeout & initial & subsequent & b0 & ops & Hstart & _ & Hrun).
  apply (run_bheaps ops b0); [| done].
  revert Hstart. unfold startBroker, NewEvalBroker.
  destruct (Z.ltb timeout 0); [done |]. intros [= <-]. intros k l. simpl.
  by rewrite lookup_empty.
Qed.

(** X22: the blocked evaluations of a job are admitted in the order of
    their create index.  In every state reached with non-empty ids each
    blocked queue is in heap order, and an Ack that succeeds for an
    evaluation whose job has blocked evaluations puts the one with the
    least create index among them on the ready queue of its class and
    makes it the representative of the job. *)
Theorem Ack_unblocks_lowest_create_index (limit : Z) (b b' : EvalBroker)
    (evalID token : string) (u : unackEval) (blk : list Evaluation) :
  reachable limit b ->
  unack b !! evalID = Some u ->
  blocked b !! namespacedID (Eval u) = Some blk -> blk ≠ [] ->
  Ack b evalID token = Ok b' tt ->
  heapOrdered blk (length blk) ∧
  ∃ e, blk !! 0%nat = Some e ∧
       (∀ y, y ∈ blk -> CreateIndex e <= CreateIndex y) ∧
       onReady b' (EvalType e) e ∧
       jobEvals b' !! namespacedID (Eval u) = Some (ID e).
Proof.
  intros Hr Hu Hblk Hne Hack.
  destruct (reachable_inv limit b Hr) as [Hinv _].
  destruct (reachable_bheaps limit b Hr _ _ Hblk) as [Hh Hkey].
  split; [done |].
  assert (Token u = token ∧ NackTimer u = true ∧
          is_Some (ByScheduler (stats b) !! ackQueue b evalID u)) as (Htok & Htimer & Hby).
  { revert Hack. unfold Ack. rewrite Hu.
    destruct (String.eqb_spec (Token u) token); [| done]. simpl.
    destruct (NackTimer u); [| done]. simpl.
    destruct (ByScheduler _ !! _); [| done]. by eauto. }
  destruct (Ack_promotes b evalID token u blk Hinv Hu Htok Htimer Hby Hblk Hne)
    as (b'' & e & blk' & Hack' & Hpop & Hrdy & Hjob).
  rewrite Hack in Hack'. injection Hack' as <-.
  destruct (heap_Pop_heap blk blk' e (LessOrders_job_key blk _ Hkey) Hh Hpop)
    as (H0 & _ & Hmin).
  exists e. split; [done |]. split; [| done].
  intros y Hy. specialize (Hmin y Hy). apply LessEval_false in Hmin.
  assert (¬ (CreateIndex y < CreateIndex e)) as Hc; [| lia].
  intros Hc. apply Hmin. right. split; [| done]. left.
  apply list_elem_of_lookup_2 in H0.
  pose proof (Hkey y Hy) as Hky. pose proof (Hkey e H0) as Hke.
  unfold namespacedID in *. congruence.
Qed.

Lemma Ack_unblocks_lowest_create_index_witness :
  ∃ e, [evalA51; evalA52] !! 0%nat = Some e ∧
       (∀ y, y ∈ [evalA51; evalA52] -> CreateIndex e <= CreateIndex y) ∧
       onReady (demoBroker 3 (blockedOps ++ [OpAck "x" "t1"])) (EvalType e) e ∧
       jobEvals (demoBroker 3 (blockedOps ++ [OpAck "x" "t1"])) !!
         namespacedID evalX = Some (ID e).
Proof.
  apply (proj2 (Ack_unblocks_lowest_create_index 3 (demoBroker 3 blockedOps)
                  (demoBroker 3 (blockedOps ++ [OpAck "x" "t1"]))
                  "x" "t1" (mkUnack evalX "t1" true) [evalA51; evalA52]
                  (reachable_demo 3 blockedOps eq_refl ltac:(vm_compute; reflexivity))
                  ltac:(vm_compute; reflexivity) ltac:(vm_compute; reflexivity)
                  ltac:(discriminate) ltac:(vm_compute; reflexivity))).
Defined.

(** ** What the broker holds along a run *)

Section holds.
Variable P : Evaluation -> Prop.
Hypothesis P_setWait : ∀ e w, P e -> P (setWait e w).

Lemma enqueueReady_holds (b : EvalBroker) (e : Evaluation) (q : string) :
  Holds P b -> P e -> Holds P (enqueueReady b e q).
Proof.
  intros Hb He. split; simpl; try apply Hb.
  intros q' l x. rewrite lookup_insert. case_decide as Hq; [| apply Hb].
  intros [= <-]. rewrite heap_Push_Permutation. intros [-> | Hx]%elem_of_cons; [done |].
  destruct (ready b !! q) as [l |] eqn:Hl; simpl in Hx.
  - by apply (holds_ready P b Hb q l).
  - by apply elem_of_nil in Hx.
Qed.

Lemma enqueueLocked_holds (b : EvalBroker) (e : Evaluation) (q : string) :
  Holds P b -> P e -> Holds P (enqueueLocked b e q).
Proof.
  intros Hb He. unfold enqueueLocked. destruct (negb (enabled b)); [done |].
  destruct (String.eqb _ "").
  { apply enqueueReady_holds; [| done]. split; simpl; apply Hb. }
  destruct (negb _); [| by apply enqueueReady_holds].
  split; simpl; try apply Hb.
  intros k l x. rewrite lookup_insert. case_decide as Hk; [| apply Hb].
  intros [= <-]. rewrite heap_Push_Permutation. intros [-> | Hx]%elem_of_cons; [done |].
  destruct (blocked b !! namespacedID e) as [l |] eqn:Hl; simpl in Hx.
  - by apply (holds_blocked P b Hb (namespacedID e) l).
  - by apply elem_of_nil in Hx.
Qed.

Lemma processWaitingEnqueue_holds (b : EvalBroker) (e : Evaluation) :
  Holds P b -> P e -> Holds P (processWaitingEnqueue b e).
Proof.
  intros Hb He. split; simpl; try apply Hb.
  intros i x. rewrite lookup_insert. case_decide as Hi; [| apply Hb]. by intros [= <-].
Qed.

Lemma processEnqueue_holds (b : EvalBroker) (e : Evaluation) (token : string) :
  Holds P b -> P e -> Holds P (processEnqueue b e token).
Proof.
  intros Hb He. unfold processEnqueue. destruct (negb (enabled b)); [done |].
  destruct (evals b !! ID e).
  - destruct (String.eqb token ""); [done |].
    destruct (unack b !! ID e) as [u |]; [| done].
    destruct (String.eqb (Token u) token); [| done].
    split; simpl; try apply Hb.
    intros t x. rewrite lookup_insert. case_decide as Ht; [| apply Hb]. by intros [= <-].
  - assert (Holds P (with_evals b (<[ID e:=0]> (evals b)))) as Hb1.
    { split; simpl; apply Hb. }
    destruct (Z.ltb 0 (Wait e)); [by apply processWaitingEnqueue_holds |].
    destruct (negb (Z.eqb (WaitUntil e) 0)); [| by apply enqueueLocked_holds].
    split; simpl; try apply Hb.
    intros p [-> | Hp]%elem_of_cons; [done | by apply Hb].
Qed.

Lemma EnqueueAll_holds (evs : list (Evaluation * string)) (b : EvalBroker) :
  Holds P b -> (∀ e, e ∈ evs.*1 -> P e) -> Holds P (EnqueueAll b evs).
Proof.
  unfold EnqueueAll. revert b. induction evs as [| p evs IH]; intros b Hb He; [done |].
  simpl. apply IH.
  - apply processEnqueue_holds; [done |]. apply He. by left.
  - intros e Hin. apply He. by right.
Qed.

Lemma dequeueForSched_holds (b b' : EvalBroker) (sched token : string) :
  Holds P b -> outcome_state (dequeueForSched b sched token) = Some b' -> Holds P b'.
Proof.
  intros Hb. unfold dequeueForSched.
  destruct (heap_Pop _) as [[e pending] |] eqn:Hpop; [| done].
  destruct (ByScheduler _ !! _); [| done]. simpl. intros [= <-].
  pose proof (heap_Pop_Permutation _ _ _ Hpop) as Hperm.
  assert (∀ x, x ∈ e :: pending -> P x) as Hall.
  { intros x. rewrite <- Hperm. destruct (ready b !! sched) as [l |] eqn:Hl; simpl.
    - by apply (holds_ready P b Hb sched l).
    - intros Hx. by apply elem_of_nil in Hx. }
  split; simpl; try apply Hb.
  - intros q l x. rewrite lookup_insert. case_decide as Hq; [| apply Hb].
    intros [= <-] Hx. apply Hall. by right.
  - intros i u. rewrite lookup_insert. case_decide as Hi; [| apply Hb].
    intros [= <-]. simpl. apply Hall. by left.
Qed.

Lemma scanForSchedulers_holds (b b' : EvalBroker) (schedulers : list string) (rnd : nat)
    (token : string) :
  Holds P b ->
  outcome_state (scanForSchedulers b schedulers rnd token) = Some b' -> Holds P b'.
Proof.
  intros Hb. unfold scanForSchedulers. destruct (negb (enabled b)); [by intros [= <-] |].
  destruct (fst (eligible b schedulers)) as [| s [| s' ss]];
    [by intros [= <-] | by apply dequeueForSched_holds |].
  destruct (_ !! _); [by apply dequeueForSched_holds | done].
Qed.

Lemma clearRequeue_holds (b : EvalBroker) (token : string) :
  Holds P b -> Holds P (clearRequeue b token).
Proof.
  intros Hb. split; simpl; try apply Hb.
  intros t x Ht. apply lookup_delete_Some in Ht as [_ Ht]. by apply (holds_requeue P b Hb t).
Qed.

Lemma ackUnblock_holds (b b' : EvalBroker) (k : string * string) :
  Holds P b -> ackUnblock b k = Some b' -> Holds P b'.
Proof.
  intros Hb. unfold ackUnblock.
  destruct (blocked b !! k) as [blk |] eqn:Hblk; [| by intros [= <-]].
  destruct blk as [| x0 blk0]; [by intros [= <-] |].
  destruct (heap_Pop _) as [[e blk'] |] eqn:Hpop; [| done]. intros [= <-].
  pose proof (heap_Pop_Permutation _ _ _ Hpop) as Hperm.
  assert (∀ x, x ∈ e :: blk' -> P x) as Hall.
  { intros x. rewrite <- Hperm. by apply (holds_blocked P b Hb k). }
  apply enqueueLocked_holds; [| apply Hall; by left].
  split; simpl; try apply Hb.
  intros k' l x. destruct (0 <? length blk')%nat.
  - rewrite lookup_insert. case_decide as Hk; [| apply Hb].
    intros [= <-] Hx. apply Hall. by right.
  - intros Hl. apply lookup_delete_Some in Hl as [_ Hl]. by apply (holds_blocked P b Hb k').
Qed.

Lemma unackDelete_holds (b : EvalBroker) (i : string) (s : BrokerStats) :
  Holds P b -> Holds P (with_stats (with_unack b (delete i (unack b))) s).
Proof.
  intros Hb. split; simpl; try apply Hb.
  intros j u Hj. apply lookup_delete_Some in Hj as [_ Hj]. by apply (holds_unack P b Hb j).
Qed.

Lemma Ack_holds (b b' : EvalBroker) (evalID token : string) :
  Holds P b -> outcome_state (Ack b evalID token) = Some b' -> Holds P b'.
Proof.
  intros Hb. unfold Ack.
  destruct (unack b !! evalID) as [u |]; [| intros [= <-]; by apply clearRequeue_holds].
  destruct (negb _); [intros [= <-]; by apply clearRequeue_holds |].
  destruct (negb _); [intros [= <-]; by apply clearRequeue_holds |].
  destruct (ByScheduler _ !! _) as [bySched |]; [| done].
  set (b1 := ackCleanup _ _ _ _ _).
  assert (Holds P b1) as Hb1.
  { split; simpl; try apply Hb.
    intros j v Hj. apply lookup_delete_Some in Hj as [_ Hj].
    by apply (holds_unack P b Hb j). }
  destruct (ackUnblock _ _) as [b2 |] eqn:Hub; [| done]. simpl. intros [= <-].
  pose proof (ackUnblock_holds _ _ _ Hb1 Hub) as Hb2.
  apply clearRequeue_holds. unfold ackRequeue.
  destruct (requeue b2 !! token) as [e |] eqn:He; [| done].
  apply processEnqueue_holds; [done |]. by apply (holds_requeue P b2 Hb2 token).
Qed.

Lemma Nack_holds (b b' : EvalBroker) (evalID token : string) :
  Holds P b -> outcome_state (Nack b evalID token) = Some b' -> Holds P b'.
Proof.
  intros Hb. unfold Nack. pose proof (clearRequeue_holds b token Hb) as Hb0.
  set (b0 := clearRequeue b token) in *.
  destruct (unack b0 !! evalID) as [u |] eqn:Hu; [| by intros [= <-]].
  destruct (negb _); [by intros [= <-] |].
  destruct (ByScheduler _ !! _) as [bySched |]; [| done]. simpl. intros [= <-].
  pose proof (holds_unack P b0 Hb0 evalID u Hu) as HPu.
  set (b1 := with_stats _ _).
  assert (Holds P b1) as Hb1 by apply (unackDelete_holds b0 evalID _ Hb0).
  unfold nackReenqueue. destruct (Z.leb _ _); [by apply enqueueLocked_holds |].
  destruct (Z.ltb 0 _).
  - apply processWaitingEnqueue_holds; [done |]. by apply P_setWait.
  - apply enqueueLocked_holds; [done |]. by apply P_setWait.
Qed.

Lemma setNackTimer_holds (b : EvalBroker) (i : string) (u : unackEval) (v : bool) :
  Holds P b -> unack b !! i = Some u -> Holds P (setNackTimer b i u v).
Proof.
  intros Hb Hu. split; simpl; try apply Hb.
  intros j w. rewrite lookup_insert. case_decide as Hj; [| apply Hb].
  intros [= <-]. simpl. by apply (holds_unack P b Hb i).
Qed.

Lemma step_holds (b b' : EvalBroker) (o : op) :
  Holds P b -> (∀ e, e ∈ opEvals o -> P e) -> step b o = Some b' -> Holds P b'.
Proof.
  intros Hb Ho. destruct o; simpl in *.
  - intros [= <-]. apply processEnqueue_holds; [done |]. apply Ho. by left.
  - intros [= <-]. by apply EnqueueAll_holds.
  - by apply scanForSchedulers_holds.
  - intros [= <-]. destruct (waitForSchedulers_waiting b schedulers) as (-> & _).
    split; simpl; apply Hb.
  - by apply Ack_holds.
  - by apply Nack_holds.
  - unfold OutstandingReset.
    destruct (unack b !! evalID) as [u |] eqn:Hu; simpl; [| by intros [= <-]].
    destruct (negb (String.eqb (Token u) token)); simpl; [by intros [= <-] |].
    destruct (negb (NackTimer u)); simpl; intros [= <-]; by apply setNackTimer_holds.
  - unfold PauseNackTimeout.
    destruct (unack b !! evalID) as [u |] eqn:Hu; simpl; [| by intros [= <-]].
    destruct (negb (String.eqb (Token u) token)); simpl; [by intros [= <-] |].
    destruct (negb (NackTimer u)); simpl; intros [= <-]; [done |].
    by apply setNackTimer_holds.
  - unfold ResumeNackTimeout.
    destruct (unack b !! evalID) as [u |] eqn:Hu; simpl; [| by intros [= <-]].
    destruct (negb (String.eqb (Token u) token)); simpl; intros [= <-]; [done |].
    by apply setNackTimer_holds.
  - intros [= <-]. unfold nackTimerExpire.
    destruct (unack b !! evalID) as [u |] eqn:Hu; [| done].
    destruct (NackTimer u); [| done]. by apply setNackTimer_holds.
  - destruct (timeWait b !! evalID) as [e |] eqn:Hw; intros [= <-]; [| done].
    unfold enqueueWaiting. apply enqueueLocked_holds; [| by apply (holds_wait P b Hb evalID)].
    split; simpl; try apply Hb.
    intros j x Hj. apply lookup_delete_Some in Hj as [_ Hj]. by apply (holds_wait P b Hb j).
  - destruct (find _ _) as [p |] eqn:Hfind; intros [= <-]; [| done].
    apply find_some in Hfind as [Hp _]. apply list_elem_of_In in Hp.
    unfold delayedEvalFire. apply enqueueLocked_holds; [| by apply (holds_delay P b Hb)].
    split; simpl; try apply Hb.
    intros x Hx. unfold delayHeap_Remove in Hx. apply list_elem_of_filter in Hx as [_ Hx].
    by apply (holds_delay P b Hb).
Qed.

End holds.

(** ** The ready queues along a run in one namespace *)

Lemma ReadyHeaps_same (b b' : EvalBroker) :
  ready b' = ready b -> ReadyHeaps b -> ReadyHeaps b'.
Proof. intros Heq Hb q l. rewrite Heq. apply Hb. Qed.

(** If Less orders the ready queues of [b'] it orders the smaller ready
    queues of [b]. *)
Lemma readyOrders_mono (b b' : EvalBroker) :
  (∀ q x, onReady b q x -> onReady b' q x) -> readyOrders b' -> readyOrders b.
Proof.
  intros Hmono Ho q l Hl a x c Ha Hx Hc.
  destruct (Hmono q a) as (l' & Hl' & Ha'); [by exists l |].
  destruct (Hmono q x) as (l1 & Hl1 & Hx'); [by exists l |].
  destruct (Hmono q c) as (l2 & Hl2 & Hc'); [by exists l |].
  rewrite Hl' in Hl1, Hl2. injection Hl1 as <-. injection Hl2 as <-.
  by apply (Ho q l' Hl').
Qed.

Lemma enqueueReady_rheaps (b : EvalBroker) (e : Evaluation) (q : string) :
  ReadyHeaps b -> readyOrders (enqueueReady b e q) -> ReadyHeaps (enqueueReady b e q).
Proof.
  intros Hb Ho q' l Hl. pose proof (Ho q' l Hl) as Hord. revert Hl Hord.
  unfold enqueueReady. simpl. rewrite lookup_insert.
  case_decide as Hq; [| intros; by apply (Hb q')].
  intros [= <-] Hord. apply heap_Push_heap.
  - eapply LessOrders_Permutation; [apply heap_Push_Permutation | done].
  - destruct (ready b !! q) as [l |] eqn:Hl; simpl; [by apply (Hb q) | apply heapOrdered_nil].
Qed.

Lemma enqueueLocked_rheaps (b : EvalBroker) (e : Evaluation) (q : string) :
  ReadyHeaps b -> readyOrders (enqueueLocked b e q) -> ReadyHeaps (enqueueLocked b e q).
Proof.
  intros Hb. unfold enqueueLocked. destruct (negb (enabled b)); [done |].
  destruct (String.eqb _ ""); [by apply enqueueReady_rheaps |].
  destruct (negb _); [done | by apply enqueueReady_rheaps].
Qed.

Lemma processEnqueue_rheaps (b : EvalBroker) (e : Evaluation) (token : string) :
  ReadyHeaps b -> readyOrders (processEnqueue b e token) ->
  ReadyHeaps (processEnqueue b e token).
Proof.
  intros Hb. unfold processEnqueue. destruct (negb (enabled b)); [done |].
  destruct (evals b !! ID e).
  - destruct (String.eqb token ""); [done |].
    destruct (unack b !! ID e) as [u |]; [| done].
    by destruct (String.eqb (Token u) token).
  - destruct (Z.ltb 0 (Wait e)); [done |].
    destruct (negb (Z.eqb (WaitUntil e) 0)); [done |].
    by apply enqueueLocked_rheaps.
Qed.

Lemma EnqueueAll_onReady_mono (evs : list (Evaluation * string)) (b : EvalBroker)
    (q : string) (x : Evaluation) :
  onReady b q x -> onReady (EnqueueAll b evs) q x.
Proof.
  unfold EnqueueAll. revert b. induction evs as [| p evs IH]; intros b Hx; [done |].
  simpl. apply IH. by apply processEnqueue_onReady_mono.
Qed.

Lemma EnqueueAll_rheaps (evs : list (Evaluation * string)) (b : EvalBroker) :
  ReadyHeaps b -> readyOrders (EnqueueAll b evs) -> ReadyHeaps (EnqueueAll b evs).
Proof.
  revert b. induction evs as [| p evs IH]; intros b Hb Ho; [done |].
  change (EnqueueAll b (p :: evs)) with (EnqueueAll (processEnqueue b p.1 p.2) evs) in *.
  apply IH; [| done]. apply processEnqueue_rheaps; [done |].
  apply (readyOrders_mono _ (EnqueueAll (processEnqueue b p.1 p.2) evs)); [| done].
  intros q x. apply EnqueueAll_onReady_mono.
Qed.

Lemma dequeueForSched_rheaps (b b' : EvalBroker) (sched token : string) :
  ReadyHeaps b -> readyOrders b ->
  outcome_state (dequeueForSched b sched token) = Some b' -> ReadyHeaps b'.
Proof.
  intros Hb Ho. unfold dequeueForSched.
  destruct (heap_Pop _) as [[e pending] |] eqn:Hpop; [| done].
  destruct (ByScheduler _ !! _); [| done]. simpl. intros [= <-].
  intros q l. simpl. rewrite lookup_insert. case_decide as Hq; [| apply Hb].
  intros [= <-]. destruct (ready b !! sched) as [l |] eqn:Hl; simpl in Hpop; [| done].
  by destruct (heap_Pop_heap l pending e (Ho sched l Hl) (Hb sched l Hl) Hpop) as (_ & ? & _).
Qed.

Lemma ackUnblock_rheaps (b b' : EvalBroker) (k : string * string) :
  ReadyHeaps b -> readyOrders b' -> ackUnblock b k = Some b' -> ReadyHeaps b'.
Proof.
  intros Hb Ho. unfold ackUnblock.
  destruct (blocked b !! k) as [blk |]; [| by intros [= <-]].
  destruct blk as [| x0 blk0]; [by intros [= <-] |].
  destruct (heap_Pop _) as [[e blk'] |]; [| done]. intros [= <-].
  by apply enqueueLocked_rheaps.
Qed.

Lemma step_rheaps (b b' : EvalBroker) (o : op) :
  ReadyHeaps b -> readyOrders b -> readyOrders b' -> step b o = Some b' ->
  ReadyHeaps b'.
Proof.
  intros Hb Ho Ho'. destruct o; simpl.
  - intros [= <-]. by apply processEnqueue_rheaps.
  - intros [= <-]. by apply EnqueueAll_rheaps.
  - unfold scanForSchedulers. destruct (negb (enabled b)); [by intros [= <-] |].
    destruct (fst (eligible b schedulers)) as [| s [| s' ss]];
      [by intros [= <-] | by apply dequeueForSched_rheaps |].
    destruct (_ !! _); [by apply dequeueForSched_rheaps | done].
  - intros [= <-].
    destruct (waitForSchedulers_waiting b schedulers) as (-> & _). done.
  - unfold Ack. destruct (unack b !! evalID) as [u |]; [| by intros [= <-]].
    destruct (negb _); [by intros [= <-] |].
    destruct (negb _); [by intros [= <-] |].
    destruct (ByScheduler _ !! _) as [bySched |]; [| done].
    set (b1 := ackCleanup _ _ _ _ _).
    assert (ReadyHeaps b1) as Hb1 by done.
    destruct (ackUnblock _ _) as [b2 |] eqn:Hub; [| done]. simpl. intros [= <-].
    assert (readyOrders (ackRequeue b2 token)) as Ho2 by done.
    apply (ReadyHeaps_same (ackRequeue b2 token)); [done |].
    assert (ReadyHeaps b2) as Hb2.
    { apply (ackUnblock_rheaps b1 b2 (namespacedID (Eval u)) Hb1); [| done].
      apply (readyOrders_mono _ (ackRequeue b2 token)); [| done].
      intros q x. unfold ackRequeue. destruct (requeue b2 !! token); [| done].
      apply processEnqueue_onReady_mono. }
    revert Ho2. unfold ackRequeue. destruct (requeue b2 !! token); [| done].
    by apply processEnqueue_rheaps.
  - unfold Nack. simpl. destruct (unack b !! evalID) as [u |]; [| by intros [= <-]].
    destruct (negb _); [by intros [= <-] |].
    destruct (ByScheduler _ !! _) as [bySched |]; [| done]. simpl. intros [= <-].
    revert Ho'. unfold nackReenqueue. destruct (Z.leb _ _).
    + by apply enqueueLocked_rheaps.
    + destruct (Z.ltb 0 _); [done |]. by apply enqueueLocked_rheaps.
  - unfold OutstandingReset. destruct (unack b !! evalID) as [u |]; [| by intros [= <-]].
    destruct (negb _); [by intros [= <-] |]. by destruct (negb _); intros [= <-].
  - unfold PauseNackTimeout. destruct (unack b !! evalID) as [u |]; [| by intros [= <-]].
    destruct (negb _); [by intros [= <-] |]. by destruct (negb _); intros [= <-].
  - unfold ResumeNackTimeout.
    destruct (unack b !! evalID) as [u |]; [| by intros [= <-]].
    by destruct (negb _); intros [= <-].
  - intros [= <-]. unfold nackTimerExpire. destruct (unack b !! evalID) as [u |]; [| done].
    by destruct (NackTimer u).
  - destruct (timeWait b !! evalID) as [e |]; intros [= <-]; [| done].
    revert Ho'. unfold enqueueWaiting. by apply enqueueLocked_rheaps.
  - destruct (find _ _) as [p |]; intros [= <-]; [| done].
    revert Ho'. unfold delayedEvalFire. by apply enqueueLocked_rheaps.
Qed.

Lemma NoDup_fmap_coarser {A B C : Type} (f : A -> B) (g : A -> C) (l : list A) :
  NoDup (f <$> l) -> (∀ a b, a ∈ l -> b ∈ l -> g a = g b -> f a = f b) ->
  NoDup (g <$> l).
Proof.
  induction l as [| x l IH]; intros Hnd Hfg; [constructor |].
  rewrite fmap_cons in *. apply NoDup_cons in Hnd as [Hx Hnd]. apply NoDup_cons. split.
  - intros Hin. apply list_elem_of_fmap in Hin as (y & Hxy & Hy). apply Hx.
    apply list_elem_of_fmap. exists y. split; [| done].
    apply Hfg; [by left | by right | done].
  - apply IH; [done |]. intros a b Ha Hb. apply Hfg; by right.
Qed.

(** In one namespace the evaluations of a ready queue belong to pairwise
    different jobs. *)
Lemma ready_distinct_jobs (ns : string) (b : EvalBroker) (q : string)
    (l : list Evaluation) :
  BrokerInv b -> Holds (fun e => Namespace e = ns) b -> ready b !! q = Some l ->
  NoDup (JobID <$> l).
Proof.
  intros Hinv Hns Hl. apply (NoDup_fmap_coarser ID).
  - pose proof (inv_nodup b Hinv) as Hnd. unfold allEvals, inflight, readyEvals in Hnd.
    rewrite (queued_lookup (ready b) q l Hl) in Hnd.
    rewrite <- !app_assoc, fmap_app in Hnd. by apply NoDup_app in Hnd as [? _].
  - intros x y Hx Hy Hjob.
    assert (∀ z, z ∈ l -> jobEvals b !! namespacedID z = Some (ID z)) as Hrep.
    { intros z Hz. apply (inv_inflight_job b Hinv). unfold inflight, readyEvals.
      rewrite elem_of_app. left. apply elem_of_queued. eauto. }
    pose proof (Hrep x Hx) as Hrx. pose proof (Hrep y Hy) as Hry.
    assert (namespacedID x = namespacedID y) as Hk.
    { unfold namespacedID. rewrite Hjob.
      by rewrite (holds_ready _ b Hns q l x Hl Hx), (holds_ready _ b Hns q l y Hl Hy). }
    rewrite Hk in Hrx. congruence.
Qed.

Lemma readyOrders_namespace (ns : string) (b : EvalBroker) :
  BrokerInv b -> Holds (fun e => Namespace e = ns) b -> readyOrders b.
Proof.
  intros Hinv Hns q l Hl. apply LessOrders_distinct_jobs.
  by apply (ready_distinct_jobs ns b q).
Qed.

Lemma inNamespace_opEvals (ns : string) (o : op) (e : Evaluation) :
  inNamespace ns o = true -> e ∈ opEvals o -> Namespace e = ns.
Proof.
  unfold inNamespace. rewrite forallb_forall. intros Hall He.
  apply String.eqb_eq, Hall. by apply list_elem_of_In.
Qed.

Lemma run_rheaps (ns : string) (ops : list op) (b b' : EvalBroker) :
  BrokerInv b -> Holds (fun e => Namespace e = ns) b -> ReadyHeaps b ->
  forallb validOp ops = true -> forallb (inNamespace ns) ops = true ->
  run b ops = Some b' ->
  BrokerInv b' ∧ Holds (fun e => Namespace e = ns) b' ∧ ReadyHeaps b'.
Proof.
  revert b. induction ops as [| o ops IH]; intros b Hinv Hns Hb Hval Hin; simpl.
  - by intros [= <-].
  - simpl in Hval, Hin. apply andb_true_iff in Hval as [Ho Hval].
    apply andb_true_iff in Hin as [Hno Hin].
    destruct (step b o) as [b1 |] eqn:Hstep; [| done].
    pose proof (step_inv b b1 o Hinv Ho Hstep) as Hinv1.
    assert (Holds (fun e => Namespace e = ns) b1) as Hns1.
    { apply (step_holds (fun e => Namespace e = ns) (fun e w H => H) b b1 o Hns); [| done].
      intros e. by apply inNamespace_opEvals. }
    apply IH; try done.
    apply (step_rheaps b b1 o Hb); [| | done]; by apply (readyOrders_namespace ns).
Qed.

Lemma reachableIn_inv (ns : string) (limit : Z) (b : EvalBroker) :
  reachableIn ns limit b ->
  BrokerInv b ∧ Holds (fun e => Namespace e = ns) b ∧ ReadyHeaps b.
Proof.
  intros (timeout & initial & subsequent & b0 & ops & Hstart & Hval & Hin & Hrun).
  apply (run_rheaps ns ops b0); try done.
  - by apply (startBroker_inv _ _ _ _ _ Hstart).
  - revert Hstart. unfold startBroker, NewEvalBroker.
    destruct (Z.ltb timeout 0); [done |]. intros [= <-].
    split; simpl; try (intros ? ? ?; by rewrite lookup_empty);
      try (intros ? ?; by rewrite lookup_empty).
    intros p Hp. by apply elem_of_nil in Hp.
  - revert Hstart. unfold startBroker, NewEvalBroker.
    destruct (Z.ltb timeout 0); [done |]. intros [= <-]. intros q l. simpl.
    by rewrite lookup_empty.
Qed.

Lemma reachableIn_demo (ns : string) (limit : Z) (ops : list op) :
  forallb validOp ops = true -> forallb (inNamespace ns) ops = true ->
  run (SetEnabled (emptyBroker 5 0 0 limit) true) ops = Some (demoBroker limit ops) ->
  reachableIn ns limit (demoBroker limit ops).
Proof.
  intros Hval Hin Hrun.
  exists 5, 0, 0, (SetEnabled (emptyBroker 5 0 0 limit) true), ops.
  split; [| done]. reflexivity.
Qed.

(** X23: within one namespace the ready queues are priority queues.  Along
    every run whose evaluations have non-empty ids and all lie in the
    namespace [ns], every ready queue is in heap order and holds
    evaluations of pairwise different jobs; a scan that delivers takes the
    root of the ready queue of one of the requested classes, and no
    evaluation of that queue has a greater priority, or the same priority
    and a smaller create index. *)
Theorem scan_delivers_best_of_class (ns : string) (limit : Z) (b b' : EvalBroker)
    (schedulers : list string) (rnd : nat) (token : string) (e : Evaluation)
    (t : string) :
  reachableIn ns limit b ->
  scanForSchedulers b schedulers rnd token = Ok b' (Some (e, t)) ->
  (∀ q l, ready b !! q = Some l -> heapOrdered l (length l) ∧ NoDup (JobID <$> l)) ∧
  ∃ sched l, sched ∈ schedulers ∧ ready b !! sched = Some l ∧ l !! 0%nat = Some e ∧
    ∀ y, y ∈ l -> Priority y <= Priority e ∧
                  (Priority y = Priority e -> CreateIndex e <= CreateIndex y).
Proof.
  intros Hr Hscan. destruct (reachableIn_inv ns limit b Hr) as (Hinv & Hns & Hb).
  split.
  { intros q l Hl. split; [by apply (Hb q) | by apply (ready_distinct_jobs ns b q)]. }
  destruct (scan_Ok_dequeues b b' schedulers rnd token (e, t) Hscan) as (sched & Hel & Hd).
  destruct (eligible_sound b schedulers) as [Hs1 _].
  destruct (Hs1 sched Hel) as [Hin _].
  revert Hd. unfold dequeueForSched.
  destruct (ready b !! sched) as [l |] eqn:Hl; simpl; [| done].
  destruct (heap_Pop l) as [[x pending] |] eqn:Hpop; [| done].
  destruct (ByScheduler _ !! _); [| done]. intros [= _ <- _].
  exists sched, l. split; [done |]. split; [done |].
  apply (heap_Pop_greatest l pending x); [| by apply (Hb sched) | done].
  by apply (ready_distinct_jobs ns b sched).
Qed.

Lemma scan_delivers_best_of_class_witness :
  ∃ sched l, sched ∈ ["A"%string] ∧
    ready (demoBroker 3 [OpEnqueue evalP10; OpEnqueue evalP50; OpEnqueue evalP30]) !! sched
      = Some l ∧
    l !! 0%nat = Some evalP50 ∧
    ∀ y, y ∈ l -> Priority y <= Priority evalP50 ∧
                  (Priority y = Priority evalP50 ->
                   CreateIndex evalP50 <= CreateIndex y).
Proof.
  apply (proj2 (scan_delivers_best_of_class "default" 3
                  (demoBroker 3 [OpEnqueue evalP10; OpEnqueue evalP50; OpEnqueue evalP30])
                  (demoBroker 3 [OpEnqueue evalP10; OpEnqueue evalP50; OpEnqueue evalP30;
                                 OpDequeue ["A"%string] 0 "t1"])
                  ["A"%string] 0 "t1" evalP50 "t1"
                  (reachableIn_demo "default" 3
                     [OpEnqueue evalP10; OpEnqueue evalP50; OpEnqueue evalP30]
                     eq_refl eq_refl
                     ltac:(vm_compute; reflexivity))
                  ltac:(vm_compute; reflexivity))).
Defined.

(** ** One JobID in two namespaces *)

(** An Enqueue that goes straight to the ready queue. *)
Lemma Enqueue_admits (b : EvalBroker) (e : Evaluation) :
  enabled b = true -> evals b !! ID e = None -> Wait e <= 0 -> WaitUntil e = 0 ->
  jobEvals b !! namespacedID e = None ->
  Enqueue b e =
    enqueueReady
      (with_jobEvals (with_evals b (<[ID e:=0]> (evals b)))
         (<[namespacedID e:=ID e]> (jobEvals b))) e (EvalType e).
Proof.
  intros Hen Hev Hw Hu Hj. unfold Enqueue, processEnqueue. rewrite Hen, Hev. simpl.
  destruct (Z.ltb_spec 0 (Wait e)); [lia |]. rewrite Hu. simpl.
  unfold enqueueLocked. simpl. rewrite Hen, Hj. done.
Qed.

(** A scan of the one class [q] whose ready queue is [l]. *)
Lemma scan_one_ready (b : EvalBroker) (q token : string) (rnd : nat)
    (l pending : list Evaluation) (e : Evaluation) :
  enabled b = true -> ready b !! q = Some l -> heap_Pop l = Some (e, pending) ->
  is_Some (ByScheduler (stats b) !! q) ->
  ∃ b', scanForSchedulers b [q] rnd token = Ok b' (Some (e, token)).
Proof.
  intros Hen Hl Hpop [s Hs]. unfold scanForSchedulers. rewrite Hen. simpl.
  unfold eligible. simpl. unfold scanStep. rewrite Hl.
  destruct (Peek l) as [rdy |] eqn:Hpeek.
  2:{ apply Peek_None in Hpeek. by subst l. }
  simpl. unfold dequeueForSched. rewrite Hl. simpl. rewrite Hpop, Hs. by eexists.
Qed.

(** Two evaluations with one JobID lie in a heap by create index. *)
Lemma two_in_create_order (a c : Evaluation) :
  JobID a = JobID c -> CreateIndex a < CreateIndex c ->
  heap_Push (heap_Push [] a) c = [a; c] ∧ heap_Push (heap_Push [] c) a = [a; c] ∧
  heap_Pop [a; c] = Some (a, [c]).
Proof.
  intros Hjob Hci.
  assert (LessEval c a = false) as Hca.
  { apply LessEval_false. intros [(Hne & _) | [_ Hlt]]; [by apply Hne | lia]. }
  assert (LessEval a c = true) as Hac.
  { apply LessEval_spec. right. split; [by left | done]. }
  repeat split.
  - unfold heap_Push, up. simpl. unfold Less. simpl. by rewrite Hca.
  - unfold heap_Push, up. simpl. unfold Less. simpl. by rewrite Hac.
Qed.

(** X24: Less looks at the JobID and not at the namespace.  Two
    evaluations with the same JobID in different namespaces, of one class
    and without delay, enqueued on a new broker in either order, are both
    on the ready queue of the class, and a scan of that class delivers the
    one with the smaller create index, whatever the two priorities are. *)
Theorem same_JobID_across_namespaces (timeout initial subsequent limit : Z)
    (b0 : EvalBroker) (a c : Evaluation) (rnd : nat) (token : string) :
  startBroker timeout initial subsequent limit = Some b0 ->
  JobID a = JobID c -> Namespace a ≠ Namespace c -> ID a ≠ ID c ->
  EvalType a = EvalType c ->
  Wait a <= 0 -> WaitUntil a = 0 -> Wait c <= 0 -> WaitUntil c = 0 ->
  CreateIndex a < CreateIndex c ->
  ready (Enqueue (Enqueue b0 a) c) !! EvalType a = Some [a; c] ∧
  ready (Enqueue (Enqueue b0 c) a) !! EvalType a = Some [a; c] ∧
  (∃ b', scanForSchedulers (Enqueue (Enqueue b0 a) c) [EvalType a] rnd token =
           Ok b' (Some (a, token))) ∧
  (∃ b', scanForSchedulers (Enqueue (Enqueue b0 c) a) [EvalType a] rnd token =
           Ok b' (Some (a, token))).
Proof.
  intros Hstart Hjob Hns Hid Hty Hwa Hua Hwc Huc Hci.
  destruct (two_in_create_order a c Hjob Hci) as (Hpush1 & Hpush2 & Hpop).
  revert Hstart. unfold startBroker, NewEvalBroker.
  destruct (Z.ltb timeout 0); [done |]. intros [= <-].
  assert (namespacedID a ≠ namespacedID c) as Hk.
  { unfold namespacedID. congruence. }
  rewrite (Enqueue_admits _ a); [| done | done | done | done | done].
  rewrite (Enqueue_admits _ c); [| done | | done | done |].
  2:{ simpl. by rewrite lookup_insert_ne. }
  2:{ simpl. by rewrite lookup_insert_ne. }
  rewrite (Enqueue_admits _ c); [| done | done | done | done | done].
  rewrite (Enqueue_admits _ a); [| done | | done | done |].
  2:{ simpl. by rewrite lookup_insert_ne. }
  2:{ simpl. by rewrite lookup_insert_ne. }
  set (b2 := enqueueReady _ c _). set (b2' := enqueueReady _ a _).
  assert (ready b2 !! EvalType a = Some [a; c]) as Hr.
  { unfold b2, enqueueReady. simpl. rewrite <- Hty. rewrite !lookup_insert_eq. simpl.
    by rewrite <- Hpush1. }
  assert (ready b2' !! EvalType a = Some [a; c]) as Hr'.
  { unfold b2', enqueueReady. simpl. rewrite <- Hty. rewrite !lookup_insert_eq. simpl.
    by rewrite <- Hpush2. }
  split; [done |]. split; [done |]. split.
  - apply (scan_one_ready b2 _ _ _ [a; c] [c]); [done | done | done |].
    unfold b2, enqueueReady. simpl. rewrite <- Hty. rewrite lookup_insert_eq. by eexists.
  - apply (scan_one_ready b2' _ _ _ [a; c] [c]); [done | done | done |].
    unfold b2', enqueueReady. simpl. rewrite lookup_insert_eq. by eexists.
Qed.

Lemma same_JobID_across_namespaces_witness :
  ∃ b', scanForSchedulers
          (Enqueue (Enqueue (SetEnabled (emptyBroker 5 0 0 3) true) evalN10) evalN90)
          [EvalType evalN10] 0 "t1" = Ok b' (Some (evalN10, "t1"%string)).
Proof.
  apply (proj1 (proj2 (proj2
           (same_JobID_across_namespaces 5 0 0 3 (SetEnabled (emptyBroker 5 0 0 3) true)
              evalN10 evalN90 0 "t1" eq_refl eq_refl
              ltac:(discriminate) ltac:(discriminate) eq_refl
              ltac:(vm_compute; discriminate) eq_refl
              ltac:(vm_compute; discriminate) eq_refl eq_refl)))).
Defined.

(** ** The wake-up signal *)



